(** * Agentic process-orchestrator benchmark: flow catalog, anomaly
      injection, sequence monitor and scoring

    A shallow embedding of
    [examples/huggingface_x_kurrent_skills/agentic_benchmark.py].

    Python list objects live in an explicit store, because the generators
    copy a catalog list and then mutate the copy in place.  The draws of
    Python's [random] module are modelled by finite distributions: a
    computation returns the list of its possible outcomes, each with the
    denominator [d] of its probability [1/d]. *)

From Stdlib Require Import ZArith QArith Qabs String Ascii List Lia Lqa Floats Uint63
  DecimalString.
From stdpp Require Import base tactics option list list_numbers.
Import ListNotations.

Local Open Scope string_scope.
Local Open Scope list_scope.
Local Open Scope Z_scope.
#[local] Set Warnings "-inexact-float".

(** ** Python run-time model *)

(** The built-in exceptions the modelled code can raise. *)
Inductive exn : Type :=
| IndexError
| ValueError
| KeyError
| ZeroDivisionError.

Inductive result (A : Type) : Type :=
| Ok (a : A)
| Raise (e : exn).
Arguments Ok {A} a.
Arguments Raise {A} e.

#[global] Instance result_ret : MRet result := fun A (a : A) => Ok a.

#[global] Instance result_bind : MBind result :=
  fun A B (k : A -> result B) (r : result A) =>
    match r with
    | Ok a => k a
    | Raise e => Raise e
    end.

(** A reference to a list object, and the store of all list objects.  A new
    object is appended to the store, so its reference is the store's length
    at the time of allocation. *)
Abbreviation loc := nat (only parsing).
Abbreviation heap := (list (list string)) (only parsing).

(** An outcome [(d, x)] is the value [x] reached with probability [1/d]. *)
Definition dist (A : Type) : Type := list (positive * A).

Definition scale {A} (d : positive) (o : dist A) : dist A :=
  map (fun '(d', x) => ((d * d')%positive, x)) o.

(** Computations over the store that may draw random values and may raise. *)
Definition M (A : Type) : Type := heap -> dist (result A * heap).

#[global] Instance M_ret : MRet M :=
  fun A (a : A) (h : heap) => [(1%positive, (Ok a, h))].

#[global] Instance M_bind : MBind M :=
  fun A B (k : A -> M B) (m : M A) (h : heap) =>
    flat_map (fun '(d, (r, h')) =>
                match r with
                | Ok a => scale d (k a h')
                | Raise e => [(d, (Raise e, h'))]
                end) (m h).

Definition raise {A} (e : exn) : M A :=
  fun h => [(1%positive, (Raise e, h))].

(** A step that neither draws nor touches the store. *)
Definition lift {A} (r : result A) : M A :=
  fun h => [(1%positive, (r, h))].

(** [random.choice(seq)] on a Python sequence given by its elements:
    [IndexError] on an empty sequence, otherwise each position is equally
    likely. *)
Definition choice {A} (l : list A) : M A :=
  fun h =>
    match l with
    | [] => [(1%positive, (Raise IndexError, h))]
    | _ => map (fun a => (Pos.of_nat (length l), (Ok a, h))) l
    end.

(** [random.randint(a, b)]: an integer of [a..b], both ends included;
    [ValueError] on an empty range. *)
Definition randint (a b : Z) : M Z :=
  if b <? a then raise ValueError else choice (seqZ a (b - a + 1)).

(** Python subscript normalisation: an index of [-len..len-1] names a
    position, anything else is out of range. *)
Definition norm_index (len i : Z) : option nat :=
  if (0 <=? i) && (i <? len) then Some (Z.to_nat i)
  else if (- len <=? i) && (i <? 0) then Some (Z.to_nat (len + i))
  else None.

(** Reading a list object.  Every reference the program holds was handed out
    by an allocation, so a dangling reference does not occur; the model
    reads it as the empty list. *)
Definition deref (h : heap) (l : loc) : list string := default [] (h !! l).

Definition list_read (l : loc) : M (list string) :=
  fun h => [(1%positive, (Ok (deref h l), h))].

(** [len(l)] *)
Definition list_len (l : loc) : M Z :=
  xs ← list_read l; mret (Z.of_nat (length xs)).

(** [l.copy()]: a new list object with the same elements. *)
Definition list_copy (l : loc) : M loc :=
  fun h => [(1%positive, (Ok (length h), h ++ [deref h l]))].

(** [l[i]] *)
Definition list_getitem (l : loc) (i : Z) : M string :=
  xs ← list_read l;
  match norm_index (Z.of_nat (length xs)) i with
  | Some n => match xs !! n with Some x => mret x | None => raise IndexError end
  | None => raise IndexError
  end.

(** [l[i] = x], in place *)
Definition list_setitem (l : loc) (i : Z) (x : string) : M unit :=
  fun h =>
    match norm_index (Z.of_nat (length (deref h l))) i with
    | Some n => [(1%positive, (Ok tt, <[l := <[n := x]> (deref h l)]> h))]
    | None => [(1%positive, (Raise IndexError, h))]
    end.

(** [l.pop(i)], in place *)
Definition list_pop (l : loc) (i : Z) : M string :=
  fun h =>
    match norm_index (Z.of_nat (length (deref h l))) i with
    | Some n =>
        match deref h l !! n with
        | Some x => [(1%positive, (Ok x, <[l := delete n (deref h l)]> h))]
        | None => [(1%positive, (Raise IndexError, h))]
        end
    | None => [(1%positive, (Raise IndexError, h))]
    end.

(** [random.choice(l)] on a list object *)
Definition list_choice (l : loc) : M string :=
  xs ← list_read l; choice xs.

(** Python dicts that no statement of the program assigns into are values:
    association lists in insertion order, which is the order of [keys()]
    and [values()]. *)
Definition dict (V : Type) : Type := list (string * V).

Definition keys {V} (d : dict V) : list string := map fst d.
Definition values {V} (d : dict V) : list V := map snd d.

Fixpoint dict_get {V} (d : dict V) (k : string) : option V :=
  match d with
  | [] => None
  | (k', v) :: d' => if String.eqb k' k then Some v else dict_get d' k
  end.

(** [d[k]] *)
Definition dict_getitem {V} (d : dict V) (k : string) : M V :=
  match dict_get d k with
  | Some v => mret v
  | None => raise KeyError
  end.

(** ** The module's data *)

Inductive AnomalyType : Type :=
| NONE
| WRONG_EVENT
| SKIPPED_STEP
| OUT_OF_ORDER
| IMPOSSIBLE_TRANSITION.

Definition AnomalyType_value (a : AnomalyType) : string :=
  match a with
  | NONE => "none"
  | WRONG_EVENT => "wrong_event"
  | SKIPPED_STEP => "skipped_step"
  | OUT_OF_ORDER => "out_of_order"
  | IMPOSSIBLE_TRANSITION => "impossible"
  end.

(** The list objects that the literal of [VALID_FLOWS] creates when the
    module is loaded, in the order in which they are written. *)
Definition catalog_heap : heap :=
  [ (* trade *)
    ["OrderSubmitted"; "OrderValidated"; "OrderRouted"; "OrderFilled";
     "TradeBooked"; "TradeSettled"; "TradeConfirmed"];
    ["OrderSubmitted"; "OrderRejected"];
    ["OrderSubmitted"; "OrderValidated"; "OrderRouted"; "OrderCancelled"];
    ["OrderSubmitted"; "OrderValidated"; "OrderRouted";
     "OrderPartiallyFilled"; "OrderFilled"; "TradeBooked"; "TradeSettled"; "TradeConfirmed"];
    (* payment *)
    ["PaymentInitiated"; "PaymentValidated"; "PaymentPendingApproval";
     "PaymentApproved"; "PaymentExecuted"; "PaymentCompleted"];
    ["PaymentInitiated"; "PaymentValidated"; "PaymentPendingApproval"; "PaymentRejected"];
    ["PaymentInitiated"; "PaymentValidated"; "PaymentPendingApproval";
     "PaymentApproved"; "PaymentExecuted"; "PaymentFailed"];
    (* risk *)
    ["RiskLimitBreached"; "RiskAlertCreated"; "RiskAlertAcknowledged";
     "RiskMitigationStarted"; "RiskMitigationCompleted"; "RiskAlertResolved"];
    ["RiskLimitBreached"; "RiskAlertCreated"; "RiskAlertAcknowledged"; "RiskAlertResolved"];
    (* compliance *)
    ["ComplianceCheckTriggered"; "ComplianceCheckPassed"];
    ["ComplianceCheckTriggered"; "ComplianceFlagRaised";
     "ComplianceReviewAssigned"; "ComplianceReviewCompleted"; "ComplianceCaseClosed"];
    (* account *)
    ["AccountApplicationSubmitted"; "AccountKYCStarted"; "AccountDocumentReceived";
     "AccountKYCCompleted"; "AccountOpened"; "AccountFunded"]
  ].

(** [VALID_FLOWS]: process type, then flow name, then the list object. *)
Definition VALID_FLOWS : dict (dict loc) :=
  [ ("trade", [("normal", 0%nat); ("rejected", 1%nat); ("cancelled", 2%nat); ("partial", 3%nat)]);
    ("payment", [("normal", 4%nat); ("rejected", 5%nat); ("failed", 6%nat)]);
    ("risk", [("mitigated", 7%nat); ("accepted", 8%nat)]);
    ("compliance", [("clear", 9%nat); ("flagged", 10%nat)]);
    ("account", [("opened", 11%nat)]) ].

(** ** Sequence generation *)

Definition generate_normal_sequence (process_type : option string) : M (loc * string) :=
  process_type ← match process_type with
                 | None => choice (keys VALID_FLOWS)
                 | Some p => mret p
                 end;
  flows ← dict_getitem VALID_FLOWS process_type;
  flow_name ← choice (keys flows);
  flow ← dict_getitem flows flow_name;
  sequence ← list_copy flow;
  mret (sequence, process_type).

(** The [WRONG_EVENT] branch of [generate_anomalous_sequence] (lines 118-125). *)
Definition inject_wrong_event (sequence : loc) (process_type : string) : M Z :=
  other_process ← choice (List.filter (fun p => negb (String.eqb p process_type))
                                      (keys VALID_FLOWS));
  other_flows ← dict_getitem VALID_FLOWS other_process;
  other_sequence ← choice (values other_flows);
  wrong_event ← list_choice other_sequence;
  n ← list_len sequence;
  anomaly_position ← randint 1 (n - 1);
  _ ← list_setitem sequence anomaly_position wrong_event;
  mret anomaly_position.

(** The [SKIPPED_STEP] branch (lines 128-132). *)
Definition inject_skipped_step (sequence : loc) (anomaly_position : Z) : M Z :=
  n ← list_len sequence;
  if 3 <? n then
    skip_position ← randint 1 (n - 2);
    let anomaly_position := skip_position in
    _ ← list_pop sequence skip_position;
    mret anomaly_position
  else mret anomaly_position.

(** The [OUT_OF_ORDER] branch (lines 135-140).  The right-hand side of the
    tuple assignment is evaluated first, left to right, then the two
    targets are assigned left to right. *)
Definition inject_out_of_order (sequence : loc) (anomaly_position : Z) : M Z :=
  n ← list_len sequence;
  if 2 <? n then
    swap_position ← randint 1 (n - 2);
    a ← list_getitem sequence (swap_position + 1);
    b ← list_getitem sequence swap_position;
    _ ← list_setitem sequence swap_position a;
    _ ← list_setitem sequence (swap_position + 1) b;
    mret (swap_position + 1)
  else mret anomaly_position.

(** Lines 111-142 of [generate_anomalous_sequence]: what happens to the
    copied [sequence] once [process_type] and [anomaly_type] are drawn. *)
Definition inject_anomaly (sequence : loc) (process_type : string)
    (anomaly_type : AnomalyType) : M (loc * string * AnomalyType * Z) :=
  n ← list_len sequence;
  let anomaly_type := if n <? 3 then WRONG_EVENT else anomaly_type in
  let anomaly_position := -1 in
  anomaly_position ←
    match anomaly_type with
    | WRONG_EVENT => inject_wrong_event sequence process_type
    | SKIPPED_STEP => inject_skipped_step sequence anomaly_position
    | OUT_OF_ORDER => inject_out_of_order sequence anomaly_position
    | _ => mret anomaly_position
    end;
  mret (sequence, process_type, anomaly_type, anomaly_position).

Definition generate_anomalous_sequence : M (loc * string * AnomalyType * Z) :=
  process_type ← choice (keys VALID_FLOWS);
  flows ← dict_getitem VALID_FLOWS process_type;
  flow_name ← choice (keys flows);
  flow ← dict_getitem flows flow_name;
  sequence ← list_copy flow;
  anomaly_type ← choice [WRONG_EVENT; SKIPPED_STEP; OUT_OF_ORDER];
  inject_anomaly sequence process_type anomaly_type.

(** ** The agent: family detection, per-transition analysis, monitoring *)

(** [sub in s] on Python strings *)
Fixpoint str_contains (sub s : string) : bool :=
  String.prefix sub s ||
  match s with
  | EmptyString => false
  | String _ s' => str_contains sub s'
  end.

Definition event_to_process : dict string :=
  [ ("Order", "trade"); ("Trade", "trade");
    ("Payment", "payment");
    ("Risk", "risk");
    ("Compliance", "compliance");
    ("Account", "account"); ("KYC", "account") ].

(** The [for prefix, process in ...items()] loop: the first entry whose key
    occurs in [event] decides. *)
Fixpoint detect_loop (items : dict string) (event : string) : option string :=
  match items with
  | [] => None
  | (prefix, process) :: items' =>
      if str_contains prefix event then Some process else detect_loop items' event
  end.

Definition _detect_process_type (event : string) : option string :=
  detect_loop event_to_process event.

(** Truth value of an [Optional[str]]: [None] and the empty string are false. *)
Definition truthy (o : option string) : bool :=
  match o with
  | Some s => negb (String.eqb s EmptyString)
  | None => false
  end.

Definition option_string_eqb (a b : option string) : bool :=
  match a, b with
  | Some x, Some y => String.eqb x y
  | None, None => true
  | _, _ => false
  end.

Record AgentDecision : Type := {
  event_observed : string;
  event_predicted : string;
  confidence : float;
  is_anomaly : bool;
  anomaly_type : option string;
  explanation : string;
  suggested_action : string
}.

Section Agent.

(** [ProcessOrchestrator.predict_next_event]: the call of the language
    model, an external function of the event history (greedy decoding, so
    the same history gives the same answer). *)
Variable predict_next_event : list string -> string.

Definition analyze_event (event_history : list string) (actual_event : string)
    : AgentDecision :=
  let predicted := predict_next_event event_history in
  let is_anomaly := negb (String.eqb predicted actual_event) in
  let '(anomaly_type, explanation, action) :=
    if is_anomaly then
      let last_event := List.last event_history "START" in
      let actual_process := _detect_process_type actual_event in
      let expected_process := _detect_process_type predicted in
      if negb (option_string_eqb actual_process expected_process)
         && truthy actual_process && truthy expected_process
      then
        (Some "cross_process_contamination",
         ("Expected " ++ default "None" expected_process ++ " event '" ++ predicted
          ++ "', but received " ++ default "None" actual_process ++ " event '"
          ++ actual_event ++ "'. Events from different process types are mixed.")%string,
         ("Investigate why " ++ actual_event
          ++ " appeared in this stream. Check for event routing errors.")%string)
      else
        (Some "unexpected_transition",
         ("Expected '" ++ predicted ++ "' after '" ++ last_event
          ++ "', but observed '" ++ actual_event ++ "'. This transition is unusual.")%string,
         ("Review the process. If '" ++ actual_event
          ++ "' is valid, the process may have taken an exception path. Otherwise, investigate the cause.")%string)
    else
      (None,
       ("Event '" ++ actual_event
        ++ "' matches prediction. Process is following expected flow.")%string,
       "No action needed. Continue monitoring.")
  in
  {| event_observed := actual_event;
     event_predicted := predicted;
     confidence := if negb is_anomaly then 0.88%float else 0.75%float;
     is_anomaly := is_anomaly;
     anomaly_type := anomaly_type;
     explanation := explanation;
     suggested_action := action |}.

(** The body of the [for i in range(1, len(events))] loop, over the
    remaining values of [i]. *)
Fixpoint monitor_loop (events : list string) (range : list nat)
    (decisions : list AgentDecision) : result (list AgentDecision) :=
  match range with
  | [] => Ok decisions
  | i :: range' =>
      let history := take i events in
      match events !! i with
      | Some actual =>
          let decision := analyze_event history actual in
          monitor_loop events range' (decisions ++ [decision])
      | None => Raise IndexError
      end
  end.

Definition monitor_sequence (events : list string) : result (list AgentDecision) :=
  monitor_loop events (seq 1 (length events - 1)) [].

End Agent.

(** ** Python numbers

    The metric code of [run_benchmark] is written against Python's
    arithmetic operators.  It is embedded once, over the operators it uses,
    and read twice: over exact rationals, the arithmetic the formulas
    denote, and over CPython's [int] and binary64 [float] values. *)

Class PyArith (R : Type) : Type := {
  of_int : Z -> R;                (* an [int] value *)
  py_add : R -> R -> R;           (* [a + b] *)
  py_mul : R -> R -> R;           (* [a * b] *)
  py_truediv : R -> R -> result R;   (* [a / b], [ZeroDivisionError] on [b == 0] *)
  py_gt0 : R -> bool              (* [a > 0] *)
}.

#[global] Instance Q_PyArith : PyArith Q := {
  of_int := inject_Z;
  py_add := Qplus;
  py_mul := Qmult;
  py_truediv := fun a b =>
    if Qeq_bool b 0 then Raise ZeroDivisionError else Ok (a / b)%Q;
  py_gt0 := fun a => negb (Qle_bool a 0)
}.

Inductive pynum : Type :=
| PyInt (z : Z)
| PyFloat (f : float).

(** [float(z)].  Exact for [|z| < 2^53], which covers the counters of any
    benchmark run; the conversion goes through a 63-bit integer. *)
Definition float_of_int (z : Z) : float :=
  if z <? 0 then PrimFloat.opp (PrimFloat.of_uint63 (Uint63.of_Z (- z)))
  else PrimFloat.of_uint63 (Uint63.of_Z z).

Definition to_float (x : pynum) : float :=
  match x with
  | PyInt z => float_of_int z
  | PyFloat f => f
  end.

Definition pynum_is_zero (x : pynum) : bool :=
  match x with
  | PyInt z => z =? 0
  | PyFloat f => PrimFloat.eqb f 0%float
  end.

(** [int op int] stays an [int]; a [float] operand makes the result a
    [float].  [/] always gives a [float]: on two [int]s below [2^53] the
    conversions are exact and the binary64 quotient is the correctly rounded
    true quotient, as CPython computes it. *)
#[global] Instance pynum_PyArith : PyArith pynum := {
  of_int := PyInt;
  py_add := fun a b =>
    match a, b with
    | PyInt x, PyInt y => PyInt (x + y)
    | _, _ => PyFloat (PrimFloat.add (to_float a) (to_float b))
    end;
  py_mul := fun a b =>
    match a, b with
    | PyInt x, PyInt y => PyInt (x * y)
    | _, _ => PyFloat (PrimFloat.mul (to_float a) (to_float b))
    end;
  py_truediv := fun a b =>
    if pynum_is_zero b then Raise ZeroDivisionError
    else Ok (PyFloat (PrimFloat.div (to_float a) (to_float b)));
  py_gt0 := fun a =>
    match a with
    | PyInt z => 0 <? z
    | PyFloat f => PrimFloat.ltb 0%float f
    end
}.

(** ** Scoring *)

(** A test case, the dict built in lines 286-303. *)
Record TestCase : Type := {
  tc_sequence : loc;
  tc_process_type : string;
  tc_has_anomaly : bool;
  tc_anomaly_type : option AnomalyType;
  tc_anomaly_position : option Z
}.

(** One entry of [results["details"]]. *)
Record Detail : Type := {
  d_sequence : loc;
  d_has_anomaly : bool;
  d_anomaly_type : option string;
  d_agent_detected : bool;
  d_result : string;
  d_decisions : list (string * string * bool)
}.

Record Results : Type := {
  true_positives : Z;
  false_positives : Z;
  true_negatives : Z;
  false_negatives : Z;
  details : list Detail
}.

Record Metrics (R : Type) : Type := {
  precision : R;
  recall : R;
  f1_score : R;
  accuracy : R
}.
Arguments precision {R} _.
Arguments recall {R} _.
Arguments f1_score {R} _.
Arguments accuracy {R} _.

Definition initial_results : Results :=
  {| true_positives := 0; false_positives := 0;
     true_negatives := 0; false_negatives := 0; details := [] |}.

(** Lines 329-343: the counter update and the label of one test case. *)
Definition score (results : Results) (has_anomaly : bool)
    (decisions : list AgentDecision) : Results * string :=
  let agent_detected_anomaly := existsb is_anomaly decisions in
  if has_anomaly && agent_detected_anomaly then
    ({| true_positives := true_positives results + 1;
        false_positives := false_positives results;
        true_negatives := true_negatives results;
        false_negatives := false_negatives results;
        details := details results |}, "TP")
  else if has_anomaly && negb agent_detected_anomaly then
    ({| true_positives := true_positives results;
        false_positives := false_positives results;
        true_negatives := true_negatives results;
        false_negatives := false_negatives results + 1;
        details := details results |}, "FN")
  else if negb has_anomaly && agent_detected_anomaly then
    ({| true_positives := true_positives results;
        false_positives := false_positives results + 1;
        true_negatives := true_negatives results;
        false_negatives := false_negatives results;
        details := details results |}, "FP")
  else
    ({| true_positives := true_positives results;
        false_positives := false_positives results;
        true_negatives := true_negatives results + 1;
        false_negatives := false_negatives results;
        details := details results |}, "TN").

(** Lines 345-359: the record appended to [results["details"]]. *)
Definition append_detail (results : Results) (test_case : TestCase)
    (decisions : list AgentDecision) (result_type : string) : Results :=
  {| true_positives := true_positives results;
     false_positives := false_positives results;
     true_negatives := true_negatives results;
     false_negatives := false_negatives results;
     details := details results ++
       [{| d_sequence := tc_sequence test_case;
           d_has_anomaly := tc_has_anomaly test_case;
           d_anomaly_type := option_map AnomalyType_value (tc_anomaly_type test_case);
           d_agent_detected := existsb is_anomaly decisions;
           d_result := result_type;
           d_decisions := map (fun d => (event_predicted d, event_observed d, is_anomaly d))
                              decisions |}] |}.

(** Lines 362-375: the derived metrics. *)
Definition compute_metrics {R} `{PyArith R} (tp fp tn fn : Z) : result (Metrics R) :=
  precision ← (if 0 <? tp + fp then py_truediv (of_int tp) (of_int (tp + fp))
               else Ok (of_int 0));
  recall ← (if 0 <? tp + fn then py_truediv (of_int tp) (of_int (tp + fn))
            else Ok (of_int 0));
  f1 ← (if py_gt0 (py_add precision recall)
        then py_truediv (py_mul (py_mul (of_int 2) precision) recall)
                        (py_add precision recall)
        else Ok (of_int 0));
  accuracy ← py_truediv (of_int (tp + tn)) (of_int (tp + tn + fp + fn));
  Ok {| precision := precision; recall := recall; f1_score := f1; accuracy := accuracy |}.

(** A loop whose body reads and updates one accumulator. *)
Fixpoint for_each {A B} (xs : list A) (body : A -> B -> M B) (acc : B) : M B :=
  match xs with
  | [] => mret acc
  | x :: xs' => acc' ← body x acc; for_each xs' body acc'
  end.

Section Benchmark.

Variable predict_next_event : list string -> string.

(** The body of the loop over the test cases (lines 322-359). *)
Definition run_test_case (test_case : TestCase) (results : Results) : M Results :=
  let sequence := tc_sequence test_case in
  let has_anomaly := tc_has_anomaly test_case in
  events ← list_read sequence;
  decisions ← lift (monitor_sequence predict_next_event events);
  let '(results, result_type) := score results has_anomaly decisions in
  mret (append_detail results test_case decisions result_type).

(** [run_benchmark] without its printing and its report file: the final
    [results] and [results["metrics"]].  [random.shuffle] draws one of the
    orderings of the test cases. *)
Definition run_benchmark (num_normal num_anomalous : Z)
    : M (Results * Metrics pynum) :=
  test_cases ← for_each (seq 0 (Z.to_nat num_normal))
    (fun _ test_cases =>
       '(sequence, process_type) ← generate_normal_sequence None;
       mret (test_cases ++ [{| tc_sequence := sequence;
                               tc_process_type := process_type;
                               tc_has_anomaly := false;
                               tc_anomaly_type := None;
                               tc_anomaly_position := None |}])) [];
  test_cases ← for_each (seq 0 (Z.to_nat num_anomalous))
    (fun _ test_cases =>
       '(sequence, process_type, anomaly_type, anomaly_pos) ← generate_anomalous_sequence;
       mret (test_cases ++ [{| tc_sequence := sequence;
                               tc_process_type := process_type;
                               tc_has_anomaly := true;
                               tc_anomaly_type := Some anomaly_type;
                               tc_anomaly_position := Some anomaly_pos |}])) test_cases;
  test_cases ← choice (permutations test_cases);
  results ← for_each test_cases run_test_case initial_results;
  metrics ← lift (compute_metrics (true_positives results) (false_positives results)
                                  (true_negatives results) (false_negatives results));
  mret (results, metrics).

End Benchmark.

(** ** The predictor: prompt and clean-up of the answer

    The agent above takes its predictor as a parameter.  This is the method
    [ProcessOrchestrator.predict_next_event] itself (lines 186-201), over
    the text-generation pipeline it calls.  A Python [str] is embedded as a
    string with one character per code point, for the code points below
    256. *)

Definition newline : string := String (ascii_of_nat 10) EmptyString.

(** [str(n)] for a natural number. *)
Definition str_of_nat (n : nat) : string := NilZero.string_of_uint (Nat.to_uint n).

(** [c.isspace()]: the whitespace characters below 256 are the controls
    9-13 and 28-31, the space, NEL (133) and the no-break space (160). *)
Definition isspace (c : ascii) : bool :=
  let n := nat_of_ascii c in
  ((9 <=? n) && (n <=? 13) || (28 <=? n) && (n <=? 32) || (n =? 133) || (n =? 160))%nat.

(** [c in chars] *)
Definition in_chars (chars : string) (c : ascii) : bool :=
  existsb (Ascii.eqb c) (list_ascii_of_string chars).

(** [s.lstrip(...)] and [s.rstrip(...)], the characters to remove given as
    a predicate. *)
Fixpoint lstrip (remove : ascii -> bool) (s : string) : string :=
  match s with
  | EmptyString => EmptyString
  | String c s' => if remove c then lstrip remove s' else s
  end.

Fixpoint rstrip (remove : ascii -> bool) (s : string) : string :=
  match s with
  | EmptyString => EmptyString
  | String c s' =>
      match rstrip remove s' with
      | EmptyString => if remove c then EmptyString else String c EmptyString
      | r => String c r
      end
  end.

(** [s.strip()] *)
Definition str_strip (s : string) : string := rstrip isspace (lstrip isspace s).

(** [s.split()]: the maximal runs of characters that are not whitespace,
    from left to right; [word] is the run being read. *)
Fixpoint split_from (s word : string) : list string :=
  match s with
  | EmptyString =>
      match word with
      | EmptyString => []
      | _ => [word]
      end
  | String c s' =>
      if isspace c then
        match word with
        | EmptyString => split_from s' EmptyString
        | _ => word :: split_from s' EmptyString
        end
      else split_from s' (word ++ String c EmptyString)
  end.

Definition str_split (s : string) : list string := split_from s EmptyString.

(** One chat message, a dict with the keys [role] and [content]. *)
Record Message : Type := {
  role : string;
  content : string
}.

Definition SYSTEM_PROMPT : string :=
  ("You are a financial process prediction system. Given a sequence of events from a financial workflow, predict what event will happen next."
   ++ newline ++ EmptyString
   ++ newline ++ "Event types you may encounter:"
   ++ newline ++ "- Trade: OrderSubmitted -> OrderValidated -> OrderRouted -> OrderFilled -> TradeBooked -> TradeSettled -> TradeConfirmed"
   ++ newline ++ "- Trade (rejected): OrderSubmitted -> OrderRejected"
   ++ newline ++ "- Payment: PaymentInitiated -> PaymentValidated -> PaymentPendingApproval -> PaymentApproved -> PaymentExecuted -> PaymentCompleted"
   ++ newline ++ "- Risk: RiskLimitBreached -> RiskAlertCreated -> RiskAlertAcknowledged -> RiskMitigationStarted -> RiskMitigationCompleted -> RiskAlertResolved"
   ++ newline ++ "- Compliance: ComplianceCheckTriggered -> ComplianceCheckPassed (or ComplianceFlagRaised -> ComplianceReviewAssigned -> ...)"
   ++ newline ++ "- Account: AccountApplicationSubmitted -> AccountKYCStarted -> AccountDocumentReceived -> AccountKYCCompleted -> AccountOpened -> AccountFunded"
   ++ newline ++ EmptyString
   ++ newline ++ "Respond with ONLY the next event type name.")%string.

(** Lines 188-194: the messages sent to the pipeline. *)
Definition prompt_messages (event_history : list string) : list Message :=
  let context_lines :=
    imap (fun i evt => (str_of_nat (i + 1) ++ ". " ++ evt)%string) event_history in
  let context := String.concat newline context_lines in
  [ {| role := "system"; content := SYSTEM_PROMPT |};
    {| role := "user";
       content := ("Event sequence:" ++ newline ++ context ++ newline ++ newline
                   ++ "What is the next event?")%string |} ].

Section Predictor.

(** [self.pipe(messages, return_full_text=False)]: the pipeline, an external
    function; each of its outputs is given by its [generated_text]. *)
Variable pipe : list Message -> list string.

Definition predict_next_event (event_history : list string) : result string :=
  let messages := prompt_messages event_history in
  let output := pipe messages in
  generated_text ← match output !! 0%nat with
                   | Some o => Ok o
                   | None => Raise IndexError
                   end;
  let prediction := str_strip generated_text in
  prediction ← match prediction with
               | EmptyString => Ok EmptyString
               | _ => match str_split prediction !! 0%nat with
                      | Some word => Ok word
                      | None => Raise IndexError
                      end
               end;
  let prediction := rstrip (in_chars ".,;:") prediction in
  Ok prediction.

End Predictor.

(** ** The agent in front of the pipeline

    The agent of the sections above takes a predictor that answers on every
    history.  Here [analyze_event], [monitor_sequence] and the body of the
    scoring loop call [predict_next_event] itself, and pass on the
    [IndexError] it raises when the pipeline returns no output. *)

Section PipelineAgent.

Variable pipe : list Message -> list string.

(** [ProcessOrchestrator.analyze_event] (lines 203-241): the call of line
    208, then the analysis of its answer. *)
Definition pipeline_analyze_event (event_history : list string) (actual_event : string)
    : result AgentDecision :=
  predicted ← predict_next_event pipe event_history;
  Ok (analyze_event (fun _ => predicted) event_history actual_event).

(** [ProcessOrchestrator.monitor_sequence] (lines 257-265): the loop over
    the remaining values of [i]. *)
Fixpoint pipeline_monitor_loop (events : list string) (range : list nat)
    (decisions : list AgentDecision) : result (list AgentDecision) :=
  match range with
  | [] => Ok decisions
  | i :: range' =>
      let history := take i events in
      match events !! i with
      | Some actual =>
          decision ← pipeline_analyze_event history actual;
          pipeline_monitor_loop events range' (decisions ++ [decision])
      | None => Raise IndexError
      end
  end.

Definition pipeline_monitor_sequence (events : list string)
    : result (list AgentDecision) :=
  pipeline_monitor_loop events (seq 1 (length events - 1)) [].

(** The body of the loop over the test cases (lines 322-359). *)
Definition pipeline_run_test_case (test_case : TestCase) (results : Results)
    : M Results :=
  let sequence := tc_sequence test_case in
  let has_anomaly := tc_has_anomaly test_case in
  events ← list_read sequence;
  decisions ← lift (pipeline_monitor_sequence events);
  let '(results, result_type) := score results has_anomaly decisions in
  mret (append_detail results test_case decisions result_type).

End PipelineAgent.

(** ** The report on the true positives *)

(** Line 402 of [run_benchmark]: the first flagged decision of a detail
    record, [[d for d in tp_case["decisions"] if d["is_anomaly"]][0]]. *)
Definition first_flagged (detail : Detail) : result (string * string * bool) :=
  match List.filter (fun d => d.2) (d_decisions detail) !! 0%nat with
  | Some d => Ok d
  | None => Raise IndexError
  end.

(** * Vocabulary of the properties *)

(** ** The catalog *)

(** [s] is the event sequence stored for flow [name] of process type [p]. *)
Definition catalog_variant (p name : string) (s : list string) : Prop :=
  exists flows l,
    dict_get VALID_FLOWS p = Some flows /\ dict_get flows name = Some l /\
    catalog_heap !! l = Some s.

(** Every list object of the catalog still holds the sequence it was
    created with. *)
Definition catalog_intact (h : heap) : Prop :=
  forall l s, catalog_heap !! l = Some s -> h !! l = Some s.

(** [l] refers to one of the catalog's own list objects. *)
Definition catalog_ref (l : loc) : Prop := is_Some (catalog_heap !! l).

(** The check of the whole catalog: every event name of every sequence
    is detected as the process type the sequence is stored under. *)
Definition catalog_detection_ok : bool :=
  forallb (fun '(p, flows) =>
             forallb (fun '(_, l) =>
                        forallb (fun e => option_string_eqb (_detect_process_type e) (Some p))
                                (deref catalog_heap l))
                     (flows : dict loc))
          VALID_FLOWS.

(** The process types other than [p], in catalog order: the list the
    [WRONG_EVENT] branch draws from. *)
Definition others (p : string) : list string :=
  List.filter (fun q => negb (String.eqb q p)) (keys VALID_FLOWS).

(** ** Outcomes and probabilities *)

(** [sat m h Post]: every outcome of [m] started in [h] satisfies [Post]. *)
Definition sat {A} (m : M A) (h : heap) (Post : result A -> heap -> Prop) : Prop :=
  forall d r h', In (d, (r, h')) (m h) -> Post r h'.

(** What [m] must establish for [m ≫= k] to establish [Post]. *)
Definition after {A B} (k : A -> M B) (Post : result B -> heap -> Prop)
    (r : result A) (h : heap) : Prop :=
  match r with
  | Ok a => sat (k a) h Post
  | Raise e => Post (Raise e) h
  end.

(** [h'] differs from [h] at most in the list object [l]. *)
Definition only_writes (l : loc) (h h' : heap) : Prop :=
  forall l', l' <> l -> h' !! l' = h !! l'.

(** The probability that an outcome of [o] satisfies [E]. *)
Definition Pr {A} (o : dist A) (E : A -> bool) : Q :=
  fold_right Qplus 0%Q (map (fun '(d, x) => if E x then (1 # d)%Q else 0%Q) o).

(** The sum of [f] over the elements of [l]. *)
Fixpoint Qsum {A} (f : A -> Q) (l : list A) : Q :=
  match l with
  | [] => 0%Q
  | a :: l' => (f a + Qsum f l')%Q
  end.

(** ** The injection *)

(** The kind [inject_anomaly] works with (lines 111-113): the drawn one on
    a sequence of three or more events, [WRONG_EVENT] on a shorter one. *)
Definition effective_kind (s : list string) (anomaly_type : AnomalyType) : AnomalyType :=
  if Z.of_nat (length s) <? 3 then WRONG_EVENT else anomaly_type.

(** The branch [inject_anomaly] takes for a kind, started with
    [anomaly_position = -1]. *)
Definition inject_branch (sequence : loc) (process_type : string)
    (anomaly_type : AnomalyType) : M Z :=
  match anomaly_type with
  | WRONG_EVENT => inject_wrong_event sequence process_type
  | SKIPPED_STEP => inject_skipped_step sequence (-1)
  | OUT_OF_ORDER => inject_out_of_order sequence (-1)
  | _ => mret (-1)
  end.

(** The end of the [WRONG_EVENT] branch (lines 124-125), once the foreign
    event [e] is drawn. *)
Definition overwrite (l : loc) (e : string) : M Z :=
  n ← list_len l;
  anomaly_position ← randint 1 (n - 1);
  _ ← list_setitem l anomaly_position e;
  mret anomaly_position.

(** The sequence with the elements at positions [q] and [q+1] exchanged. *)
Definition swap_adjacent (q : nat) (s : list string) : list string :=
  match s !! q, s !! S q with
  | Some b, Some a => <[S q := b]> (<[q := a]> s)
  | _, _ => s
  end.

(** Did the injection report position [i0]? *)
Definition position_is (i0 : Z)
    : result (loc * string * AnomalyType * Z) * heap -> bool :=
  fun '(r, _) =>
    match r with
    | Ok (_, _, _, i) => i =? i0
    | Raise _ => false
    end.

(** Does the event now at the reported position belong to family [q0]? *)
Definition written_family_is (q0 : string)
    : result (loc * string * AnomalyType * Z) * heap -> bool :=
  fun '(r, h') =>
    match r with
    | Ok (l, _, _, i) =>
        match deref h' l !! Z.to_nat i with
        | Some e => option_string_eqb (_detect_process_type e) (Some q0)
        | None => false
        end
    | Raise _ => false
    end.

(** ** The predictor *)

(** [predict] is a perfect oracle for the sequence [s]: given the first [i]
    events of [s] as history, it answers the event of [s] that comes next. *)
Definition oracle_for (predict : list string -> string) (s : list string) : Prop :=
  forall i x, (0 < i)%nat -> s !! i = Some x -> predict (take i s) = x.

(** The oracle that reads the next event off [s]. *)
Definition variant_oracle (s : list string) : list string -> string :=
  fun history => default EmptyString (s !! length history).

(** ** Metrics *)

(** The ratio as the specification words it: [a / b], and [0] when the
    denominator is [0]. *)
Definition guarded_ratio (a b : Z) : Q :=
  if b =? 0 then 0%Q else (inject_Z a / inject_Z b)%Q.

(** ** Calls of the core operations *)


Section Calls.

Variable predict : list string -> string.



End Calls.

(** ** Substrings, returned sequences and mutations *)

(** [sub] occurs in [s]: some text, then [sub], then some text. *)
Definition occurs (sub s : string) : Prop :=
  exists pre post, s = (pre ++ sub ++ post)%string.

(** Equality of two event sequences, as a boolean. *)
Definition sequence_eqb (a b : list string) : bool :=
  if List.list_eq_dec string_dec a b then true else false.

(** Did [generate_normal_sequence] return a list holding [s]? *)
Definition returns_sequence (s : list string)
    : result (loc * string) * heap -> bool :=
  fun '(r, h') =>
    match r with
    | Ok (l, _) => sequence_eqb (deref h' l) s
    | Raise _ => false
    end.

(** [mutation p s k i s']: the sequence [s'] and the position [i] are what
    an injection of kind [k] makes of the sequence [s] of process type [p]:
    one event overwritten by an event of another process type, one event
    removed, or two neighbours exchanged. *)
Inductive mutation (p : string) (s : list string)
    : AnomalyType -> Z -> list string -> Prop :=
| mutation_wrong_event (i : Z) (e q name' : string) (sq : list string) :
    1 <= i <= Z.of_nat (length s) - 1 ->
    q <> p -> catalog_variant q name' sq -> In e sq ->
    mutation p s WRONG_EVENT i (<[Z.to_nat i := e]> s)
| mutation_skipped_step (i : Z) :
    3 < Z.of_nat (length s) -> 1 <= i <= Z.of_nat (length s) - 2 ->
    mutation p s SKIPPED_STEP i (delete (Z.to_nat i) s)
| mutation_out_of_order (q : Z) :
    2 < Z.of_nat (length s) -> 1 <= q <= Z.of_nat (length s) - 2 ->
    mutation p s OUT_OF_ORDER (q + 1) (swap_adjacent (Z.to_nat q) s).

(** Is [s] one of the sequences of the catalog? *)
Definition catalog_member (s : list string) : bool :=
  existsb (sequence_eqb s) catalog_heap.


(** ** The cleaned answer *)

(** Every character of [s] satisfies [P]. *)
Fixpoint all_chars (P : ascii -> bool) (s : string) : bool :=
  match s with
  | EmptyString => true
  | String c s' => P c && all_chars P s'
  end.

Definition punctuation : ascii -> bool := in_chars ".,;:".

(** [cleaned text p]: [text] is whitespace, then [p], then characters of
    [.,;:], then nothing or a whitespace character and anything; [p] holds
    no whitespace and does not end in one of [.,;:]; and when [p] and the
    punctuation are both empty, nothing follows. *)
Inductive cleaned (text p : string) : Prop :=
| cleaned_intro (ws punct rest : string) :
    text = (ws ++ p ++ punct ++ rest)%string ->
    all_chars isspace ws = true ->
    all_chars (fun c => negb (isspace c)) p = true ->
    (forall q c, p = (q ++ String c EmptyString)%string -> punctuation c = false) ->
    all_chars punctuation punct = true ->
    (rest = EmptyString \/
     (p ++ punct)%string <> EmptyString /\
     exists c r, rest = String c r /\ isspace c = true) ->
    cleaned text p.

(** ** The pipeline's answers *)

(** What [predict_next_event] returns on a history; the empty string stands
    in where it raises. *)
Definition answer (pipe : list Message -> list string) (event_history : list string)
    : string :=
  match predict_next_event pipe event_history with
  | Ok prediction => prediction
  | Raise _ => EmptyString
  end.

(** The histories the monitor consults the predictor on for [events] are
    [events[:i]] for [1 <= i < len(events)].  The pipeline answers on
    [events] when it returns an output on each of them, and is silent on
    [events] when it returns none on one of them. *)
Definition answers_on (pipe : list Message -> list string) (events : list string)
    : Prop :=
  forall i, (1 <= i < length events)%nat ->
            pipe (prompt_messages (take i events)) <> [].

Definition silent_on (pipe : list Message -> list string) (events : list string)
    : Prop :=
  exists i, (1 <= i < length events)%nat /\
            pipe (prompt_messages (take i events)) = [].

(** ** Consistency of a results record *)

(** The number of detail records with a given label. *)
Definition label_count (label : string) (results : Results) : Z :=
  Z.of_nat (length (List.filter (fun d => String.eqb (d_result d) label)
                                (details results))).

(** A detail record agrees with itself: a recorded decision is anomalous
    exactly when its two event names differ, [agent_detected] says whether
    some recorded decision is anomalous, and the label is the one of
    [has_anomaly] and [agent_detected]. *)
Definition detail_consistent (d : Detail) : Prop :=
  Forall (fun x => x.2 = negb (String.eqb x.1.1 x.1.2)) (d_decisions d) /\
  d_agent_detected d = existsb (fun x => x.2) (d_decisions d) /\
  d_result d = (if d_has_anomaly d
                then if d_agent_detected d then "TP" else "FN"
                else if d_agent_detected d then "FP" else "TN").

(** The four counters are the numbers of detail records with their label. *)
Definition results_consistent (results : Results) : Prop :=
  true_positives results = label_count "TP" results /\
  false_positives results = label_count "FP" results /\
  true_negatives results = label_count "TN" results /\
  false_negatives results = label_count "FN" results /\
  Forall detail_consistent (details results).

(** * Properties *)

(** ** The monitor *)

Section AgentFacts.

Variable predict : list string -> string.

Lemma monitor_loop_total (events : list string) (range : list nat) :
  Forall (fun i => (i < length events)%nat) range ->
  forall acc,
    monitor_loop predict events range acc
    = Ok (acc ++ map (fun i => analyze_event predict (take i events)
                                  (default EmptyString (events !! i))) range).
Proof.
  induction 1 as [|i range Hi _ IH]; intros acc; simpl.
  - by rewrite app_nil_r.
  - destruct (lookup_lt_is_Some_2 events i Hi) as [x Hx].
    rewrite Hx, IH. simpl. by rewrite <- app_assoc.
Qed.

(** The monitor never raises: it returns one decision per adjacent pair. *)
Lemma monitor_sequence_total (events : list string) :
  monitor_sequence predict events
  = Ok (map (fun i => analyze_event predict (take i events) (default EmptyString (events !! i)))
            (seq 1 (length events - 1))).
Proof.
  unfold monitor_sequence. rewrite monitor_loop_total; [done|].
  apply Forall_forall. intros i Hi. apply elem_of_seq in Hi. lia.
Qed.

Lemma monitor_sequence_lookup (events : list string) (i : nat) (observed : string) :
  events !! S i = Some observed ->
  exists ds,
    monitor_sequence predict events = Ok ds /\
    length ds = (length events - 1)%nat /\
    ds !! i = Some (analyze_event predict (take (S i) events) observed).
Proof.
  intros Hobs. eexists. split; [apply monitor_sequence_total|].
  assert (S i < length events)%nat by (eapply lookup_lt_Some; eauto).
  split; [by rewrite length_map, length_seq|].
  rewrite list_lookup_fmap, lookup_seq_lt by lia. simpl. by rewrite Hobs.
Qed.

End AgentFacts.

Lemma str_eqb_neq (a b : string) : String.eqb a b = false <-> a <> b.
Proof. apply String.eqb_neq. Qed.

Lemma detect_loop_values (items : dict string) (event f : string) :
  detect_loop items event = Some f -> In f (values items).
Proof.
  induction items as [|[k v] items IH]; simpl; [done|].
  destruct (str_contains k event); [intros [= ->]; by left | auto].
Qed.

(** A detected family is one of the five names, so it is a true value. *)
Lemma detect_truthy (event f : string) :
  _detect_process_type event = Some f -> truthy (Some f) = true.
Proof.
  intros H. apply detect_loop_values in H. simpl in H.
  intuition subst; reflexivity.
Qed.

Lemma option_string_eqb_spec (a b : option string) :
  option_string_eqb a b = true <-> a = b.
Proof.
  destruct a as [x|], b as [y|]; simpl; try (split; congruence).
  rewrite String.eqb_eq. split; congruence.
Qed.

(** What the contamination test of [analyze_event] decides. *)
Lemma contamination_test (observed predicted : string) :
  negb (option_string_eqb (_detect_process_type observed) (_detect_process_type predicted))
  && truthy (_detect_process_type observed) && truthy (_detect_process_type predicted) = true
  <-> exists f g, _detect_process_type observed = Some f /\
                  _detect_process_type predicted = Some g /\ f <> g.
Proof.
  destruct (_detect_process_type observed) as [f|] eqn:Ho,
           (_detect_process_type predicted) as [g|] eqn:Hp; simpl.
  - apply detect_truthy in Ho, Hp. simpl in Ho, Hp. rewrite Ho, Hp, !andb_true_r.
    rewrite negb_true_iff, str_eqb_neq. split.
    + intros Hne. exists f, g. done.
    + intros (f' & g' & [= <-] & [= <-] & Hne). done.
  - rewrite andb_false_r. split; [done|]. intros (? & ? & _ & [=] & _).
  - split; [done|]. intros (? & ? & [=] & _).
  - split; [done|]. intros (? & ? & [=] & _).
Qed.

(** C1 (as the code has it): on the empty sequence, and on a sequence of one
    event, the monitor returns normally with no decision, whatever the
    predictor is; on every sequence it returns one decision per transition
    and raises nothing. *)
Theorem monitor_sequence_empty (predict : list string -> string) :
  monitor_sequence predict [] = Ok [] /\
  (forall e, monitor_sequence predict [e] = Ok []) /\
  forall events, exists ds,
    monitor_sequence predict events = Ok ds /\
    length ds = (length events - 1)%nat.
Proof.
  split; [reflexivity|]. split; [reflexivity|].
  intros events. eexists. split; [apply monitor_sequence_total|].
  by rewrite length_map, length_seq.
Qed.

(** C1 fails as stated: the monitor does not fail on every sequence of
    length 0. *)
Lemma monitor_sequence_empty_no_failure :
  ~ (forall (predict : list string -> string) (events : list string),
        length events = 0%nat ->
        exists e, monitor_sequence predict events = Raise e).
Proof.
  intros H. destruct (H (fun _ => "OrderSubmitted") [] eq_refl) as [e He].
  discriminate He.
Qed.

(** C3: the decision for the transition [(i, i+1)] observes [events[i+1]],
    predicts from [events[:i+1]], is anomalous exactly when the two names
    differ, and an anomalous decision is [cross_process_contamination]
    exactly when both names resolve to families and the families differ,
    [unexpected_transition] otherwise. *)
Theorem transition_verdict (predict : list string -> string)
    (events : list string) (i : nat) (observed : string) :
  events !! S i = Some observed ->
  exists ds d,
    monitor_sequence predict events = Ok ds /\ ds !! i = Some d /\
    let predicted := predict (take (S i) events) in
    event_observed d = observed /\
    event_predicted d = predicted /\
    (is_anomaly d = true <-> predicted <> observed) /\
    (is_anomaly d = false -> anomaly_type d = None) /\
    (is_anomaly d = true ->
       (anomaly_type d = Some "cross_process_contamination" <->
          exists f g, _detect_process_type observed = Some f /\
                      _detect_process_type predicted = Some g /\ f <> g) /\
       (anomaly_type d <> Some "cross_process_contamination" ->
          anomaly_type d = Some "unexpected_transition") /\
       (_detect_process_type observed = None ->
        _detect_process_type predicted = None ->
          anomaly_type d = Some "unexpected_transition")).
Proof.
  intros Hobs.
  destruct (monitor_sequence_lookup predict events i observed Hobs) as (ds & Hds & _ & Hd).
  exists ds, (analyze_event predict (take (S i) events) observed).
  split; [done|]. split; [done|]. cbv zeta.
  set (predicted := predict (take (S i) events)).
  unfold analyze_event. fold predicted.
  pose proof (contamination_test observed predicted) as Hct.
  destruct (String.eqb predicted observed) eqn:Heq; simpl.
  - apply String.eqb_eq in Heq. repeat split; done.
  - apply str_eqb_neq in Heq.
    destruct (negb _ && _ && _) eqn:Htest; simpl.
    + repeat split; try done.
      * intros _. by apply Hct.
      * intros Ho Hp. destruct (proj1 Hct eq_refl) as (f & g & Hf & _). congruence.
    + repeat split; try done.
      intros Hex. apply Hct in Hex. done.
Qed.

(** The demo sequence with a payment event in a trade flow. *)
Lemma transition_verdict_witness :
  exists ds d,
    monitor_sequence (fun _ => "OrderRouted")
      ["OrderSubmitted"; "OrderValidated"; "PaymentFailed"; "OrderFilled"] = Ok ds /\
    ds !! 1%nat = Some d /\ is_anomaly d = true /\
    anomaly_type d = Some "cross_process_contamination".
Proof.
  destruct (transition_verdict (fun _ => "OrderRouted")
              ["OrderSubmitted"; "OrderValidated"; "PaymentFailed"; "OrderFilled"]
              1%nat "PaymentFailed" eq_refl)
    as (ds & d & Hds & Hd & _ & _ & Han & _ & Hcat).
  exists ds, d. split; [exact Hds|]. split; [exact Hd|].
  assert (Ha : is_anomaly d = true) by (apply Han; discriminate).
  split; [exact Ha|].
  apply (proj1 (Hcat Ha)). exists "payment", "trade".
  split; [reflexivity|]. split; [reflexivity|]. discriminate.
Defined.

(** ** Scoring *)

Lemma existsb_is_anomaly (decisions : list AgentDecision) :
  existsb is_anomaly decisions = true
  <-> Exists (fun d => is_anomaly d = true) decisions.
Proof.
  rewrite existsb_exists, Exists_exists. split.
  - intros (d & Hin & Hd). exists d. by rewrite list_elem_of_In.
  - intros (d & Hin & Hd). exists d. by rewrite <- list_elem_of_In.
Qed.

(** C5: one test case is monitored, labelled from its ground truth and
    from whether some decision is anomalous, and exactly the counter of
    that label grows by one. *)
Theorem test_case_classification (predict : list string -> string)
    (test_case : TestCase) (results : Results) (h : heap) :
  exists decisions results',
    monitor_sequence predict (deref h (tc_sequence test_case)) = Ok decisions /\
    run_test_case predict test_case results h = [(1%positive, (Ok results', h))] /\
    let detected := existsb is_anomaly decisions in
    (detected = true <-> Exists (fun d => is_anomaly d = true) decisions) /\
    exists detail,
      details results' = details results ++ [detail] /\
      d_agent_detected detail = detected /\
      match tc_has_anomaly test_case, detected with
      | true, true =>
          d_result detail = "TP" /\
          true_positives results' = true_positives results + 1 /\
          false_negatives results' = false_negatives results /\
          false_positives results' = false_positives results /\
          true_negatives results' = true_negatives results
      | true, false =>
          d_result detail = "FN" /\
          true_positives results' = true_positives results /\
          false_negatives results' = false_negatives results + 1 /\
          false_positives results' = false_positives results /\
          true_negatives results' = true_negatives results
      | false, true =>
          d_result detail = "FP" /\
          true_positives results' = true_positives results /\
          false_negatives results' = false_negatives results /\
          false_positives results' = false_positives results + 1 /\
          true_negatives results' = true_negatives results
      | false, false =>
          d_result detail = "TN" /\
          true_positives results' = true_positives results /\
          false_negatives results' = false_negatives results /\
          false_positives results' = false_positives results /\
          true_negatives results' = true_negatives results + 1
      end.
Proof.
  pose proof (monitor_sequence_total predict (deref h (tc_sequence test_case))) as Hmon.
  set (decisions := map _ _) in Hmon.
  exists decisions.
  unfold run_test_case, mbind, M_bind, list_read, lift. simpl.
  rewrite Hmon. simpl.
  unfold score.
  destruct (tc_has_anomaly test_case) eqn:Hhas,
           (existsb is_anomaly decisions) eqn:Hdet; simpl;
    eexists; (split; [reflexivity|]); (split; [reflexivity|]);
    (split; [rewrite <- existsb_is_anomaly, Hdet; done|]);
    eexists; (split; [reflexivity|]); simpl; rewrite ?Hhas; done.
Qed.

(** ** Family detection on the catalog *)

Lemma dict_get_In {V} (d : dict V) (k : string) (v : V) :
  dict_get d k = Some v -> In (k, v) d.
Proof.
  induction d as [|[k' v'] d IH]; simpl; [done|].
  destruct (String.eqb_spec k' k) as [->|_]; [intros [= ->]; by left | auto].
Qed.

Lemma detect_catalog_event (p name : string) (s : list string) (e : string) :
  catalog_variant p name s -> In e s -> _detect_process_type e = Some p.
Proof.
  intros (flows & l & Hp & Hn & Hs) He.
  apply dict_get_In in Hp. simpl in Hp.
  repeat (destruct Hp as [[= <- <-]|Hp]); try done;
    apply dict_get_In in Hn; simpl in Hn;
    repeat (destruct Hn as [[= <- <-]|Hn]); try done;
    injection Hs as <-; simpl in He;
    repeat (destruct He as [<-|He]); try done; reflexivity.
Qed.

(** C10: every event name of a catalog variant is resolved by
    [_detect_process_type] to a family, and that family is the process type
    the variant is stored under. *)
Theorem catalog_events_detected (p name : string) (s : list string) (e : string) :
  catalog_variant p name s -> In e s -> _detect_process_type e = Some p.
Proof.
  intros (flows & l & Hp & Hn & Hs) He.
  assert (Hok : catalog_detection_ok = true) by (vm_compute; reflexivity).
  unfold catalog_detection_ok in Hok. rewrite forallb_forall in Hok.
  specialize (Hok (p, flows) (dict_get_In _ _ _ Hp)). cbv beta iota in Hok.
  rewrite forallb_forall in Hok.
  specialize (Hok (name, l) (dict_get_In _ _ _ Hn)). cbv beta iota in Hok.
  rewrite forallb_forall in Hok. unfold deref in Hok. rewrite Hs in Hok.
  apply option_string_eqb_spec, Hok, He.
Qed.

(** [AccountKYCStarted] contains both [Account] and [KYC]; the first key
    decides. *)
Lemma catalog_events_detected_witness :
  _detect_process_type "AccountKYCStarted" = Some "account".
Proof.
  apply (catalog_events_detected "account" "opened"
           ["AccountApplicationSubmitted"; "AccountKYCStarted"; "AccountDocumentReceived";
            "AccountKYCCompleted"; "AccountOpened"; "AccountFunded"]).
  - exists [("opened", 11%nat)], 11%nat. repeat split; reflexivity.
  - simpl. right. left. reflexivity.
Defined.

(** ** Derived metrics *)

Lemma Q_truediv_ok (a b : Z) :
  0 < b -> py_truediv (inject_Z a) (inject_Z b) = Ok (inject_Z a / inject_Z b)%Q.
Proof.
  intros Hb. simpl. destruct (Qeq_bool (inject_Z b) 0) eqn:E; [|done].
  apply Qeq_bool_iff in E. unfold Qeq in E. simpl in E. lia.
Qed.

Lemma Q_ratio_nonneg (a b : Z) : 0 <= a -> 0 < b -> (0 <= inject_Z a / inject_Z b)%Q.
Proof.
  intros Ha Hb. apply Qle_shift_div_l.
  - unfold Qlt. simpl. lia.
  - rewrite Qmult_0_l. unfold Qle. simpl. lia.
Qed.

Lemma Q_gt0_spec (x : Q) :
  (0 <= x)%Q -> py_gt0 x = negb (Qeq_bool x 0).
Proof.
  intros Hx. simpl. f_equal.
  destruct (Qle_bool x 0) eqn:Hle, (Qeq_bool x 0) eqn:Heq; try done.
  - apply Qle_bool_iff in Hle. apply Qeq_bool_neq in Heq.
    destruct Heq. by apply Qle_antisym.
  - apply Qeq_bool_iff in Heq. rewrite Heq in Hle. discriminate Hle.
Qed.

Lemma guarded_ratio_nonneg (a b : Z) : 0 <= a -> 0 <= b -> (0 <= guarded_ratio a b)%Q.
Proof.
  intros Ha Hb. unfold guarded_ratio. destruct (Z.eqb_spec b 0); [done|].
  apply Q_ratio_nonneg; lia.
Qed.

(** C4: over exact rationals, with non-negative counters of a non-empty
    test set, the metrics are the four ratios, [0] replacing a ratio whose
    denominator is [0]; without a test case the accuracy division raises.
    At TP=8, FP=2, TN=7, FN=3 the values are 0.8, 0.727, 0.762 and 0.75
    (within 0.001), in exact arithmetic and in binary64. *)
Theorem derived_metrics :
  (forall tp fp tn fn : Z,
      0 <= tp -> 0 <= fp -> 0 <= tn -> 0 <= fn -> 0 < tp + fp + tn + fn ->
      exists m : Metrics Q,
        compute_metrics tp fp tn fn = Ok m /\
        precision m = guarded_ratio tp (tp + fp) /\
        recall m = guarded_ratio tp (tp + fn) /\
        f1_score m = (if Qeq_bool (precision m + recall m) 0 then 0
                      else 2 * precision m * recall m / (precision m + recall m))%Q /\
        accuracy m = (inject_Z (tp + tn) / inject_Z (tp + fp + tn + fn))%Q) /\
  compute_metrics (R:=Q) 0 0 0 0 = Raise ZeroDivisionError /\
  compute_metrics (R:=pynum) 0 0 0 0 = Raise ZeroDivisionError /\
  (exists m : Metrics Q,
      compute_metrics 8 2 7 3 = Ok m /\
      (precision m == 0.8)%Q /\ (Qabs (recall m - 0.727) <= 0.001)%Q /\
      (accuracy m == 0.75)%Q /\ (Qabs (f1_score m - 0.762) <= 0.001)%Q) /\
  (exists p r f a : float,
      compute_metrics 8 2 7 3
      = Ok {| precision := PyFloat p; recall := PyFloat r;
              f1_score := PyFloat f; accuracy := PyFloat a |} /\
      p = 0.8%float /\ a = 0.75%float /\
      PrimFloat.leb 0.726 r = true /\ PrimFloat.leb r 0.728 = true /\
      PrimFloat.leb 0.761 f = true /\ PrimFloat.leb f 0.763 = true).
Proof.
  split; [|split; [reflexivity|split; [reflexivity|split]]].
  - intros tp fp tn fn Htp Hfp Htn Hfn Htotal.
    pose proof (guarded_ratio_nonneg tp (tp + fp) Htp ltac:(lia)) as Hp.
    pose proof (guarded_ratio_nonneg tp (tp + fn) Htp ltac:(lia)) as Hr.
    assert (Hprec : (if 0 <? tp + fp
                     then py_truediv (of_int (R:=Q) tp) (of_int (tp + fp))
                     else Ok (of_int 0)) = Ok (guarded_ratio tp (tp + fp))).
    { unfold guarded_ratio. destruct (Z.ltb_spec 0 (tp + fp)).
      - rewrite (proj2 (Z.eqb_neq _ _)) by lia. apply Q_truediv_ok. lia.
      - by replace (tp + fp) with 0 by lia. }
    assert (Hrec : (if 0 <? tp + fn
                    then py_truediv (of_int (R:=Q) tp) (of_int (tp + fn))
                    else Ok (of_int 0)) = Ok (guarded_ratio tp (tp + fn))).
    { unfold guarded_ratio. destruct (Z.ltb_spec 0 (tp + fn)).
      - rewrite (proj2 (Z.eqb_neq _ _)) by lia. apply Q_truediv_ok. lia.
      - by replace (tp + fn) with 0 by lia. }
    unfold compute_metrics. rewrite Hprec, Hrec.
    unfold mbind, result_bind.
    assert (Hsum : (0 <= guarded_ratio tp (tp + fp) + guarded_ratio tp (tp + fn))%Q).
    { replace 0%Q with (0 + 0)%Q by reflexivity. by apply Qplus_le_compat. }
    change (py_add ?a ?b) with (Qplus a b).
    rewrite (Q_gt0_spec _ Hsum).
    replace (py_truediv (of_int (tp + tn)) (of_int (tp + tn + fp + fn)))
      with (Ok (inject_Z (tp + tn) / inject_Z (tp + fp + tn + fn))%Q).
    2:{ symmetry. replace (tp + fp + tn + fn) with (tp + tn + fp + fn) by lia.
        apply Q_truediv_ok. lia. }
    destruct (Qeq_bool (guarded_ratio tp (tp + fp) + guarded_ratio tp (tp + fn)) 0)
      eqn:Hz; simpl.
    + eexists. split; [reflexivity|]. simpl. rewrite Hz. done.
    + rewrite Hz. eexists. split; [reflexivity|]. simpl. rewrite Hz. done.
  - eexists. split; [vm_compute; reflexivity|]. simpl.
    repeat split; vm_compute; congruence.
  - do 4 eexists. split; [vm_compute; reflexivity|].
    repeat split; vm_compute; reflexivity.
Qed.

(** The counters of the example: 8, 2, 7, 3. *)
Lemma derived_metrics_witness :
  exists m : Metrics Q,
    compute_metrics 8 2 7 3 = Ok m /\
    precision m = guarded_ratio 8 10 /\ recall m = guarded_ratio 8 11.
Proof.
  destruct (proj1 derived_metrics 8 2 7 3) as (m & Hm & Hp & Hr & _); try lia.
  exists m. split; [exact Hm|]. split; [exact Hp | exact Hr].
Defined.

(** ** Reasoning about computations *)

Lemma sat_mono {A} (m : M A) h (P Post : result A -> heap -> Prop) :
  sat m h P -> (forall r h', P r h' -> Post r h') -> sat m h Post.
Proof. intros Hm HPQ d r h' Hin. eauto. Qed.

Lemma sat_ret {A} (a : A) h (Post : result A -> heap -> Prop) :
  Post (Ok a) h -> sat (mret a) h Post.
Proof. intros HQ d r h' [[= <- <- <-]|[]]. done. Qed.

Lemma sat_raise {A} (e : exn) h (Post : result A -> heap -> Prop) :
  Post (Raise e) h -> sat (raise e) h Post.
Proof. intros HQ d r h' [[= <- <- <-]|[]]. done. Qed.

Lemma sat_lift {A} (x : result A) h (Post : result A -> heap -> Prop) :
  Post x h -> sat (lift x) h Post.
Proof. intros HQ d r h' [[= <- <- <-]|[]]. done. Qed.

Lemma sat_bind {A B} (m : M A) (k : A -> M B) h (Post : result B -> heap -> Prop) :
  sat m h (after k Post) -> sat (m ≫= k) h Post.
Proof.
  intros Hm d r h' Hin. unfold mbind, M_bind in Hin.
  apply in_flat_map in Hin as ([d0 [r0 h0]] & Hin0 & Hin1).
  specialize (Hm _ _ _ Hin0). destruct r0 as [a|e]; simpl in Hm.
  - unfold scale in Hin1. apply in_map_iff in Hin1 as ([d1 [r1 h1]] & [= <- <- <-] & Hin1).
    eauto.
  - destruct Hin1 as [[= <- <- <-]|[]]. done.
Qed.

Lemma sat_choice {A} (l : list A) h (Post : result A -> heap -> Prop) :
  (l = [] -> Post (Raise IndexError) h) ->
  (forall a, In a l -> Post (Ok a) h) ->
  sat (choice l) h Post.
Proof.
  intros Hnil Hin d r h' Ho. unfold choice in Ho. destruct l as [|a0 l0].
  - destruct Ho as [[= <- <- <-]|[]]. auto.
  - apply in_map_iff in Ho as (a & [= <- <- <-] & Ha). auto.
Qed.

Lemma sat_randint (a b : Z) h (Post : result Z -> heap -> Prop) :
  (b < a -> Post (Raise ValueError) h) ->
  (forall i, a <= i <= b -> Post (Ok i) h) ->
  sat (randint a b) h Post.
Proof.
  intros Hempty Hin. unfold randint. destruct (Z.ltb_spec b a).
  - apply sat_raise. auto.
  - apply sat_choice.
    + intros Hnil. apply (f_equal length) in Hnil. rewrite length_seqZ in Hnil.
      simpl in Hnil. lia.
    + intros i Hi. apply list_elem_of_In, elem_of_seqZ in Hi. apply Hin. lia.
Qed.

Lemma sat_list_read (l : loc) h (Post : result (list string) -> heap -> Prop) :
  Post (Ok (deref h l)) h -> sat (list_read l) h Post.
Proof. intros HQ d r h' [[= <- <- <-]|[]]. done. Qed.

Lemma sat_list_len (l : loc) h (Post : result Z -> heap -> Prop) :
  Post (Ok (Z.of_nat (length (deref h l)))) h -> sat (list_len l) h Post.
Proof. intros HQ. apply sat_bind, sat_list_read. simpl. by apply sat_ret. Qed.

Lemma sat_list_copy (l : loc) h (Post : result loc -> heap -> Prop) :
  Post (Ok (length h)) (h ++ [deref h l]) -> sat (list_copy l) h Post.
Proof. intros HQ d r h' [[= <- <- <-]|[]]. done. Qed.

Lemma sat_list_getitem (l : loc) (i : Z) h (Post : result string -> heap -> Prop) :
  Post (Raise IndexError) h -> (forall x, Post (Ok x) h) -> sat (list_getitem l i) h Post.
Proof.
  intros He Hx. apply sat_bind, sat_list_read. simpl.
  destruct (norm_index _ i) as [n|]; [|by apply sat_raise].
  destruct (deref h l !! n); [by apply sat_ret | by apply sat_raise].
Qed.

Lemma sat_list_setitem (l : loc) (i : Z) (x : string) h (Post : result unit -> heap -> Prop) :
  Post (Raise IndexError) h ->
  (forall xs, Post (Ok tt) (<[l := xs]> h)) ->
  sat (list_setitem l i x) h Post.
Proof.
  intros He Hx d r h' Hin. unfold list_setitem in Hin.
  destruct (norm_index _ i); destruct Hin as [[= <- <- <-]|[]]; auto.
Qed.

Lemma sat_list_pop (l : loc) (i : Z) h (Post : result string -> heap -> Prop) :
  Post (Raise IndexError) h ->
  (forall x xs, Post (Ok x) (<[l := xs]> h)) ->
  sat (list_pop l i) h Post.
Proof.
  intros He Hx d r h' Hin. unfold list_pop in Hin.
  destruct (norm_index _ i); [destruct (deref h l !! _)|];
    destruct Hin as [[= <- <- <-]|[]]; auto.
Qed.

Lemma sat_list_choice (l : loc) h (Post : result string -> heap -> Prop) :
  Post (Raise IndexError) h -> (forall x, In x (deref h l) -> Post (Ok x) h) ->
  sat (list_choice l) h Post.
Proof.
  intros He Hx. apply sat_bind, sat_list_read. simpl. apply sat_choice; auto.
Qed.

Lemma sat_dict_getitem {V} (d : dict V) (k : string) h (Post : result V -> heap -> Prop) :
  (dict_get d k = None -> Post (Raise KeyError) h) ->
  (forall v, dict_get d k = Some v -> Post (Ok v) h) ->
  sat (dict_getitem d k) h Post.
Proof.
  intros Hn Hs. unfold dict_getitem. destruct (dict_get d k).
  - apply sat_ret. auto.
  - apply sat_raise. auto.
Qed.


Ltac sat_step :=
  lazymatch goal with
  | |- sat (mbind _ _) _ _ => apply sat_bind
  | |- sat (mret _) _ _ => apply sat_ret
  | |- sat (raise _) _ _ => apply sat_raise
  | |- sat (lift _) _ _ => apply sat_lift
  | |- sat (choice _) _ _ => apply sat_choice; [intros ?|intros ? ?]
  | |- sat (randint _ _) _ _ => apply sat_randint; [intros ?|intros ? ?]
  | |- sat (list_read _) _ _ => apply sat_list_read
  | |- sat (list_len _) _ _ => apply sat_list_len
  | |- sat (list_copy _) _ _ => apply sat_list_copy
  | |- sat (list_getitem _ _) _ _ => apply sat_list_getitem; [|intros ?]
  | |- sat (list_setitem _ _ _) _ _ => apply sat_list_setitem; [|intros ?]
  | |- sat (list_pop _ _) _ _ => apply sat_list_pop; [|intros ? ?]
  | |- sat (list_choice _) _ _ => apply sat_list_choice; [|intros ? ?]
  | |- sat (dict_getitem _ _) _ _ => apply sat_dict_getitem; [intros ?|intros ? ?]
  | |- sat (if ?c then _ else _) _ _ => destruct c eqn:?
  | |- after _ _ _ _ => unfold after at 1; cbv beta iota
  end.

(** ** The catalog is never written *)

Lemma catalog_intact_initial : catalog_intact catalog_heap.
Proof. intros l s H. exact H. Qed.

Lemma fresh_not_catalog_ref h : catalog_intact h -> ~ catalog_ref (length h).
Proof.
  intros Hh [s Hs]. pose proof (lookup_lt_Some _ _ _ (Hh _ _ Hs)). lia.
Qed.

Lemma catalog_intact_alloc h xs : catalog_intact h -> catalog_intact (h ++ [xs]).
Proof. intros Hh l s Hs. apply lookup_app_l_Some. auto. Qed.

Lemma catalog_refs_valid (p name : string) (flows : dict loc) (l : loc) :
  dict_get VALID_FLOWS p = Some flows -> dict_get flows name = Some l ->
  exists s, catalog_heap !! l = Some s.
Proof.
  intros Hp Hn. apply dict_get_In in Hp. simpl in Hp.
  repeat (destruct Hp as [[= <- <-]|Hp]); try done;
    apply dict_get_In in Hn; simpl in Hn;
    repeat (destruct Hn as [[= <- <-]|Hn]); try done; eexists; reflexivity.
Qed.

Lemma keys_dict_get {V} (d : dict V) (k : string) :
  In k (keys d) -> exists v, dict_get d k = Some v.
Proof.
  induction d as [|[k' v'] d IH]; simpl; [done|].
  intros [->|Hin].
  - rewrite String.eqb_refl. eauto.
  - destruct (String.eqb k' k); eauto.
Qed.

(** [generate_normal_sequence] hands out a new list object that holds a
    catalog sequence of the returned process type, and writes nothing
    else. *)
Lemma generate_normal_sequence_spec (process_type : option string) h :
  catalog_intact h ->
  sat (generate_normal_sequence process_type) h
      (fun r h' =>
         catalog_intact h' /\
         forall l p, r = Ok (l, p) ->
           l = length h /\
           (forall p0, process_type = Some p0 -> p = p0) /\
           exists name s, catalog_variant p name s /\ h' = h ++ [s]).
Proof.
  intros Hh. unfold generate_normal_sequence.
  assert (Hrest : forall p,
    (forall p0, process_type = Some p0 -> p = p0) ->
    sat (flows ← dict_getitem VALID_FLOWS p;
         flow_name ← choice (keys flows);
         flow ← dict_getitem flows flow_name;
         sequence ← list_copy flow;
         mret (sequence, p)) h
        (fun r h' =>
         catalog_intact h' /\
         forall l p', r = Ok (l, p') ->
           l = length h /\
           (forall p0, process_type = Some p0 -> p' = p0) /\
           exists name s, catalog_variant p' name s /\ h' = h ++ [s])).
  { intros p Hp0. repeat sat_step; try done.
    split; [by apply catalog_intact_alloc|].
    intros l p' [= <- <-]. split; [done|]. split; [done|].
    match goal with
    | Hf : dict_get VALID_FLOWS p = Some ?flows,
      Hn : dict_get ?flows ?name = Some ?l0 |- _ =>
        destruct (catalog_refs_valid _ _ _ _ Hf Hn) as [s Hs];
        exists name, s; split; [by exists flows, l0|];
        unfold deref; by rewrite (Hh _ _ Hs)
    end. }
  apply sat_bind. destruct process_type as [p0|].
  - apply sat_ret. sat_step. apply Hrest. by intros ? [= <-].
  - apply sat_choice; [done|]. intros p _. sat_step. apply Hrest. done.
Qed.

Lemma only_writes_refl l h : only_writes l h h.
Proof. done. Qed.

Lemma only_writes_insert l h h' xs :
  only_writes l h h' -> only_writes l h (<[l := xs]> h').
Proof. intros H l' Hl'. rewrite list_lookup_insert_ne by done. auto. Qed.

#[local] Hint Resolve only_writes_refl only_writes_insert : core.

Lemma inject_wrong_event_frame (sequence : loc) (process_type : string) h :
  sat (inject_wrong_event sequence process_type) h
      (fun _ h' => only_writes sequence h h').
Proof. unfold inject_wrong_event. repeat sat_step; auto. Qed.

Lemma inject_skipped_step_frame (sequence : loc) (pos : Z) h :
  sat (inject_skipped_step sequence pos) h (fun _ h' => only_writes sequence h h').
Proof. unfold inject_skipped_step. repeat sat_step; auto. Qed.

Lemma inject_out_of_order_frame (sequence : loc) (pos : Z) h :
  sat (inject_out_of_order sequence pos) h (fun _ h' => only_writes sequence h h').
Proof. unfold inject_out_of_order. repeat sat_step; auto. Qed.

Lemma inject_anomaly_frame (sequence : loc) (process_type : string)
    (anomaly_type : AnomalyType) h :
  sat (inject_anomaly sequence process_type anomaly_type) h
      (fun r h' =>
         only_writes sequence h h' /\
         forall l p k i, r = Ok (l, p, k, i) -> l = sequence /\ p = process_type).
Proof.
  unfold inject_anomaly. do 3 sat_step. cbv zeta.
  set (k := if _ <? 3 then WRONG_EVENT else anomaly_type). clearbody k.
  sat_step.
  assert (Hk : forall (m : M Z),
             sat m h (fun _ h' => only_writes sequence h h') ->
             sat m h (after (fun anomaly_position : Z =>
                        mret (sequence, process_type, k, anomaly_position))
                      (fun r h' => only_writes sequence h h' /\
                         forall l p k i, r = Ok (l, p, k, i) ->
                                         l = sequence /\ p = process_type))).
  { intros m Hm. eapply sat_mono; [exact Hm|].
    intros [i|e] h' Hw; simpl; [|done].
    apply sat_ret. split; [done|]. by intros ? ? ? ? [= <- <- _ _]. }
  destruct k; apply Hk.
  - by apply sat_ret.
  - apply inject_wrong_event_frame.
  - apply inject_skipped_step_frame.
  - apply inject_out_of_order_frame.
  - by apply sat_ret.
Qed.

Lemma catalog_intact_only_writes l h h' :
  catalog_intact h -> ~ catalog_ref l -> only_writes l h h' -> catalog_intact h'.
Proof.
  intros Hh Hl Hw l' s Hs. rewrite Hw; [auto|].
  intros ->. apply Hl. by exists s.
Qed.

Lemma generate_anomalous_sequence_spec h :
  catalog_intact h ->
  sat generate_anomalous_sequence h
      (fun r h' =>
         catalog_intact h' /\
         forall l p k i, r = Ok (l, p, k, i) -> l = length h /\ ~ catalog_ref l).
Proof.
  intros Hh. unfold generate_anomalous_sequence.
  repeat sat_step; try (split; [done|done]).
  eapply sat_mono; [apply inject_anomaly_frame|].
  intros r h' [Hw Hr]. simpl in Hw.
  pose proof (fresh_not_catalog_ref h Hh) as Hfresh.
  split.
  - eapply catalog_intact_only_writes; [|exact Hfresh|exact Hw].
    by apply catalog_intact_alloc.
  - intros l p k i Heq. destruct (Hr _ _ _ _ Heq) as [-> _]. done.
Qed.

Section CallFacts.

Variable predict : list string -> string.



End CallFacts.




(** ** Outcome lists of the injection branches *)

Lemma scale_1 {A} (o : dist A) : scale 1 o = o.
Proof.
  unfold scale. induction o as [|[d x] o IH]; simpl; [done|]. by rewrite IH.
Qed.

(** A step with a single certain outcome. *)
Lemma bind_det {A B} (m : M A) (k : A -> M B) h a h1 :
  m h = [(1%positive, (Ok a, h1))] -> (m ≫= k) h = k a h1.
Proof.
  intros Hm. unfold mbind, M_bind. rewrite Hm. simpl.
  by rewrite scale_1, app_nil_r.
Qed.

Lemma bind_list_len {B} (l : loc) (k : Z -> M B) h :
  (list_len l ≫= k) h = k (Z.of_nat (length (deref h l))) h.
Proof. by apply bind_det. Qed.

Lemma flat_map_singleton_in {A B} (f : A -> list B) (g : A -> B) (l : list A) :
  (forall a, In a l -> f a = [g a]) -> flat_map f l = map g l.
Proof.
  induction l as [|a l IH]; intros Hf; simpl; [done|].
  rewrite Hf by (by left). simpl. f_equal. apply IH. intros; apply Hf; by right.
Qed.

Lemma bind_choice {A B} (l : list A) (k : A -> M B) h :
  l <> [] ->
  (choice l ≫= k) h = flat_map (fun a => scale (Pos.of_nat (length l)) (k a h)) l.
Proof.
  intros Hl. unfold mbind, M_bind, choice. destruct l as [|a0 l0]; [done|].
  set (n := Pos.of_nat _). generalize (a0 :: l0). intros l.
  induction l as [|a l IH]; simpl; [done|]. by rewrite IH.
Qed.

Lemma bind_randint {B} (a b : Z) (k : Z -> M B) h :
  a <= b ->
  (randint a b ≫= k) h
  = flat_map (fun i => scale (Z.to_pos (b - a + 1)) (k i h)) (seqZ a (b - a + 1)).
Proof.
  intros Hab. unfold randint. rewrite (proj2 (Z.ltb_ge b a)) by done.
  rewrite bind_choice.
  - rewrite length_seqZ. destruct (b - a + 1) as [|n|n] eqn:Hn; try lia.
    change (Z.to_nat (Z.pos n)) with (Pos.to_nat n).
    by rewrite Pos2Nat.id.
  - intros Hnil. apply (f_equal length) in Hnil. rewrite length_seqZ in Hnil.
    simpl in Hnil. lia.
Qed.

Lemma norm_index_in_range (len i : Z) :
  0 <= i < len -> norm_index len i = Some (Z.to_nat i).
Proof.
  intros Hi. unfold norm_index.
  by rewrite (proj2 (Z.leb_le 0 i)), (proj2 (Z.ltb_lt i len)) by lia.
Qed.

Lemma deref_lookup h (l : loc) s : h !! l = Some s -> deref h l = s.
Proof. intros H. unfold deref. by rewrite H. Qed.

Lemma deref_insert h (l : loc) s xs :
  h !! l = Some s -> deref (<[l := xs]> h) l = xs.
Proof.
  intros H. unfold deref. rewrite list_lookup_insert_eq; [done|].
  eapply lookup_lt_Some; eauto.
Qed.

Lemma list_pop_in_range (l : loc) (i : Z) h s :
  h !! l = Some s -> 0 <= i < Z.of_nat (length s) ->
  exists x, s !! Z.to_nat i = Some x /\
    list_pop l i h = [(1%positive, (Ok x, <[l := delete (Z.to_nat i) s]> h))].
Proof.
  intros Hl Hi. unfold list_pop. rewrite (deref_lookup _ _ _ Hl).
  rewrite norm_index_in_range by done.
  destruct (lookup_lt_is_Some_2 s (Z.to_nat i)) as [x Hx]; [lia|].
  exists x. by rewrite Hx.
Qed.

Lemma list_setitem_in_range (l : loc) (i : Z) (x : string) h s :
  h !! l = Some s -> 0 <= i < Z.of_nat (length s) ->
  list_setitem l i x h = [(1%positive, (Ok tt, <[l := <[Z.to_nat i := x]> s]> h))].
Proof.
  intros Hl Hi. unfold list_setitem. rewrite (deref_lookup _ _ _ Hl).
  by rewrite norm_index_in_range.
Qed.

Lemma list_getitem_in_range (l : loc) (i : Z) h s :
  h !! l = Some s -> 0 <= i < Z.of_nat (length s) ->
  exists x, s !! Z.to_nat i = Some x /\
    list_getitem l i h = [(1%positive, (Ok x, h))].
Proof.
  intros Hl Hi.
  destruct (lookup_lt_is_Some_2 s (Z.to_nat i)) as [x Hx]; [lia|].
  exists x. split; [done|].
  unfold list_getitem. rewrite (bind_det _ _ h (deref h l) h) by done.
  rewrite (deref_lookup _ _ _ Hl), norm_index_in_range by done.
  by rewrite Hx.
Qed.

(** The sequence with the element at position [i] removed is
    [delete i s]; this is what the [SKIPPED_STEP] branch leaves in the list
    it was handed, for each position of [1..N-2] once. *)
Lemma inject_skipped_step_long (l : loc) (pos : Z) h s :
  h !! l = Some s -> 3 < Z.of_nat (length s) ->
  inject_skipped_step l pos h
  = map (fun i => (Z.to_pos (Z.of_nat (length s) - 2),
                   (Ok i, <[l := delete (Z.to_nat i) s]> h)))
        (seqZ 1 (Z.of_nat (length s) - 2)).
Proof.
  intros Hl HN. unfold inject_skipped_step.
  rewrite bind_list_len, (deref_lookup _ _ _ Hl).
  rewrite (proj2 (Z.ltb_lt 3 _)) by done.
  rewrite bind_randint by lia.
  replace (Z.of_nat (length s) - 2 - 1 + 1) with (Z.of_nat (length s) - 2) by lia.
  apply flat_map_singleton_in. intros i Hi.
  apply list_elem_of_In, elem_of_seqZ in Hi.
  destruct (list_pop_in_range l i h s Hl) as (x & _ & Hpop); [lia|].
  rewrite (bind_det _ _ _ _ _ Hpop). simpl. by rewrite Pos.mul_1_r.
Qed.

Lemma inject_skipped_step_short (l : loc) (pos : Z) h s :
  h !! l = Some s -> Z.of_nat (length s) <= 3 ->
  inject_skipped_step l pos h = [(1%positive, (Ok pos, h))].
Proof.
  intros Hl HN. unfold inject_skipped_step.
  rewrite bind_list_len, (deref_lookup _ _ _ Hl).
  by rewrite (proj2 (Z.ltb_ge 3 _)) by done.
Qed.

(** The last step of [inject_anomaly]: the position is paired with the
    sequence, the process type and the kind. *)
Lemma bind_ret_map {A B} (m : M A) (f : A -> B) h :
  (forall d r h', In (d, (r, h')) (m h) -> exists a, r = Ok a) ->
  (m ≫= fun a => mret (f a)) h
  = map (fun '(d, (r, h')) =>
           (d, (match r with Ok a => Ok (f a) | Raise e => Raise e end, h'))) (m h).
Proof.
  unfold mbind, M_bind. induction (m h) as [|[d [r h']] o IH]; intros Hok; [done|].
  simpl. destruct (Hok d r h') as [a ->]; [by left|].
  simpl. rewrite Pos.mul_1_r. f_equal. apply IH. intros; eapply Hok; by right.
Qed.

Lemma inject_anomaly_unfold (l : loc) (p : string) (k : AnomalyType) h s :
  h !! l = Some s ->
  inject_anomaly l p k h
  = (inject_branch l p (effective_kind s k)
       ≫= fun pos => mret (l, p, effective_kind s k, pos)) h.
Proof.
  intros Hl. unfold inject_anomaly.
  rewrite bind_list_len, (deref_lookup _ _ _ Hl). reflexivity.
Qed.

Lemma generate_anomalous_sequence_injects h :
  catalog_intact h ->
  sat generate_anomalous_sequence h
      (fun r h' =>
         exists p name s k d,
           catalog_variant p name s /\
           In k [WRONG_EVENT; SKIPPED_STEP; OUT_OF_ORDER] /\
           In (d, (r, h')) (inject_anomaly (length h) p k (h ++ [s]))).
Proof.
  intros Hh. unfold generate_anomalous_sequence.
  repeat sat_step; try done;
    try (exfalso;
         match goal with
         | Hin : In ?a (keys ?d), Hnone : dict_get ?d ?a = None |- _ =>
             destruct (keys_dict_get _ _ Hin); congruence
         | Hf : dict_get VALID_FLOWS _ = Some ?flows, He : keys ?flows = [] |- _ =>
             apply dict_get_In in Hf; simpl in Hf;
             repeat (destruct Hf as [[= <- <-]|Hf]); done
         end).
  intros d r h' Hin.
  match goal with
  | Hf : dict_get VALID_FLOWS ?p = Some ?flows,
    Hn : dict_get ?flows ?name = Some ?l0,
    Hk : In ?k [_; _; _] |- _ =>
      destruct (catalog_refs_valid _ _ _ _ Hf Hn) as [s Hs];
      exists p, name, s, k, d; split; [by exists flows, l0|]; split; [exact Hk|];
      unfold deref in Hin; by rewrite (Hh _ _ Hs) in Hin
  end.
Qed.

Lemma in_bind_ret {A B} (m : M A) (f : A -> B) h d y h' :
  In (d, (Ok y, h')) ((m ≫= fun a => mret (f a)) h) ->
  exists d' a, y = f a /\ In (d', (Ok a, h')) (m h).
Proof.
  unfold mbind, M_bind. intros Hin.
  apply in_flat_map in Hin as ([d0 [[a|e] h0]] & Hin0 & Hin1); simpl in Hin1.
  - destruct Hin1 as [[= <- <- <-]|[]]. eauto.
  - destruct Hin1 as [[=]|[]].
Qed.

Lemma effective_kind_inv (s : list string) (k k' : AnomalyType) :
  effective_kind s k = k' -> k' <> WRONG_EVENT ->
  3 <= Z.of_nat (length s) /\ k = k'.
Proof.
  unfold effective_kind. destruct (Z.ltb_spec (Z.of_nat (length s)) 3); [congruence|].
  intros -> _. done.
Qed.

Lemma fresh_lookup (h : list (list string)) (s : list string) :
  (h ++ [s]) !! length h = Some s.
Proof. by rewrite lookup_app_r, Nat.sub_diag. Qed.

(** C2: on a list of more than three events the [SKIPPED_STEP] injection
    has one outcome for each position [i] of [1..N-2], each with
    probability [1/(N-2)]: the list with the element at [i] removed, and
    [i] as the anomaly position; on a list of exactly three events the
    list is left as it is and the kind is still [SKIPPED_STEP]; a shorter
    list is treated as [WRONG_EVENT].  Every [SKIPPED_STEP] result of
    [generate_anomalous_sequence] is such an outcome on a copy of a
    catalog sequence. *)
Theorem skipped_step_injection :
  (forall (l : loc) (p : string) h s,
      h !! l = Some s ->
      let N := Z.of_nat (length s) in
      (3 < N ->
         inject_anomaly l p SKIPPED_STEP h
         = map (fun i => (Z.to_pos (N - 2),
                          (Ok (l, p, SKIPPED_STEP, i), <[l := delete (Z.to_nat i) s]> h)))
               (seqZ 1 (N - 2))) /\
      (N = 3 ->
         inject_anomaly l p SKIPPED_STEP h
         = [(1%positive, (Ok (l, p, SKIPPED_STEP, -1), h))]) /\
      (N < 3 ->
         inject_anomaly l p SKIPPED_STEP h = inject_anomaly l p WRONG_EVENT h)) /\
  (forall h, catalog_intact h ->
     sat generate_anomalous_sequence h
         (fun r h' =>
            forall l p i, r = Ok (l, p, SKIPPED_STEP, i) ->
              exists name s,
                catalog_variant p name s /\
                let N := Z.of_nat (length s) in
                (3 < N /\ 1 <= i <= N - 2 /\
                 h' !! l = Some (delete (Z.to_nat i) s) /\
                 Z.of_nat (length (delete (Z.to_nat i) s)) = N - 1)
                \/ (N = 3 /\ h' !! l = Some s))).
Proof.
  split.
  - intros l p h s Hl N. repeat split.
    + intros HN. rewrite (inject_anomaly_unfold _ _ _ _ _ Hl).
      unfold effective_kind. fold N. rewrite (proj2 (Z.ltb_ge N 3)) by lia.
      simpl inject_branch. rewrite bind_ret_map.
      * rewrite (inject_skipped_step_long _ _ _ _ Hl HN), map_map. done.
      * intros d r h'. rewrite (inject_skipped_step_long _ _ _ _ Hl HN).
        intros Hin. apply in_map_iff in Hin as (i & [= <- <- <-] & _). eauto.
    + intros HN. rewrite (inject_anomaly_unfold _ _ _ _ _ Hl).
      unfold effective_kind. fold N. rewrite (proj2 (Z.ltb_ge N 3)) by lia.
      simpl inject_branch.
      rewrite (bind_det _ _ _ _ _ (inject_skipped_step_short _ (-1) _ _ Hl ltac:(lia))).
      reflexivity.
    + intros HN. rewrite !(inject_anomaly_unfold _ _ _ _ _ Hl).
      unfold effective_kind. fold N. by rewrite (proj2 (Z.ltb_lt N 3)) by lia.
  - intros h Hh. eapply sat_mono; [by apply generate_anomalous_sequence_injects|].
    intros r h' (p & name & s & k & d & Hv & _ & Hin) l p' i ->.
    pose proof (fresh_lookup h s) as Hl.
    rewrite (inject_anomaly_unfold _ _ _ _ _ Hl) in Hin.
    apply in_bind_ret in Hin as (d' & pos & Heq & Hin).
    injection Heq as -> -> Hk ->. rewrite <- Hk in Hin. simpl in Hin.
    symmetry in Hk. apply effective_kind_inv in Hk as [HN ->]; [|done].
    exists name, s. split; [done|].
    destruct (Z.ltb_spec 3 (Z.of_nat (length s))) as [Hlong|Hshort].
    + left. rewrite (inject_skipped_step_long _ _ _ _ Hl Hlong) in Hin.
      apply in_map_iff in Hin as (i & [= _ -> <-] & Hi).
      apply list_elem_of_In, elem_of_seqZ in Hi.
      split; [done|]. split; [lia|]. split.
      * apply list_lookup_insert_eq. rewrite length_app. simpl. lia.
      * rewrite length_delete; [lia|]. apply lookup_lt_is_Some_2. lia.
    + right. rewrite (inject_skipped_step_short _ _ _ _ Hl Hshort) in Hin.
      destruct Hin as [[= _ _ <-]|[]]. split; [lia|done].
Qed.

Lemma swap_adjacent_spec (q : nat) (s : list string) :
  (S q < length s)%nat ->
  length (swap_adjacent q s) = length s /\
  swap_adjacent q s !! q = s !! S q /\
  swap_adjacent q s !! S q = s !! q /\
  forall j, j <> q -> j <> S q -> swap_adjacent q s !! j = s !! j.
Proof.
  intros Hq. unfold swap_adjacent.
  destruct (lookup_lt_is_Some_2 s q) as [b Hb]; [lia|].
  destruct (lookup_lt_is_Some_2 s (S q)) as [a Ha]; [lia|].
  rewrite Hb, Ha. repeat split.
  - by rewrite !length_insert.
  - rewrite list_lookup_insert_ne by lia. apply list_lookup_insert_eq. lia.
  - apply list_lookup_insert_eq. rewrite length_insert. lia.
  - intros j Hj1 Hj2. by rewrite !list_lookup_insert_ne by lia.
Qed.

Lemma inject_out_of_order_long (l : loc) (pos : Z) h s :
  h !! l = Some s -> 2 < Z.of_nat (length s) ->
  inject_out_of_order l pos h
  = map (fun q => (Z.to_pos (Z.of_nat (length s) - 2),
                   (Ok (q + 1), <[l := swap_adjacent (Z.to_nat q) s]> h)))
        (seqZ 1 (Z.of_nat (length s) - 2)).
Proof.
  intros Hl HN. unfold inject_out_of_order.
  rewrite bind_list_len, (deref_lookup _ _ _ Hl).
  rewrite (proj2 (Z.ltb_lt 2 _)) by done.
  rewrite bind_randint by lia.
  replace (Z.of_nat (length s) - 2 - 1 + 1) with (Z.of_nat (length s) - 2) by lia.
  apply flat_map_singleton_in. intros q Hq.
  apply list_elem_of_In, elem_of_seqZ in Hq.
  destruct (list_getitem_in_range l (q + 1) h s Hl) as (a & Ha & Hget1); [lia|].
  destruct (list_getitem_in_range l q h s Hl) as (b & Hb & Hget2); [lia|].
  rewrite (bind_det _ _ _ _ _ Hget1), (bind_det _ _ _ _ _ Hget2).
  rewrite (bind_det _ _ _ _ _ (list_setitem_in_range l q a h s Hl ltac:(lia))).
  assert (Hl2 : <[l := <[Z.to_nat q := a]> s]> h !! l = Some (<[Z.to_nat q := a]> s)).
  { apply list_lookup_insert_eq. eapply lookup_lt_Some; eauto. }
  rewrite (bind_det _ _ _ _ _
             (list_setitem_in_range l (q + 1) b _ _ Hl2
                ltac:(rewrite length_insert; lia))).
  rewrite list_insert_insert_eq.
  replace (Z.to_nat (q + 1)) with (S (Z.to_nat q)) in * by lia.
  unfold swap_adjacent. rewrite Hb, Ha. simpl. by rewrite Pos.mul_1_r.
Qed.

(** C7: on a list of more than two events the [OUT_OF_ORDER] injection has
    one outcome for each position [q] of [1..N-2], each with probability
    [1/(N-2)]: the list of the same length with the elements at [q] and
    [q+1] exchanged and every other element in place, and [q+1] as the
    anomaly position.  Every [OUT_OF_ORDER] result of
    [generate_anomalous_sequence] is such an outcome on a copy of a catalog
    sequence. *)
Theorem out_of_order_injection :
  (forall (l : loc) (p : string) h s,
      h !! l = Some s ->
      let N := Z.of_nat (length s) in
      2 < N ->
      inject_anomaly l p OUT_OF_ORDER h
      = map (fun q => (Z.to_pos (N - 2),
                       (Ok (l, p, OUT_OF_ORDER, q + 1),
                        <[l := swap_adjacent (Z.to_nat q) s]> h)))
            (seqZ 1 (N - 2)) /\
      forall q, 1 <= q <= N - 2 ->
        let s' := swap_adjacent (Z.to_nat q) s in
        length s' = length s /\
        s' !! Z.to_nat q = s !! Z.to_nat (q + 1) /\
        s' !! Z.to_nat (q + 1) = s !! Z.to_nat q /\
        forall j, j <> Z.to_nat q -> j <> Z.to_nat (q + 1) -> s' !! j = s !! j) /\
  (forall h, catalog_intact h ->
     sat generate_anomalous_sequence h
         (fun r h' =>
            forall l p i, r = Ok (l, p, OUT_OF_ORDER, i) ->
              exists name s q,
                catalog_variant p name s /\
                2 < Z.of_nat (length s) /\
                1 <= q <= Z.of_nat (length s) - 2 /\ i = q + 1 /\
                h' !! l = Some (swap_adjacent (Z.to_nat q) s))).
Proof.
  split.
  - intros l p h s Hl N HN. split.
    + rewrite (inject_anomaly_unfold _ _ _ _ _ Hl).
      unfold effective_kind. fold N. rewrite (proj2 (Z.ltb_ge N 3)) by lia.
      simpl inject_branch. rewrite bind_ret_map.
      * rewrite (inject_out_of_order_long _ _ _ _ Hl HN), map_map. done.
      * intros d r h'. rewrite (inject_out_of_order_long _ _ _ _ Hl HN).
        intros Hin. apply in_map_iff in Hin as (i & [= <- <- <-] & _). eauto.
    + intros q Hq. cbv zeta.
      replace (Z.to_nat (q + 1)) with (S (Z.to_nat q)) by lia.
      apply swap_adjacent_spec. lia.
  - intros h Hh. eapply sat_mono; [by apply generate_anomalous_sequence_injects|].
    intros r h' (p & name & s & k & d & Hv & _ & Hin) l p' i ->.
    pose proof (fresh_lookup h s) as Hl.
    rewrite (inject_anomaly_unfold _ _ _ _ _ Hl) in Hin.
    apply in_bind_ret in Hin as (d' & pos & Heq & Hin).
    injection Heq as -> -> Hk ->. rewrite <- Hk in Hin. simpl in Hin.
    symmetry in Hk. apply effective_kind_inv in Hk as [HN ->]; [|done].
    rewrite (inject_out_of_order_long _ _ _ _ Hl ltac:(lia)) in Hin.
    apply in_map_iff in Hin as (q & Heq & Hq).
    injection Heq as _ <- <-.
    apply list_elem_of_In, elem_of_seqZ in Hq.
    exists name, s, q. split; [done|]. split; [lia|]. split; [lia|]. split; [done|].
    apply list_lookup_insert_eq. rewrite length_app. simpl. lia.
Qed.

(** ** Probabilities *)

Lemma Pr_app {A} (o1 o2 : dist A) E : (Pr (o1 ++ o2) E == Pr o1 E + Pr o2 E)%Q.
Proof.
  unfold Pr. induction o1 as [|[d x] o1 IH]; simpl.
  - by rewrite Qplus_0_l.
  - rewrite IH. ring.
Qed.

Lemma Pr_scale {A} (d : positive) (o : dist A) E :
  (Pr (scale d o) E == (1 # d) * Pr o E)%Q.
Proof.
  unfold Pr, scale. induction o as [|[d' x] o IH]; simpl.
  - ring.
  - rewrite IH. destruct (E x); [|ring].
    change (1 # (d * d')%positive)%Q with ((1 # d) * (1 # d'))%Q. ring.
Qed.

Lemma Pr_flat_map {A B} (f : A -> dist B) (l : list A) E :
  (Pr (flat_map f l) E == Qsum (fun a => Pr (f a) E) l)%Q.
Proof.
  induction l as [|a l IH]; simpl; [reflexivity|]. by rewrite Pr_app, IH.
Qed.

Lemma Qsum_ext_in {A} (f g : A -> Q) (l : list A) :
  (forall a, In a l -> (f a == g a)%Q) -> (Qsum f l == Qsum g l)%Q.
Proof.
  induction l as [|a l IH]; intros H; simpl; [reflexivity|].
  rewrite (H a) by (by left). rewrite IH; [reflexivity|]. intros; apply H; by right.
Qed.

Lemma Qsum_scale {A} (c : Q) (f : A -> Q) (l : list A) :
  (Qsum (fun a => c * f a) l == c * Qsum f l)%Q.
Proof. induction l as [|a l IH]; simpl; [ring|]. rewrite IH. ring. Qed.

Lemma Qsum_const {A} (c : Q) (l : list A) :
  (Qsum (fun _ => c) l == inject_Z (Z.of_nat (length l)) * c)%Q.
Proof.
  induction l as [|a l IH]; [simpl; ring|].
  cbn [Qsum length]. rewrite IH.
  rewrite Nat2Z.inj_succ. unfold Z.succ. rewrite inject_Z_plus. ring.
Qed.

Lemma Qsum_zero {A} (f : A -> Q) (l : list A) :
  (forall a, In a l -> (f a == 0)%Q) -> (Qsum f l == 0)%Q.
Proof.
  intros H. rewrite (Qsum_ext_in f (fun _ => 0%Q)) by done.
  rewrite Qsum_const. ring.
Qed.

(** Only one element of a duplicate-free list contributes. *)
Lemma Qsum_one {A} (f : A -> Q) (l : list A) (a0 : A) :
  List.NoDup l -> In a0 l ->
  (forall a, In a l -> a <> a0 -> (f a == 0)%Q) ->
  (Qsum f l == f a0)%Q.
Proof.
  induction 1 as [|a l Hnotin Hnd IH]; intros Hin Hz; [done|].
  simpl. destruct Hin as [->|Hin].
  - assert (H1 : (Qsum f l == 0)%Q).
    { apply Qsum_zero. intros a Ha. apply Hz; [by right|]. intros ->. done. }
    rewrite H1. ring.
  - assert (H1 : (Qsum f l == f a0)%Q).
    { apply IH; [done|]. intros; apply Hz; [by right|done]. }
    assert (H2 : (f a == 0)%Q).
    { apply Hz; [by left|]. intros ->. done. }
    rewrite H1, H2. ring.
Qed.

Lemma Pr_bind_choice {A B} (l : list A) (k : A -> M B) h E :
  l <> [] ->
  (Pr ((choice l ≫= k) h) E
   == (1 # Pos.of_nat (length l)) * Qsum (fun a => Pr (k a h) E) l)%Q.
Proof.
  intros Hl. rewrite bind_choice by done. rewrite Pr_flat_map.
  rewrite <- Qsum_scale. apply Qsum_ext_in. intros a _. apply Pr_scale.
Qed.

Lemma inv_length_cancel {A} (l : list A) :
  l <> [] -> ((1 # Pos.of_nat (length l)) * inject_Z (Z.of_nat (length l)) == 1)%Q.
Proof.
  intros Hl. assert (Hn : length l <> 0%nat) by (by destruct l).
  revert Hn. generalize (length l). intros n Hn.
  unfold Qeq, inject_Z, Qmult. cbn [Qnum Qden].
  rewrite Z.mul_1_l, Z.mul_1_r, Pos.mul_1_r.
  rewrite Z.mul_1_l, <- positive_nat_Z. by rewrite Nat2Pos.id.
Qed.

(** A property whose probability does not depend on the value drawn. *)
Lemma Pr_bind_choice_const {A B} (l : list A) (k : A -> M B) h E (c : Q) :
  l <> [] ->
  (forall a, In a l -> (Pr (k a h) E == c)%Q) ->
  (Pr ((choice l ≫= k) h) E == c)%Q.
Proof.
  intros Hl Hc. rewrite Pr_bind_choice by done.
  rewrite (Qsum_ext_in _ (fun _ => c)) by done.
  rewrite Qsum_const, Qmult_assoc, inv_length_cancel by done. ring.
Qed.

Lemma Pr_cons {A} (d : positive) (x : A) (o : dist A) E :
  Pr ((d, x) :: o) E = ((if E x then 1 # d else 0) + Pr o E)%Q.
Proof. reflexivity. Qed.

Lemma Pr_bind_ret {A B} (m : M A) (f : A -> B) h E :
  (Pr ((m ≫= fun a => mret (f a)) h) E
   == Pr (m h) (fun '(r, h') =>
                  E (match r with Ok a => Ok (f a) | Raise e => Raise e end, h')))%Q.
Proof.
  unfold mbind, M_bind. induction (m h) as [|[d [[a|e] h']] o IH].
  - reflexivity.
  - cbn [flat_map]. rewrite Pr_app, IH, (Pr_cons d (Ok a, h')).
    unfold mret, M_ret, scale. cbn [map]. rewrite Pr_cons, Pos.mul_1_r.
    unfold Pr at 1. simpl. ring.
  - cbn [flat_map]. rewrite Pr_app, IH, (Pr_cons d (Raise e, h')).
    rewrite Pr_cons. unfold Pr at 1. simpl. ring.
Qed.

Lemma Pr_map_uniform {A B} (D : positive) (g : A -> B) (l : list A) E :
  (Pr (map (fun a => (D, g a)) l) E
   == (1 # D) * Qsum (fun a => if E (g a) then 1 else 0) l)%Q.
Proof.
  induction l as [|a l IH]; [by cbn; ring|].
  cbn [map Qsum]. rewrite Pr_cons, IH. destruct (E (g a)); ring.
Qed.

(** ** The [WRONG_EVENT] branch *)

Lemma others_spec (p q : string) :
  In q (others p) <-> In q (keys VALID_FLOWS) /\ q <> p.
Proof.
  unfold others. rewrite filter_In, negb_true_iff, str_eqb_neq. tauto.
Qed.

Lemma others_nonempty (p : string) : others p <> [].
Proof.
  intros Hnil.
  assert (Hin : In "trade" (others p) \/ In "payment" (others p)).
  { destruct (String.eqb_spec "trade" p) as [<-|Hne].
    - right. apply others_spec. split; [simpl; tauto | discriminate].
    - left. apply others_spec. split; [simpl; tauto | done]. }
  rewrite Hnil in Hin. destruct Hin as [[]|[]].
Qed.

Lemma others_NoDup (p : string) : List.NoDup (others p).
Proof.
  unfold others. apply List.NoDup_filter.
  simpl. repeat constructor; simpl; intuition discriminate.
Qed.

Lemma others_length (p : string) :
  In p (keys VALID_FLOWS) -> length (others p) = 4%nat.
Proof.
  simpl. intros H. repeat (destruct H as [<-|H]; [reflexivity|]). done.
Qed.

Lemma dict_get_of_In {V} (d : dict V) (k : string) (v : V) :
  List.NoDup (keys d) -> In (k, v) d -> dict_get d k = Some v.
Proof.
  induction d as [|[k' v'] d IH]; simpl; [done|].
  intros Hnd [[= -> ->]|Hin].
  - by rewrite String.eqb_refl.
  - apply List.NoDup_cons_iff in Hnd as [Hnotin Hnd].
    destruct (String.eqb_spec k' k) as [->|_]; [|auto].
    destruct Hnotin. apply in_map_iff. by exists (k, v).
Qed.

(** The flows of a process type are not empty, and each of them refers to
    a non-empty catalog list. *)
Lemma valid_flows_values (q : string) (flows : dict loc) :
  dict_get VALID_FLOWS q = Some flows ->
  values flows <> [] /\
  forall v, In v (values flows) ->
    exists name s, catalog_variant q name s /\ catalog_heap !! v = Some s /\ s <> [].
Proof.
  intros Hq.
  assert (Hflows : values flows <> [] /\ List.NoDup (keys flows) /\
                   forall v, In v (values flows) ->
                     exists s, catalog_heap !! v = Some s /\ s <> []).
  { pose proof Hq as Hq'. apply dict_get_In in Hq'. simpl in Hq'.
    repeat (destruct Hq' as [[= <- <-]|Hq']); try done;
      (split; [done|]);
      (split; [simpl; repeat constructor; simpl; intuition discriminate|]);
      intros v Hv; simpl in Hv;
      repeat (destruct Hv as [<-|Hv]); try done;
      (eexists; split; [reflexivity|done]). }
  destruct Hflows as (Hne & Hnd & Hvals). split; [done|].
  intros v Hv. destruct (Hvals v Hv) as (s & Hs & Hsne).
  apply in_map_iff in Hv as ([name v'] & Heq & Hin). simpl in Heq. subst v'.
  exists name, s. split; [|done].
  exists flows, v. split; [done|]. split; [|done]. by apply dict_get_of_In.
Qed.

Lemma bind_list_choice {B} (v : loc) (k : string -> M B) h :
  (list_choice v ≫= k) h = (choice (deref h v) ≫= k) h.
Proof.
  unfold list_choice, mbind, M_bind, list_read. simpl.
  by rewrite scale_1, app_nil_r.
Qed.

Lemma inject_wrong_event_unfold (l : loc) (p : string) :
  inject_wrong_event l p
  = (other_process ← choice (others p);
     other_flows ← dict_getitem VALID_FLOWS other_process;
     other_sequence ← choice (values other_flows);
     wrong_event ← list_choice other_sequence;
     overwrite l wrong_event).
Proof. reflexivity. Qed.

Lemma overwrite_run (l : loc) (e : string) h s :
  h !! l = Some s -> 2 <= Z.of_nat (length s) ->
  overwrite l e h
  = map (fun i => (Z.to_pos (Z.of_nat (length s) - 1),
                   (Ok i, <[l := <[Z.to_nat i := e]> s]> h)))
        (seqZ 1 (Z.of_nat (length s) - 1)).
Proof.
  intros Hl HN. unfold overwrite.
  rewrite bind_list_len, (deref_lookup _ _ _ Hl).
  rewrite bind_randint by lia.
  replace (Z.of_nat (length s) - 1 - 1 + 1) with (Z.of_nat (length s) - 1) by lia.
  apply flat_map_singleton_in. intros i Hi.
  apply list_elem_of_In, elem_of_seqZ in Hi.
  rewrite (bind_det _ _ _ _ _ (list_setitem_in_range l i e h s Hl ltac:(lia))).
  simpl. by rewrite Pos.mul_1_r.
Qed.

Section WrongEvent.

Variables (l : loc) (p : string) (h : list (list string)) (s : list string).
Hypothesis Hintact : catalog_intact h.
Hypothesis Hl : h !! l = Some s.
Hypothesis HN : 2 <= Z.of_nat (length s).

(** Every outcome overwrites one position of [1..N-1] with an event of a
    catalog sequence of another process type. *)
Lemma inject_wrong_event_outcomes :
  sat (inject_wrong_event l p) h
      (fun r h' =>
         exists i e q name s',
           r = Ok i /\ 1 <= i <= Z.of_nat (length s) - 1 /\
           In q (others p) /\ catalog_variant q name s' /\ In e s' /\
           h' = <[l := <[Z.to_nat i := e]> s]> h).
Proof.
  rewrite inject_wrong_event_unfold.
  apply sat_bind, sat_choice; [by intros ?%others_nonempty|].
  intros q Hq. sat_step. pose proof Hq as Hq'. apply others_spec in Hq' as [Hkey _].
  destruct (keys_dict_get _ _ Hkey) as [flows Hflows].
  apply sat_bind. unfold dict_getitem. rewrite Hflows. apply sat_ret. sat_step.
  destruct (valid_flows_values _ _ Hflows) as [Hne Hvals].
  apply sat_bind, sat_choice; [done|]. intros v Hv. sat_step.
  destruct (Hvals v Hv) as (name & s' & Hvar & Hs' & Hs'ne).
  intros d r h'. rewrite bind_list_choice, (deref_lookup _ _ _ (Hintact _ _ Hs')).
  revert d r h'. fold (sat (choice s' ≫= overwrite l) h).
  apply sat_bind, sat_choice; [done|]. intros e He. sat_step.
  intros d r h'. rewrite (overwrite_run _ _ _ _ Hl HN).
  intros Hin. apply in_map_iff in Hin as (i & [= <- <- <-] & Hi).
  apply list_elem_of_In, elem_of_seqZ in Hi.
  exists i, e, q, name, s'. repeat split; try done; lia.
Qed.

(** The probability of a property of the result and final store, when for
    each other process type [q] it has probability [c q] once an event of
    [q] is drawn. *)
Lemma Pr_inject_wrong_event (E : result Z * list (list string) -> bool)
    (c : string -> Q) :
  (forall q name s' e,
      In q (others p) -> catalog_variant q name s' -> In e s' ->
      (Pr (overwrite l e h) E == c q)%Q) ->
  (Pr (inject_wrong_event l p h) E
   == (1 # Pos.of_nat (length (others p))) * Qsum c (others p))%Q.
Proof.
  intros Hc. rewrite inject_wrong_event_unfold.
  rewrite Pr_bind_choice by apply others_nonempty.
  apply Qmult_comp; [reflexivity|]. apply Qsum_ext_in. intros q Hq.
  pose proof Hq as Hq'. apply others_spec in Hq' as [Hkey _].
  destruct (keys_dict_get _ _ Hkey) as [flows Hflows].
  rewrite (bind_det _ _ h flows h) by (unfold dict_getitem; by rewrite Hflows).
  destruct (valid_flows_values _ _ Hflows) as [Hne Hvals].
  apply Pr_bind_choice_const; [done|]. intros v Hv.
  destruct (Hvals v Hv) as (name & s' & Hvar & Hs' & Hs'ne).
  rewrite bind_list_choice, (deref_lookup _ _ _ (Hintact _ _ Hs')).
  apply Pr_bind_choice_const; [done|]. intros e He. eauto.
Qed.

End WrongEvent.

Lemma seqZ_length_cancel (n : Z) :
  0 < n -> ((1 # Z.to_pos n) * inject_Z (Z.of_nat (length (seqZ 1 n))) == 1)%Q.
Proof.
  intros Hn. rewrite length_seqZ, Z2Nat.id by lia.
  unfold Qeq, Qmult, inject_Z. cbn [Qnum Qden].
  rewrite Pos.mul_1_r, Z2Pos.id by done. lia.
Qed.

Lemma Pr_overwrite_position (l : loc) (p : string) (e : string) h s (i0 : Z) :
  h !! l = Some s -> 2 <= Z.of_nat (length s) ->
  1 <= i0 <= Z.of_nat (length s) - 1 ->
  (Pr (overwrite l e h)
      (fun '(r, h') =>
         position_is i0 (match r with
                         | Ok i => Ok (l, p, WRONG_EVENT, i)
                         | Raise x => Raise x
                         end, h'))
   == 1 # Z.to_pos (Z.of_nat (length s) - 1))%Q.
Proof.
  intros Hl HN Hi0. rewrite (overwrite_run _ _ _ _ Hl HN), Pr_map_uniform.
  rewrite (Qsum_one _ _ i0).
  - simpl. rewrite Z.eqb_refl. ring.
  - apply NoDup_ListNoDup, NoDup_seqZ.
  - apply list_elem_of_In, elem_of_seqZ. lia.
  - intros i _ Hne. simpl. by rewrite (proj2 (Z.eqb_neq i i0)).
Qed.

Lemma Pr_overwrite_family (l : loc) (p : string) (e : string) h s (q0 : string) :
  h !! l = Some s -> 2 <= Z.of_nat (length s) ->
  (Pr (overwrite l e h)
      (fun '(r, h') =>
         written_family_is q0 (match r with
                               | Ok i => Ok (l, p, WRONG_EVENT, i)
                               | Raise x => Raise x
                               end, h'))
   == if option_string_eqb (_detect_process_type e) (Some q0) then 1 else 0)%Q.
Proof.
  intros Hl HN. rewrite (overwrite_run _ _ _ _ Hl HN), Pr_map_uniform.
  set (c := (if option_string_eqb _ _ then 1 else 0)%Q).
  rewrite (Qsum_ext_in _ (fun _ => c)).
  - rewrite Qsum_const, Qmult_assoc, seqZ_length_cancel by lia. ring.
  - intros i Hi. apply list_elem_of_In, elem_of_seqZ in Hi.
    simpl. rewrite (deref_insert _ _ _ _ Hl).
    rewrite list_lookup_insert_eq by lia. reflexivity.
Qed.

Lemma catalog_variant_length (p name : string) (s : list string) :
  catalog_variant p name s -> 2 <= Z.of_nat (length s).
Proof.
  intros (flows & l & Hp & Hn & Hs).
  apply dict_get_In in Hp. simpl in Hp.
  repeat (destruct Hp as [[= <- <-]|Hp]); try done;
    apply dict_get_In in Hn; simpl in Hn;
    repeat (destruct Hn as [[= <- <-]|Hn]); try done;
    injection Hs as <-; simpl; lia.
Qed.

Lemma catalog_variant_key (p name : string) (s : list string) :
  catalog_variant p name s -> In p (keys VALID_FLOWS).
Proof.
  intros (flows & l & Hp & _). apply dict_get_In in Hp.
  apply in_map_iff. by exists (p, flows).
Qed.

(** Overwriting a catalog sequence of [p] with an event of another process
    type changes the position written and no other. *)
Lemma foreign_event_differs (p name q name' : string) (s s' : list string)
    (e : string) (i : nat) :
  catalog_variant p name s -> catalog_variant q name' s' -> q <> p ->
  In e s' -> (i < length s)%nat ->
  forall j, <[i := e]> s !! j <> s !! j <-> j = i.
Proof.
  intros Hs Hs' Hqp He Hi j. split.
  - intros Hne. destruct (decide (j = i)) as [->|Hji]; [done|].
    destruct Hne. by apply list_lookup_insert_ne.
  - intros ->. rewrite list_lookup_insert_eq by done.
    destruct (lookup_lt_is_Some_2 s i Hi) as [x Hx]. rewrite Hx. intros [= ->].
    apply list_elem_of_lookup_2, list_elem_of_In in Hx.
    pose proof (detect_catalog_event _ _ _ _ Hs Hx) as H1.
    pose proof (detect_catalog_event _ _ _ _ Hs' He) as H2.
    congruence.
Qed.

(** C6: a [WRONG_EVENT] injection on a catalog sequence [s] of process type
    [p] writes an event of a catalog sequence of another process type at
    one position of [1..N-1] and reports that position; the list keeps its
    length and differs from [s] at that position only.  Each position has
    probability [1/(N-1)], and each of the four other process types is the
    origin of the written event with probability [1/4].  Every
    [WRONG_EVENT] result of [generate_anomalous_sequence] is such an
    outcome on a copy of a catalog sequence. *)
Theorem wrong_event_injection :
  (forall (l : loc) (p name : string) h s,
      catalog_intact h -> catalog_variant p name s -> h !! l = Some s ->
      let N := Z.of_nat (length s) in
      sat (inject_anomaly l p WRONG_EVENT) h
          (fun r h' =>
             exists i e q name' s',
               r = Ok (l, p, WRONG_EVENT, i) /\ 1 <= i <= N - 1 /\
               q <> p /\ catalog_variant q name' s' /\ In e s' /\
               h' !! l = Some (<[Z.to_nat i := e]> s) /\
               length (<[Z.to_nat i := e]> s) = length s /\
               forall j, <[Z.to_nat i := e]> s !! j <> s !! j <-> j = Z.to_nat i) /\
      (forall i0, 1 <= i0 <= N - 1 ->
         (Pr (inject_anomaly l p WRONG_EVENT h) (position_is i0)
          == 1 # Z.to_pos (N - 1))%Q) /\
      (forall q0, In q0 (keys VALID_FLOWS) -> q0 <> p ->
         (Pr (inject_anomaly l p WRONG_EVENT h) (written_family_is q0) == 1 # 4)%Q)) /\
  (forall h, catalog_intact h ->
     sat generate_anomalous_sequence h
         (fun r h' =>
            forall l p i, r = Ok (l, p, WRONG_EVENT, i) ->
              exists name s e q name' s',
                catalog_variant p name s /\
                1 <= i <= Z.of_nat (length s) - 1 /\
                q <> p /\ catalog_variant q name' s' /\ In e s' /\
                h' !! l = Some (<[Z.to_nat i := e]> s))).
Proof.
  split.
  - intros l p name h s Hh Hvar Hl N.
    pose proof (catalog_variant_length _ _ _ Hvar) as HN.
    assert (Hunfold : inject_anomaly l p WRONG_EVENT h
                      = (inject_wrong_event l p
                           ≫= fun pos => mret (l, p, WRONG_EVENT, pos)) h).
    { rewrite (inject_anomaly_unfold _ _ _ _ _ Hl). unfold effective_kind.
      by destruct (_ <? 3). }
    split; [|split].
    + intros d r h'. rewrite Hunfold. revert d r h'.
      fold (sat (inject_wrong_event l p ≫= fun pos => mret (l, p, WRONG_EVENT, pos)) h).
      apply sat_bind. eapply sat_mono; [by apply (inject_wrong_event_outcomes l p h s)|].
      intros r h' (i & e & q & name' & s' & -> & Hi & Hq & Hvar' & He & ->). simpl.
      apply sat_ret. apply others_spec in Hq as [_ Hqp].
      exists i, e, q, name', s'. split_and!; try done; try lia.
      * apply list_lookup_insert_eq. eapply lookup_lt_Some; eauto.
      * by rewrite length_insert.
      * apply (foreign_event_differs p name q name' s s'); try done. lia.
    + intros i0 Hi0. rewrite Hunfold, Pr_bind_ret.
      rewrite (Pr_inject_wrong_event l p h Hh _
                 (fun _ => 1 # Z.to_pos (N - 1))%Q).
      * rewrite Qsum_const, Qmult_assoc, inv_length_cancel by apply others_nonempty.
        ring.
      * intros q name' s' e _ _ _. by apply Pr_overwrite_position.
    + intros q0 Hq0 Hq0p. rewrite Hunfold, Pr_bind_ret.
      rewrite (Pr_inject_wrong_event l p h Hh _
                 (fun q => if String.eqb q q0 then 1 else 0)%Q).
      * rewrite (Qsum_one _ _ q0).
        -- rewrite String.eqb_refl, others_length by (eapply catalog_variant_key; eauto).
           reflexivity.
        -- apply others_NoDup.
        -- by apply others_spec.
        -- intros q _ Hne. by rewrite (proj2 (String.eqb_neq q q0)).
      * intros q name' s' e _ Hvar' He.
        rewrite (Pr_overwrite_family l p e h s q0 Hl HN).
        by rewrite (detect_catalog_event _ _ _ _ Hvar' He).
  - intros h Hh. eapply sat_mono; [by apply generate_anomalous_sequence_injects|].
    intros r h' (p & name & s & k & d & Hv & _ & Hin) l p' i ->.
    pose proof (fresh_lookup h s) as Hl.
    pose proof (catalog_variant_length _ _ _ Hv) as HN.
    rewrite (inject_anomaly_unfold _ _ _ _ _ Hl) in Hin.
    apply in_bind_ret in Hin as (d' & pos & Heq & Hin).
    injection Heq as -> -> Hk ->. rewrite <- Hk in Hin. simpl in Hin.
    apply (inject_wrong_event_outcomes _ p (h ++ [s]) s
             (catalog_intact_alloc _ _ Hh) Hl HN) in Hin
      as (i & e & q & name' & s' & [= <-] & Hi & Hq & Hvar' & He & ->).
    apply others_spec in Hq as [_ Hqp].
    exists name, s, e, q, name', s'. split_and!; try done; try lia.
    apply list_lookup_insert_eq. rewrite length_app. simpl. lia.
Qed.

(** ** Normal sequences under a perfect predictor *)

Lemma variant_oracle_perfect (s : list string) : oracle_for (variant_oracle s) s.
Proof.
  intros i x _ Hx. unfold variant_oracle.
  rewrite length_take_le; [by rewrite Hx|].
  apply lookup_lt_Some in Hx. lia.
Qed.

Lemma analyze_event_is_anomaly (predict : list string -> string)
    (history : list string) (actual : string) :
  is_anomaly (analyze_event predict history actual)
  = negb (String.eqb (predict history) actual).
Proof.
  unfold analyze_event. destruct (String.eqb _ _); simpl; [done|].
  by destruct (negb _ && _ && _).
Qed.

Lemma monitor_oracle (predict : list string -> string) (s : list string) :
  oracle_for predict s ->
  exists ds, monitor_sequence predict s = Ok ds /\
             length ds = (length s - 1)%nat /\
             Forall (fun d => is_anomaly d = false) ds.
Proof.
  intros Horacle. eexists. split; [apply monitor_sequence_total|].
  split; [by rewrite length_map, length_seq|].
  apply Forall_fmap, Forall_forall. intros i Hi. apply elem_of_seq in Hi.
  destruct (lookup_lt_is_Some_2 s i) as [x Hx]; [lia|].
  cbv beta delta [compose]. rewrite analyze_event_is_anomaly, Hx. simpl.
  rewrite (Horacle i x) by (done || lia). by rewrite String.eqb_refl.
Qed.

Lemma in_bind_intro {A B} (m : M A) (k : A -> M B) h d1 a h1 d2 r h2 :
  In (d1, (Ok a, h1)) (m h) -> In (d2, (r, h2)) (k a h1) ->
  In ((d1 * d2)%positive, (r, h2)) ((m ≫= k) h).
Proof.
  intros H1 H2. unfold mbind, M_bind. apply in_flat_map.
  exists (d1, (Ok a, h1)). split; [done|]. simpl.
  unfold scale. apply in_map_iff. by exists (d2, (r, h2)).
Qed.

Lemma in_choice {A} (l : list A) (a : A) h :
  In a l -> In (Pos.of_nat (length l), (Ok a, h)) (choice l h).
Proof.
  intros Ha. unfold choice. destruct l as [|a0 l0]; [done|].
  apply in_map_iff. by exists a.
Qed.

Lemma dict_get_key {V} (d : dict V) (k : string) (v : V) :
  dict_get d k = Some v -> In k (keys d).
Proof.
  intros H. apply dict_get_In in H. apply in_map_iff. by exists (k, v).
Qed.

(** Every catalog sequence of [p] is among the results of
    [generate_normal_sequence]. *)
Lemma generate_normal_sequence_returns (p name : string) (s : list string) h :
  catalog_variant p name s -> catalog_intact h ->
  exists d, In (d, (Ok (length h, p), h ++ [s]))
               (generate_normal_sequence (Some p) h).
Proof.
  intros (flows & l & Hp & Hn & Hs) Hh. unfold generate_normal_sequence.
  eexists. eapply in_bind_intro; [by left|].
  eapply in_bind_intro; [unfold dict_getitem; rewrite Hp; by left|].
  eapply in_bind_intro; [apply in_choice; eapply dict_get_key; eauto|].
  eapply in_bind_intro; [unfold dict_getitem; rewrite Hn; by left|].
  eapply in_bind_intro; [by left|].
  unfold deref. rewrite (Hh _ _ Hs). by left.
Qed.

(** [generate_normal_sequence] with a process type of the catalog, or with
    none, does not raise. *)
Lemma generate_normal_sequence_ok (process_type : option string) h :
  (forall p, process_type = Some p -> In p (keys VALID_FLOWS)) ->
  sat (generate_normal_sequence process_type) h (fun r _ => exists x, r = Ok x).
Proof.
  intros Hkey. unfold generate_normal_sequence.
  assert (Hrest : forall p, In p (keys VALID_FLOWS) ->
    sat (flows ← dict_getitem VALID_FLOWS p;
         flow_name ← choice (keys flows);
         flow ← dict_getitem flows flow_name;
         sequence ← list_copy flow;
         mret (sequence, p)) h (fun r _ => exists x, r = Ok x)).
  { intros p Hp. repeat sat_step; eauto; exfalso.
    - destruct (keys_dict_get _ _ Hp); congruence.
    - match goal with
      | Hf : dict_get VALID_FLOWS _ = Some ?flows, He : keys ?flows = [] |- _ =>
          destruct (proj1 (valid_flows_values _ _ Hf)); unfold values;
          unfold keys in He; by destruct flows
      end.
    - match goal with
      | Hin : In ?a (keys ?d), Hnone : dict_get ?d ?a = None |- _ =>
          destruct (keys_dict_get _ _ Hin); congruence
      end. }
  apply sat_bind. destruct process_type as [p0|].
  - apply sat_ret. sat_step. apply Hrest. by apply Hkey.
  - apply sat_choice; [done|]. intros p Hp. sat_step. by apply Hrest.
Qed.

(** C8: for a process type [p] of the catalog, [generate_normal_sequence]
    returns (it does not raise) a copy of a catalog sequence of [p], each
    of them for some draw, and the monitor with a predictor that is a
    perfect oracle for the returned sequence gives one decision per
    transition, none of them anomalous.  Such an oracle exists for every
    catalog sequence. *)
Theorem normal_sequence_no_anomaly (p name : string) (s : list string) h :
  catalog_variant p name s -> catalog_intact h ->
  (exists d l h',
      In (d, (Ok (l, p), h')) (generate_normal_sequence (Some p) h) /\
      h' !! l = Some s) /\
  sat (generate_normal_sequence (Some p)) h
      (fun r h' =>
         exists l name' s',
           r = Ok (l, p) /\ catalog_variant p name' s' /\ h' !! l = Some s' /\
           oracle_for (variant_oracle s') s' /\
           forall predict, oracle_for predict s' ->
             exists ds, monitor_sequence predict s' = Ok ds /\
                        length ds = (length s' - 1)%nat /\
                        Forall (fun d => is_anomaly d = false) ds).
Proof.
  intros Hvar Hh. split.
  - destruct (generate_normal_sequence_returns _ _ _ _ Hvar Hh) as [d Hd].
    exists d, (length h), (h ++ [s]). split; [done|]. apply fresh_lookup.
  - intros d r h' Hin.
    assert (Hkey : forall p0, Some p = Some p0 -> In p0 (keys VALID_FLOWS)).
    { intros ? [= <-]. eapply catalog_variant_key; eauto. }
    destruct (generate_normal_sequence_ok (Some p) h Hkey _ _ _ Hin) as [[l p'] ->].
    destruct (generate_normal_sequence_spec (Some p) h Hh _ _ _ Hin) as [_ Hr].
    destruct (Hr l p' eq_refl) as (-> & Hp' & name' & s' & Hvar' & ->).
    rewrite (Hp' p eq_refl) in *.
    exists (length h), name', s'. split_and!; try done.
    + apply fresh_lookup.
    + apply variant_oracle_perfect.
    + intros predict. apply monitor_oracle.
Qed.

(** ** Instances *)

Lemma catalog_intact_copy (s : list string) : catalog_intact (catalog_heap ++ [s]).
Proof. intros l s' H. apply lookup_app_l_Some. exact H. Qed.

(** The [SKIPPED_STEP] injection on a copy of the rejected payment flow,
    and on the results of the generator started in the initial store. *)
Lemma skipped_step_injection_witness :
  inject_anomaly 12%nat "payment" SKIPPED_STEP
    (catalog_heap ++ [["PaymentInitiated"; "PaymentValidated";
                       "PaymentPendingApproval"; "PaymentRejected"]])
  = map (fun i => (2%positive,
                   (Ok (12%nat, "payment", SKIPPED_STEP, i),
                    <[12%nat := delete (Z.to_nat i)
                                  ["PaymentInitiated"; "PaymentValidated";
                                   "PaymentPendingApproval"; "PaymentRejected"]]>
                      (catalog_heap ++ [["PaymentInitiated"; "PaymentValidated";
                                         "PaymentPendingApproval"; "PaymentRejected"]]))))
        (seqZ 1 2) /\
  sat generate_anomalous_sequence catalog_heap
      (fun r h' =>
         forall l p i, r = Ok (l, p, SKIPPED_STEP, i) ->
           exists name s,
             catalog_variant p name s /\
             let N := Z.of_nat (length s) in
             (3 < N /\ 1 <= i <= N - 2 /\
              h' !! l = Some (delete (Z.to_nat i) s) /\
              Z.of_nat (length (delete (Z.to_nat i) s)) = N - 1)
             \/ (N = 3 /\ h' !! l = Some s)).
Proof.
  split.
  - apply (proj1 skipped_step_injection 12%nat "payment"
             (catalog_heap ++ [["PaymentInitiated"; "PaymentValidated";
                                "PaymentPendingApproval"; "PaymentRejected"]])
             ["PaymentInitiated"; "PaymentValidated";
              "PaymentPendingApproval"; "PaymentRejected"]).
    + reflexivity.
    + simpl. lia.
  - apply (proj2 skipped_step_injection catalog_heap).
    apply catalog_intact_initial.
Defined.

(** The [OUT_OF_ORDER] injection on a copy of the accepted risk flow. *)
Lemma out_of_order_injection_witness :
  inject_anomaly 12%nat "risk" OUT_OF_ORDER
    (catalog_heap ++ [["RiskLimitBreached"; "RiskAlertCreated";
                       "RiskAlertAcknowledged"; "RiskAlertResolved"]])
  = map (fun q => (2%positive,
                   (Ok (12%nat, "risk", OUT_OF_ORDER, q + 1),
                    <[12%nat := swap_adjacent (Z.to_nat q)
                                  ["RiskLimitBreached"; "RiskAlertCreated";
                                   "RiskAlertAcknowledged"; "RiskAlertResolved"]]>
                      (catalog_heap ++ [["RiskLimitBreached"; "RiskAlertCreated";
                                         "RiskAlertAcknowledged"; "RiskAlertResolved"]]))))
        (seqZ 1 2) /\
  sat generate_anomalous_sequence catalog_heap
      (fun r h' =>
         forall l p i, r = Ok (l, p, OUT_OF_ORDER, i) ->
           exists name s q,
             catalog_variant p name s /\
             2 < Z.of_nat (length s) /\
             1 <= q <= Z.of_nat (length s) - 2 /\ i = q + 1 /\
             h' !! l = Some (swap_adjacent (Z.to_nat q) s)).
Proof.
  split.
  - apply (proj1 out_of_order_injection 12%nat "risk"
             (catalog_heap ++ [["RiskLimitBreached"; "RiskAlertCreated";
                                "RiskAlertAcknowledged"; "RiskAlertResolved"]])
             ["RiskLimitBreached"; "RiskAlertCreated";
              "RiskAlertAcknowledged"; "RiskAlertResolved"]).
    + reflexivity.
    + simpl. lia.
  - apply (proj2 out_of_order_injection catalog_heap).
    apply catalog_intact_initial.
Defined.

(** The [WRONG_EVENT] injection on a copy of the clear compliance flow:
    position 1 is certain, and a risk event is written one time in four. *)
Lemma wrong_event_injection_witness :
  (Pr (inject_anomaly 12%nat "compliance" WRONG_EVENT
         (catalog_heap ++ [["ComplianceCheckTriggered"; "ComplianceCheckPassed"]]))
      (position_is 1) == 1)%Q /\
  (Pr (inject_anomaly 12%nat "compliance" WRONG_EVENT
         (catalog_heap ++ [["ComplianceCheckTriggered"; "ComplianceCheckPassed"]]))
      (written_family_is "risk") == 1 # 4)%Q.
Proof.
  destruct (proj1 wrong_event_injection 12%nat "compliance" "clear"
              (catalog_heap ++ [["ComplianceCheckTriggered"; "ComplianceCheckPassed"]])
              ["ComplianceCheckTriggered"; "ComplianceCheckPassed"])
    as (_ & Hpos & Hfam).
  - apply catalog_intact_copy.
  - exists [("clear", 9%nat); ("flagged", 10%nat)], 9%nat.
    split; [reflexivity|]. split; reflexivity.
  - reflexivity.
  - split.
    + apply (Hpos 1). simpl. lia.
    + apply (Hfam "risk"); [simpl; tauto | discriminate].
Defined.

(** The accepted risk flow is among the normal sequences of [risk]. *)
Lemma normal_sequence_no_anomaly_witness :
  exists d l h',
    In (d, (Ok (l, "risk"), h')) (generate_normal_sequence (Some "risk") catalog_heap) /\
    h' !! l = Some ["RiskLimitBreached"; "RiskAlertCreated";
                    "RiskAlertAcknowledged"; "RiskAlertResolved"].
Proof.
  apply (normal_sequence_no_anomaly "risk" "accepted"
           ["RiskLimitBreached"; "RiskAlertCreated";
            "RiskAlertAcknowledged"; "RiskAlertResolved"] catalog_heap).
  - exists [("mitigated", 7%nat); ("accepted", 8%nat)], 8%nat.
    split; [reflexivity|]. split; reflexivity.
  - apply catalog_intact_initial.
Defined.

(** * Further properties *)

(** ** Every computation has an outcome *)

Lemma bind_outcome {A B} (m : M A) (k : A -> M B) h :
  m h <> [] -> (forall a h', k a h' <> []) -> (m ≫= k) h <> [].
Proof.
  intros Hm Hk. unfold mbind, M_bind.
  destruct (m h) as [|[d [[a|e] h']] o]; [done| |done].
  simpl. specialize (Hk a h'). unfold scale.
  destruct (k a h'); [done|]. by destruct p.
Qed.

Lemma choice_outcome {A} (l : list A) h : choice l h <> [].
Proof. by destruct l. Qed.

Lemma randint_outcome (a b : Z) h : randint a b h <> [].
Proof. unfold randint. destruct (b <? a); [done|apply choice_outcome]. Qed.

Lemma dict_getitem_outcome {V} (d : dict V) (k : string) h : dict_getitem d k h <> [].
Proof. unfold dict_getitem. by destruct (dict_get d k). Qed.

Lemma list_getitem_outcome (l : nat) (i : Z) h : list_getitem l i h <> [].
Proof.
  unfold list_getitem. apply bind_outcome; [done|]. intros xs h'.
  destruct (norm_index _ _); [|done]. by destruct (xs !! _).
Qed.

Lemma list_setitem_outcome (l : nat) (i : Z) (x : string) h : list_setitem l i x h <> [].
Proof. unfold list_setitem. by destruct (norm_index _ _). Qed.

Lemma list_pop_outcome (l : nat) (i : Z) h : list_pop l i h <> [].
Proof.
  unfold list_pop. destruct (norm_index _ _); [|done]. by destruct (_ !! _).
Qed.

Lemma for_each_outcome {A B} (xs : list A) (body : A -> B -> M B) (acc : B) h :
  (forall x acc' h', body x acc' h' <> []) -> for_each xs body acc h <> [].
Proof.
  intros Hbody. revert acc h. induction xs as [|x xs IH]; intros acc h; [done|].
  cbn [for_each]. apply bind_outcome; auto.
Qed.

Ltac outcome :=
  repeat first
    [ apply choice_outcome | apply randint_outcome | apply dict_getitem_outcome
    | apply list_getitem_outcome | apply list_setitem_outcome | apply list_pop_outcome
    | apply bind_outcome; [|intros] | done
    | match goal with
      | |- (let '(_, _) := ?p in _) _ <> [] => destruct p
      | |- (if ?b then _ else _) _ <> [] => destruct b
      | |- (match ?x with _ => _ end) _ <> [] => destruct x
      end ].

Lemma generate_normal_sequence_outcome (process_type : option string) h :
  generate_normal_sequence process_type h <> [].
Proof.
  unfold generate_normal_sequence, list_copy. outcome.
Qed.

Lemma generate_anomalous_sequence_outcome h : generate_anomalous_sequence h <> [].
Proof.
  unfold generate_anomalous_sequence, inject_anomaly, inject_wrong_event,
    inject_skipped_step, inject_out_of_order, list_choice, list_len, list_read, list_copy.
  outcome.
Qed.

Lemma run_benchmark_has_outcome (predict : list string -> string)
    (num_normal num_anomalous : Z) h :
  run_benchmark predict num_normal num_anomalous h <> [].
Proof.
  unfold run_benchmark. apply bind_outcome.
  { apply for_each_outcome. intros. apply bind_outcome;
      [apply generate_normal_sequence_outcome|]. intros [? ?] ?. done. }
  intros. apply bind_outcome.
  { apply for_each_outcome. intros. apply bind_outcome;
      [apply generate_anomalous_sequence_outcome|]. intros [[[? ?] ?] ?] ?. done. }
  intros. apply bind_outcome; [apply choice_outcome|]. intros.
  apply bind_outcome.
  { apply for_each_outcome. intros. unfold run_test_case, list_read, lift.
    apply bind_outcome; [done|]. intros. apply bind_outcome; [done|]. intros.
    by destruct (score _ _ _). }
  intros. apply bind_outcome; [done|]. done.
Qed.

(** ** Family detection *)

Lemma prefix_spec (sub s : string) :
  String.prefix sub s = true <-> exists post, s = (sub ++ post)%string.
Proof.
  revert s. induction sub as [|c sub IH]; intros s.
  - split; [intros _; by exists s | by destruct s].
  - destruct s as [|c' s]; simpl; [split; [done | by intros [? [=]]]|].
    destruct (Ascii.ascii_dec c c') as [->|Hne].
    + rewrite IH. split; intros [post H]; exists post; congruence.
    + split; [done|]. intros [post [= ? _]]. done.
Qed.

Lemma str_contains_spec (sub s : string) :
  str_contains sub s = true <-> occurs sub s.
Proof.
  induction s as [|c s IH]; cbn [str_contains]; rewrite orb_true_iff, prefix_spec.
  - split.
    + intros [[post H]|[=]]. by exists EmptyString, post.
    + intros ([|c pre] & post & H); [left; by exists post | discriminate H].
  - rewrite IH. split.
    + intros [[post H]|(pre & post & H)].
      * by exists EmptyString, post.
      * exists (String c pre), post. simpl. by rewrite H.
    + intros ([|c' pre] & post & H).
      * left. by exists post.
      * right. injection H as -> H. by exists pre, post.
Qed.

Lemma detect_loop_none (items : dict string) (event : string) :
  detect_loop items event = None
  <-> forall k v, In (k, v) items -> ~ occurs k event.
Proof.
  induction items as [|[k v] items IH]; simpl.
  - split; [by intros _ ? ? []|done].
  - destruct (str_contains k event) eqn:Hk.
    + apply str_contains_spec in Hk. split; [done|].
      intros H. destruct (H k v); auto.
    + rewrite IH. split.
      * intros H k' v' [[= <- <-]|Hin]; [|by eauto].
        rewrite <- str_contains_spec. congruence.
      * intros H k' v' Hin. eauto.
Qed.

(** X1: [_detect_process_type] answers [None] exactly when none of the seven
    keys occurs in the name as a substring; an answer is one of the five
    family names; and a name in which [Order] or [Trade] occurs is a trade
    event whatever else occurs in it, the keys being tried in table
    order. *)
Theorem detect_process_type_spec (event : string) :
  (_detect_process_type event = None
   <-> forall k, In k ["Order"; "Trade"; "Payment"; "Risk"; "Compliance"; "Account"; "KYC"] ->
                 ~ occurs k event) /\
  (forall f, _detect_process_type event = Some f ->
             In f ["trade"; "payment"; "risk"; "compliance"; "account"]) /\
  (occurs "Order" event \/ occurs "Trade" event ->
   _detect_process_type event = Some "trade") /\
  (~ occurs "Order" event -> ~ occurs "Trade" event -> occurs "Payment" event ->
   _detect_process_type event = Some "payment").
Proof.
  split_and!.
  - unfold _detect_process_type. rewrite detect_loop_none. split.
    + intros H k Hk. simpl in Hk.
      repeat (destruct Hk as [<-|Hk]; [eapply H; simpl; eauto 10|]). done.
    + intros H k v Hin. apply H. simpl in Hin.
      repeat (destruct Hin as [[= <- <-]|Hin]; [simpl; tauto|]). done.
  - intros f Hf. apply detect_loop_values in Hf. simpl in Hf. simpl.
    intuition.
  - unfold _detect_process_type. simpl. intros [H|H]; apply str_contains_spec in H.
    + by rewrite H.
    + rewrite H. by destruct (str_contains "Order" event).
  - unfold _detect_process_type. simpl. intros H1 H2 H3.
    rewrite <- str_contains_spec in H1, H2, H3.
    destruct (str_contains "Order" event); [done|].
    destruct (str_contains "Trade" event); [done|]. by rewrite H3.
Qed.

(** ** The monitor and the predictor *)

Lemma analyze_event_ext (predict predict' : list string -> string)
    (history : list string) (actual : string) :
  predict history = predict' history ->
  analyze_event predict history actual = analyze_event predict' history actual.
Proof. intros H. unfold analyze_event. by rewrite H. Qed.

(** X2: the monitor consults the predictor on the non-empty proper prefixes
    of the sequence and on nothing else: two predictors that agree on
    [events[:i]] for [1 <= i < len(events)] give the same decisions; in
    particular the answer on the empty history plays no part. *)
Theorem monitor_sequence_predictor_frame (predict predict' : list string -> string)
    (events : list string) :
  (forall i, (1 <= i < length events)%nat ->
             predict (take i events) = predict' (take i events)) ->
  monitor_sequence predict events = monitor_sequence predict' events.
Proof.
  intros Hagree. rewrite !monitor_sequence_total. f_equal.
  apply map_ext_in. intros i Hi. apply in_seq in Hi.
  apply analyze_event_ext, Hagree. lia.
Qed.

(** Two predictors that differ on the empty history only. *)
Lemma monitor_sequence_predictor_frame_witness :
  monitor_sequence (fun _ => "OrderValidated") ["OrderSubmitted"; "OrderValidated"]
  = monitor_sequence (fun history => match history with
                                     | [] => "TradeBooked"
                                     | _ => "OrderValidated"
                                     end)
                     ["OrderSubmitted"; "OrderValidated"].
Proof.
  apply (monitor_sequence_predictor_frame
           (fun _ => "OrderValidated")
           (fun history => match history with
                           | [] => "TradeBooked"
                           | _ => "OrderValidated"
                           end)
           ["OrderSubmitted"; "OrderValidated"]).
  intros i Hi. simpl in Hi. destruct i as [|[|i]]; [lia|reflexivity|lia].
Defined.

(** ** The scoring loop *)

Lemma run_test_case_run (predict : list string -> string)
    (test_case : TestCase) (results : Results) h :
  exists decisions,
    monitor_sequence predict (deref h (tc_sequence test_case)) = Ok decisions /\
    run_test_case predict test_case results h
    = [(1%positive,
        (Ok (append_detail (score results (tc_has_anomaly test_case) decisions).1
                           test_case decisions
                           (score results (tc_has_anomaly test_case) decisions).2), h))].
Proof.
  eexists. split; [apply monitor_sequence_total|].
  unfold run_test_case, mbind, M_bind, list_read, lift. simpl.
  rewrite monitor_sequence_total. simpl.
  by destruct (score _ _ _).
Qed.

Lemma score_counters (results : Results) (has_anomaly : bool)
    (decisions : list AgentDecision) :
  let r := (score results has_anomaly decisions).1 in
  true_positives r + false_negatives r
  = true_positives results + false_negatives results + (if has_anomaly then 1 else 0) /\
  false_positives r + true_negatives r
  = false_positives results + true_negatives results + (if has_anomaly then 0 else 1) /\
  true_positives results <= true_positives r /\
  false_positives results <= false_positives r /\
  true_negatives results <= true_negatives r /\
  false_negatives results <= false_negatives r /\
  details r = details results.
Proof.
  unfold score.
  destruct has_anomaly, (existsb is_anomaly decisions); simpl;
    split_and!; (lia || reflexivity).
Qed.

(** Scoring with a predictor that answers on every history: one outcome,
    the store as it was, and the confusion matrix grown by exactly the test
    cases. *)
Lemma answering_loop_counts (predict : list string -> string)
    (test_cases : list TestCase) (results : Results) h :
  exists results',
    for_each test_cases (run_test_case predict) results h
    = [(1%positive, (Ok results', h))] /\
    true_positives results' + false_negatives results'
    = true_positives results + false_negatives results
      + Z.of_nat (length (List.filter tc_has_anomaly test_cases)) /\
    false_positives results' + true_negatives results'
    = false_positives results + true_negatives results
      + Z.of_nat (length (List.filter (fun tc => negb (tc_has_anomaly tc)) test_cases)) /\
    true_positives results <= true_positives results' /\
    false_positives results <= false_positives results' /\
    true_negatives results <= true_negatives results' /\
    false_negatives results <= false_negatives results' /\
    length (details results') = (length (details results) + length test_cases)%nat.
Proof.
  revert results. induction test_cases as [|tc tcs IH]; intros results.
  - exists results. simpl. split; [reflexivity|]. lia.
  - destruct (run_test_case_run predict tc results h) as (ds & _ & Hrun).
    pose proof (score_counters results (tc_has_anomaly tc) ds) as Hs. cbv zeta in Hs.
    set (r1 := append_detail _ tc ds _) in Hrun.
    destruct (IH r1) as (r' & Hloop & H1 & H2 & H3 & H4 & H5 & H6 & H7).
    exists r'. split.
    + cbn [for_each]. by rewrite (bind_det _ _ _ _ _ Hrun).
    + destruct Hs as (Ha & Hb & Hc & Hd & He & Hf & Hg).
      subst r1. unfold append_detail in H1, H2, H3, H4, H5, H6, H7.
      cbn [true_positives false_positives true_negatives false_negatives details] in *.
      rewrite length_app, Hg in H7. cbn [length] in H7.
      cbn [List.filter]. destruct (tc_has_anomaly tc); cbn [negb length]; lia.
Qed.

(** ** The derived metrics *)

(** The metric code over exact rationals, for the counters of a non-empty
    run. *)
Lemma compute_metrics_Q (tp fp tn fn : Z) :
  0 <= tp -> 0 <= fp -> 0 <= tn -> 0 <= fn -> 0 < tp + fp + tn + fn ->
  compute_metrics tp fp tn fn
  = Ok {| precision := guarded_ratio tp (tp + fp);
          recall := guarded_ratio tp (tp + fn);
          f1_score :=
            (if Qeq_bool (guarded_ratio tp (tp + fp) + guarded_ratio tp (tp + fn)) 0
             then 0
             else 2 * guarded_ratio tp (tp + fp) * guarded_ratio tp (tp + fn)
                  / (guarded_ratio tp (tp + fp) + guarded_ratio tp (tp + fn)))%Q;
          accuracy := (inject_Z (tp + tn) / inject_Z (tp + tn + fp + fn))%Q |}.
Proof.
  intros Htp Hfp Htn Hfn Htotal.
  pose proof (guarded_ratio_nonneg tp (tp + fp) Htp ltac:(lia)) as Hp.
  pose proof (guarded_ratio_nonneg tp (tp + fn) Htp ltac:(lia)) as Hr.
  assert (Hratio : forall d, 0 <= d ->
            (if 0 <? d then py_truediv (of_int (R:=Q) tp) (of_int d) else Ok (of_int 0))
            = Ok (guarded_ratio tp d)).
  { intros d Hd. unfold guarded_ratio. destruct (Z.ltb_spec 0 d).
    - rewrite (proj2 (Z.eqb_neq _ _)) by lia. apply Q_truediv_ok. lia.
    - by replace d with 0 by lia. }
  unfold compute_metrics. rewrite !Hratio by lia.
  unfold mbind, result_bind.
  assert (Hsum : (0 <= guarded_ratio tp (tp + fp) + guarded_ratio tp (tp + fn))%Q).
  { replace 0%Q with (0 + 0)%Q by reflexivity. by apply Qplus_le_compat. }
  change (py_add ?a ?b) with (Qplus a b).
  rewrite (Q_gt0_spec _ Hsum).
  replace (py_truediv (of_int (tp + tn)) (of_int (tp + tn + fp + fn)))
    with (Ok (inject_Z (tp + tn) / inject_Z (tp + tn + fp + fn))%Q)
    by (symmetry; apply Q_truediv_ok; lia).
  destruct (Qeq_bool _ 0) eqn:Hz; simpl; [reflexivity|]. by rewrite Hz.
Qed.

Lemma Q_ratio_le_1 (a b : Z) : 0 <= a <= b -> 0 < b -> (inject_Z a / inject_Z b <= 1)%Q.
Proof.
  intros Ha Hb. apply Qle_shift_div_r.
  - unfold Qlt. simpl. lia.
  - rewrite Qmult_1_l. unfold Qle. simpl. lia.
Qed.

Lemma guarded_ratio_le_1 (a b : Z) : 0 <= a <= b -> (guarded_ratio a b <= 1)%Q.
Proof.
  intros Ha. unfold guarded_ratio. destruct (Z.eqb_spec b 0); [done|].
  apply Q_ratio_le_1; lia.
Qed.

Lemma guarded_ratio_zero (a b : Z) :
  0 <= a <= b -> ((guarded_ratio a b == 0)%Q <-> a = 0 \/ b = 0).
Proof.
  intros Ha. unfold guarded_ratio. destruct (Z.eqb_spec b 0) as [->|Hb].
  - split; [by right | reflexivity].
  - split.
    + intros H. left. apply Qmult_integral in H as [H|H].
      * unfold Qeq in H. simpl in H. lia.
      * assert (Hinv : (inject_Z b * / inject_Z b == 1)%Q).
        { apply Qmult_inv_r. unfold Qeq. simpl. lia. }
        rewrite H, Qmult_0_r in Hinv. discriminate Hinv.
    + intros [-> | ->]; [|done]. unfold Qdiv. by rewrite Qmult_0_l.
Qed.

(** The harmonic mean of two ratios with the same numerator. *)
Lemma harmonic_closed_form (a b c : Q) :
  (0 < a)%Q -> (0 <= b)%Q -> (0 <= c)%Q ->
  (2 * (a / (a + b)) * (a / (a + c)) / (a / (a + b) + a / (a + c))
   == 2 * a / (2 * a + b + c))%Q.
Proof.
  intros Ha Hb Hc.
  assert (Hprod : (0 < a * (2 * a + b + c))%Q) by nra.
  field. split_and!; lra.
Qed.

(** X4: over exact rationals, for non-negative counters of a non-empty run,
    the four metrics lie in [[0, 1]]; the F1 score is [2TP / (2TP + FP + FN)],
    and it is [0] exactly when there is no true positive. *)
Theorem metrics_bounds (tp fp tn fn : Z) :
  0 <= tp -> 0 <= fp -> 0 <= tn -> 0 <= fn -> 0 < tp + fp + tn + fn ->
  exists m : Metrics Q,
    compute_metrics tp fp tn fn = Ok m /\
    (0 <= precision m <= 1)%Q /\ (0 <= recall m <= 1)%Q /\
    (0 <= f1_score m <= 1)%Q /\ (0 <= accuracy m <= 1)%Q /\
    (f1_score m == guarded_ratio (2 * tp) (2 * tp + fp + fn))%Q /\
    ((f1_score m == 0)%Q <-> tp = 0).
Proof.
  intros Htp Hfp Htn Hfn Htotal.
  eexists. split; [by apply compute_metrics_Q|]. cbn [precision recall f1_score accuracy].
  pose proof (guarded_ratio_nonneg tp (tp + fp) Htp ltac:(lia)) as Hp0.
  pose proof (guarded_ratio_nonneg tp (tp + fn) Htp ltac:(lia)) as Hr0.
  pose proof (guarded_ratio_le_1 tp (tp + fp) ltac:(lia)) as Hp1.
  pose proof (guarded_ratio_le_1 tp (tp + fn) ltac:(lia)) as Hr1.
  pose proof (guarded_ratio_nonneg (2 * tp) (2 * tp + fp + fn) ltac:(lia) ltac:(lia)) as Hf0.
  pose proof (guarded_ratio_le_1 (2 * tp) (2 * tp + fp + fn) ltac:(lia)) as Hf1.
  assert (Hf1eq :
    ((if Qeq_bool (guarded_ratio tp (tp + fp) + guarded_ratio tp (tp + fn)) 0
      then 0
      else 2 * guarded_ratio tp (tp + fp) * guarded_ratio tp (tp + fn)
           / (guarded_ratio tp (tp + fp) + guarded_ratio tp (tp + fn)))
     == guarded_ratio (2 * tp) (2 * tp + fp + fn))%Q).
  { destruct (Z.eq_dec tp 0) as [->|Hne].
    - assert (Hz : forall d, guarded_ratio 0 d = 0%Q \/ (guarded_ratio 0 d == 0)%Q).
      { intros d. right. unfold guarded_ratio. destruct (_ =? _); [reflexivity|].
        unfold Qdiv. by rewrite Qmult_0_l. }
      destruct (Qeq_bool _ 0) eqn:Hb.
      + symmetry. apply guarded_ratio_zero; lia.
      + apply Qeq_bool_neq in Hb. destruct Hb.
        destruct (Hz (0 + fp)) as [->| ->], (Hz (0 + fn)) as [->| ->]; reflexivity.
    - unfold guarded_ratio.
      rewrite !(proj2 (Z.eqb_neq _ 0)) by lia.
      assert (Ha : (0 < inject_Z tp)%Q) by (unfold Qlt; simpl; lia).
      assert (Hb : (0 <= inject_Z fp)%Q) by (unfold Qle; simpl; lia).
      assert (Hc : (0 <= inject_Z fn)%Q) by (unfold Qle; simpl; lia).
      rewrite !inject_Z_plus, inject_Z_mult.
      change (inject_Z 2) with 2%Q.
      pose proof (harmonic_closed_form _ _ _ Ha Hb Hc) as Hh.
      destruct (Qeq_bool _ 0) eqn:Hz.
      + apply Qeq_bool_iff in Hz. exfalso.
        assert (H1 : (0 < inject_Z tp / (inject_Z tp + inject_Z fp))%Q).
        { apply Qlt_shift_div_l; lra. }
        assert (H2 : (0 < inject_Z tp / (inject_Z tp + inject_Z fn))%Q).
        { apply Qlt_shift_div_l; lra. }
        lra.
      + exact Hh. }
  split_and!; try done.
  - rewrite Hf1eq. done.
  - rewrite Hf1eq. done.
  - apply Q_ratio_nonneg; lia.
  - replace (tp + tn + fp + fn) with (tp + fp + tn + fn) by lia.
    apply Q_ratio_le_1; lia.
  - rewrite Hf1eq, guarded_ratio_zero by lia. lia.
Qed.

Lemma metrics_bounds_witness :
  exists m : Metrics Q,
    compute_metrics 8 2 7 3 = Ok m /\
    (f1_score m == guarded_ratio 16 21)%Q.
Proof.
  destruct (metrics_bounds 8 2 7 3) as (m & Hm & _ & _ & _ & _ & Hf & _); try lia.
  exists m. split; [exact Hm | exact Hf].
Defined.

(** A binary64 value above zero is not equal to zero. *)
Lemma float_pos_nonzero (f : float) :
  PrimFloat.ltb 0 f = true -> PrimFloat.eqb f 0 = false.
Proof.
  rewrite FloatAxioms.ltb_spec, FloatAxioms.eqb_spec.
  change (Prim2SF 0) with (S754_zero false).
  by destruct (Prim2SF f) as [[]|[]| |[] ? ?].
Qed.

(** In CPython's arithmetic a guarded ratio of the metric code does not
    raise. *)
Lemma pynum_ratio_ok (tp d : Z) :
  exists x : pynum,
    (if 0 <? d then py_truediv (of_int tp) (of_int d) else Ok (of_int 0)) = Ok x.
Proof.
  destruct (Z.ltb_spec 0 d); [|by eexists].
  simpl. rewrite (proj2 (Z.eqb_neq d 0)) by lia. by eexists.
Qed.

(** Nor does the guarded F1 expression, whatever precision and recall are. *)
Lemma pynum_f1_ok (p r : pynum) :
  exists x : pynum,
    (if py_gt0 (py_add p r)
     then py_truediv (py_mul (py_mul (of_int 2) p) r) (py_add p r)
     else Ok (of_int 0)) = Ok x.
Proof.
  destruct (py_gt0 (py_add p r)) eqn:Hgt; [|by eexists].
  assert (Hdiv : forall a b : pynum,
            py_truediv a b
            = if pynum_is_zero b then Raise ZeroDivisionError
              else Ok (PyFloat (PrimFloat.div (to_float a) (to_float b))))
    by reflexivity.
  rewrite Hdiv.
  assert (Hnz : pynum_is_zero (py_add p r) = false).
  { destruct (py_add p r) as [z|f]; simpl in *.
    - apply Z.eqb_neq. apply Z.ltb_lt in Hgt. lia.
    - by apply float_pos_nonzero. }
  rewrite Hnz. by eexists.
Qed.

(** X5: in CPython's arithmetic the metric code raises [ZeroDivisionError]
    when the four counters add up to zero and returns the metrics in every
    other case, whatever the counters are: the three guarded ratios never
    divide by zero. *)
Theorem metrics_raise_only_when_empty (tp fp tn fn : Z) :
  (tp + tn + fp + fn = 0 ->
   compute_metrics (R:=pynum) tp fp tn fn = Raise ZeroDivisionError) /\
  (tp + tn + fp + fn <> 0 ->
   exists m : Metrics pynum, compute_metrics tp fp tn fn = Ok m).
Proof.
  unfold compute_metrics.
  destruct (pynum_ratio_ok tp (tp + fp)) as [p ->].
  destruct (pynum_ratio_ok tp (tp + fn)) as [r ->].
  unfold mbind, result_bind. destruct (pynum_f1_ok p r) as [f ->].
  split; intros Htotal.
  - simpl. by rewrite Htotal.
  - simpl. rewrite (proj2 (Z.eqb_neq _ 0)) by done. by eexists.
Qed.

Lemma metrics_raise_only_when_empty_witness :
  compute_metrics (R:=pynum) 0 0 0 0 = Raise ZeroDivisionError /\
  exists m : Metrics pynum, compute_metrics 0 0 1 0 = Ok m.
Proof.
  split.
  - apply (proj1 (metrics_raise_only_when_empty 0 0 0 0)). reflexivity.
  - apply (proj2 (metrics_raise_only_when_empty 0 0 1 0)). discriminate.
Defined.

(** ** The generator of normal sequences *)

Lemma dict_get_none {V} (d : dict V) (k : string) :
  dict_get d k = None <-> ~ In k (keys d).
Proof.
  split.
  - intros Hn Hin. destruct (keys_dict_get _ _ Hin). congruence.
  - intros Hnot. destruct (dict_get d k) eqn:E; [|done].
    destruct Hnot. eapply dict_get_key; eauto.
Qed.

(** X6: with a process type that is not a key of [VALID_FLOWS],
    [generate_normal_sequence] raises [KeyError] and leaves the store as it
    is; with a key it returns that process type and a new list object,
    appended to the store, whatever the store holds and whatever flow is
    drawn (and some flow is). *)
Theorem generate_normal_sequence_key (p : string) h :
  (~ In p (keys VALID_FLOWS) ->
   generate_normal_sequence (Some p) h = [(1%positive, (Raise KeyError, h))]) /\
  (In p (keys VALID_FLOWS) ->
   generate_normal_sequence (Some p) h <> [] /\
   sat (generate_normal_sequence (Some p)) h
       (fun r h' => r = Ok (length h, p) /\ exists xs, h' = h ++ [xs])).
Proof.
  split.
  - intros Hp. apply dict_get_none in Hp. unfold generate_normal_sequence.
    rewrite (bind_det _ _ h p h) by done.
    unfold mbind, M_bind, dict_getitem. by rewrite Hp.
  - intros Hp. split; [apply generate_normal_sequence_outcome|].
    unfold generate_normal_sequence.
    repeat sat_step; eauto; exfalso.
    + destruct (keys_dict_get _ _ Hp); congruence.
    + match goal with
      | Hf : dict_get VALID_FLOWS _ = Some ?flows, He : keys ?flows = [] |- _ =>
          destruct (proj1 (valid_flows_values _ _ Hf)); unfold values;
          unfold keys in He; by destruct flows
      end.
    + match goal with
      | Hin : In ?a (keys ?d), Hnone : dict_get ?d ?a = None |- _ =>
          destruct (keys_dict_get _ _ Hin); congruence
      end.
Qed.

Lemma generate_normal_sequence_key_witness :
  generate_normal_sequence (Some "loan") catalog_heap
  = [(1%positive, (Raise KeyError, catalog_heap))] /\
  generate_normal_sequence (Some "risk") catalog_heap <> [] /\
  sat (generate_normal_sequence (Some "risk")) catalog_heap
      (fun r h' => r = Ok (length catalog_heap, "risk") /\
                   exists xs, h' = catalog_heap ++ [xs]).
Proof.
  split.
  - apply (proj1 (generate_normal_sequence_key "loan" catalog_heap)).
    simpl. intuition discriminate.
  - apply (proj2 (generate_normal_sequence_key "risk" catalog_heap)).
    simpl. tauto.
Defined.

Lemma sequence_eqb_spec (a b : list string) : sequence_eqb a b = true <-> a = b.
Proof. unfold sequence_eqb. by destruct (List.list_eq_dec string_dec a b). Qed.

Lemma valid_flows_NoDup (q : string) (flows : dict loc) :
  dict_get VALID_FLOWS q = Some flows -> List.NoDup (keys flows).
Proof.
  intros Hq. apply dict_get_In in Hq. simpl in Hq.
  repeat (destruct Hq as [[= <- <-]|Hq]); try done;
    simpl; repeat constructor; simpl; intuition discriminate.
Qed.

Lemma valid_flows_keys_NoDup : List.NoDup (keys VALID_FLOWS).
Proof. simpl. repeat constructor; simpl; intuition discriminate. Qed.

(** Two flows of one process type hold different sequences. *)
Lemma catalog_variant_name_inj (p name name' : string) (s : list string) :
  catalog_variant p name s -> catalog_variant p name' s -> name = name'.
Proof.
  intros (flows & l & Hp & Hn & Hs) (flows' & l' & Hp' & Hn' & Hs').
  rewrite Hp in Hp'. injection Hp' as <-.
  apply dict_get_In in Hp. simpl in Hp.
  repeat (destruct Hp as [[= <- <-]|Hp]); try done;
    apply dict_get_In in Hn, Hn'; simpl in Hn, Hn';
    repeat (destruct Hn as [[= <- <-]|Hn]); try done;
    repeat (destruct Hn' as [[= <- <-]|Hn']); try done;
    injection Hs as <-; discriminate Hs'.
Qed.

(** A sequence of the catalog is stored under one process type and one flow
    name. *)
Lemma catalog_variant_inj (p p' name name' : string) (s : list string) :
  catalog_variant p name s -> catalog_variant p' name' s ->
  p = p' /\ name = name'.
Proof.
  intros Hv Hv'.
  assert (Hpp : p = p').
  { pose proof (catalog_variant_length _ _ _ Hv) as Hlen.
    destruct s as [|e s]; [simpl in Hlen; lia|].
    pose proof (detect_catalog_event _ _ _ e Hv ltac:(by left)) as H1.
    pose proof (detect_catalog_event _ _ _ e Hv' ltac:(by left)) as H2.
    congruence. }
  subst p'. split; [done|]. eapply catalog_variant_name_inj; eauto.
Qed.

Lemma Pr_ret {A} (a : A) h (E : result A * list (list string) -> bool) :
  (Pr ((mret a : M A) h) E == if E (Ok a, h) then 1 else 0)%Q.
Proof. unfold Pr. simpl. destruct (E _); ring. Qed.

Section NormalDistribution.

Variables (h : list (list string)) (p name : string) (s : list string).
Hypothesis Hintact : catalog_intact h.
Hypothesis Hvar : catalog_variant p name s.

(** The draw of a flow of process type [p'] returns [s] for one flow name
    when [p' = p] and for none otherwise. *)
Lemma Pr_normal_flow (p' : string) (flows : dict loc) :
  dict_get VALID_FLOWS p' = Some flows ->
  (Pr ((flow_name ← choice (keys flows);
        flow ← dict_getitem flows flow_name;
        sequence ← list_copy flow;
        mret (sequence, p')) h) (returns_sequence s)
   == if String.eqb p' p then 1 # Pos.of_nat (length flows) else 0)%Q.
Proof.
  intros Hflows.
  destruct (valid_flows_values _ _ Hflows) as [Hne _].
  assert (Hkne : keys flows <> []) by (unfold keys, values in *; by destruct flows).
  assert (Hterm : forall name', In name' (keys flows) ->
    (Pr ((flow ← dict_getitem flows name';
          sequence ← list_copy flow;
          mret (sequence, p')) h) (returns_sequence s)
     == if String.eqb p' p && String.eqb name' name then 1 else 0)%Q).
  { intros name' Hin. destruct (keys_dict_get _ _ Hin) as [l' Hl'].
    destruct (catalog_refs_valid _ _ _ _ Hflows Hl') as [s' Hs'].
    rewrite (bind_det _ _ h l' h) by (unfold dict_getitem; by rewrite Hl').
    rewrite (bind_det _ _ h (length h) (h ++ [deref h l'])) by done.
    rewrite Pr_ret. cbn [returns_sequence].
    rewrite (deref_lookup _ _ _ (fresh_lookup h (deref h l'))).
    rewrite (deref_lookup _ _ _ (Hintact _ _ Hs')).
    assert (Hv' : catalog_variant p' name' s') by (by exists flows, l').
    destruct (sequence_eqb s' s) eqn:Heq.
    - apply sequence_eqb_spec in Heq. subst s'.
      destruct (catalog_variant_inj _ _ _ _ _ Hv' Hvar) as [-> ->].
      by rewrite !String.eqb_refl.
    - destruct (String.eqb_spec p' p) as [->|_]; [|done].
      destruct (String.eqb_spec name' name) as [->|_]; [|done].
      destruct Hvar as (fl & l & Hp & Hn & Hs).
      rewrite Hflows in Hp. injection Hp as <-. rewrite Hl' in Hn.
      injection Hn as <-. rewrite Hs' in Hs. injection Hs as ->.
      assert (sequence_eqb s s = true) by (by apply sequence_eqb_spec).
      congruence. }
  rewrite Pr_bind_choice by done.
  assert (Hlen : length (keys flows) = length flows) by apply length_map.
  rewrite Hlen.
  destruct (String.eqb_spec p' p) as [->|Hne'].
  - destruct Hvar as (fl & l & Hp & Hn & Hs).
    rewrite Hflows in Hp. injection Hp as <-.
    rewrite (Qsum_one _ _ name).
    + rewrite Hterm by (eapply dict_get_key; eauto).
      rewrite String.eqb_refl. simpl. ring.
    + by eapply valid_flows_NoDup.
    + eapply dict_get_key; eauto.
    + intros name' Hin Hne'. rewrite Hterm by done.
      by rewrite (proj2 (String.eqb_neq name' name)), andb_false_r.
  - rewrite Qsum_zero; [ring|]. intros name' Hin. by rewrite Hterm.
Qed.

End NormalDistribution.

(** X7: [generate_normal_sequence] returns a given catalog sequence of
    process type [p] with probability [1/k] when called with [p], and with
    probability [1/(5k)] when called without a process type, [k] being the
    number of flows of [p]: the flows of a process type with fewer flows are
    each more frequent. *)
Theorem normal_sequence_frequency (p name : string) (s : list string)
    (flows : dict loc) h :
  catalog_intact h -> catalog_variant p name s ->
  dict_get VALID_FLOWS p = Some flows ->
  (Pr (generate_normal_sequence (Some p) h) (returns_sequence s)
   == 1 # Pos.of_nat (length flows))%Q /\
  (Pr (generate_normal_sequence None h) (returns_sequence s)
   == 1 # (5 * Pos.of_nat (length flows)))%Q.
Proof.
  intros Hh Hvar Hflows.
  assert (Hfrom : forall p',
    In p' (keys VALID_FLOWS) ->
    (Pr ((flows ← dict_getitem VALID_FLOWS p';
          flow_name ← choice (keys flows);
          flow ← dict_getitem flows flow_name;
          sequence ← list_copy flow;
          mret (sequence, p')) h) (returns_sequence s)
     == if String.eqb p' p then 1 # Pos.of_nat (length flows) else 0)%Q).
  { intros p' Hp'. destruct (keys_dict_get _ _ Hp') as [flows' Hflows'].
    rewrite (bind_det _ _ h flows' h) by (unfold dict_getitem; by rewrite Hflows').
    rewrite (Pr_normal_flow h p name s Hh Hvar p' flows' Hflows').
    destruct (String.eqb_spec p' p) as [->|_]; [|reflexivity].
    rewrite Hflows in Hflows'. by injection Hflows' as <-. }
  pose proof (catalog_variant_key _ _ _ Hvar) as Hkey.
  split.
  - unfold generate_normal_sequence. rewrite (bind_det _ _ h p h) by done.
    rewrite Hfrom by done. by rewrite String.eqb_refl.
  - unfold generate_normal_sequence. rewrite Pr_bind_choice by done.
    rewrite (Qsum_one _ _ p).
    + rewrite Hfrom by done. rewrite String.eqb_refl. reflexivity.
    + apply valid_flows_keys_NoDup.
    + done.
    + intros p' Hp' Hne. rewrite Hfrom by done.
      by rewrite (proj2 (String.eqb_neq p' p)).
Qed.

Lemma normal_sequence_frequency_witness :
  (Pr (generate_normal_sequence None catalog_heap)
      (returns_sequence ["OrderSubmitted"; "OrderRejected"]) == 1 # 20)%Q.
Proof.
  apply (normal_sequence_frequency "trade" "rejected"
           ["OrderSubmitted"; "OrderRejected"]
           [("normal", 0%nat); ("rejected", 1%nat); ("cancelled", 2%nat); ("partial", 3%nat)]
           catalog_heap).
  - apply catalog_intact_initial.
  - eexists _, 1%nat. split; [reflexivity|]. split; reflexivity.
  - reflexivity.
Defined.

(** ** The generator of anomalous sequences *)

Lemma in_bind_ret_inv {A B} (m : M A) (f : A -> B) h d r h' :
  In (d, (r, h')) ((m ≫= fun a => mret (f a)) h) ->
  exists d' r0,
    In (d', (r0, h')) (m h) /\
    r = match r0 with Ok a => Ok (f a) | Raise e => Raise e end.
Proof.
  unfold mbind, M_bind. intros Hin.
  apply in_flat_map in Hin as ([d0 [[a|e] h0]] & Hin0 & Hin1); simpl in Hin1;
    destruct Hin1 as [[= <- <- <-]|[]]; eauto.
Qed.

Lemma catalog_variant_length_ne3 (p name : string) (s : list string) :
  catalog_variant p name s -> Z.of_nat (length s) <> 3.
Proof.
  intros (flows & l & Hp & Hn & Hs).
  apply dict_get_In in Hp. simpl in Hp.
  repeat (destruct Hp as [[= <- <-]|Hp]); try done;
    apply dict_get_In in Hn; simpl in Hn;
    repeat (destruct Hn as [[= <- <-]|Hn]); try done;
    injection Hs as <-; simpl; lia.
Qed.

Lemma catalog_variant_NoDup (p name : string) (s : list string) :
  catalog_variant p name s -> NoDup s.
Proof.
  intros (flows & l & Hp & Hn & Hs).
  apply dict_get_In in Hp. simpl in Hp.
  repeat (destruct Hp as [[= <- <-]|Hp]); try done;
    apply dict_get_In in Hn; simpl in Hn;
    repeat (destruct Hn as [[= <- <-]|Hn]); try done;
    injection Hs as <-; apply NoDup_ListNoDup;
    repeat constructor; simpl; intuition discriminate.
Qed.

(** What [generate_anomalous_sequence] returns: it does not raise, the list
    it returns is new, and it holds a mutation of a catalog sequence of the
    returned process type. *)
Lemma generate_anomalous_sequence_shape h :
  catalog_intact h ->
  sat generate_anomalous_sequence h
      (fun r h' =>
         exists p name s k i s',
           r = Ok (length h, p, k, i) /\ catalog_variant p name s /\
           mutation p s k i s' /\ h' = <[length h := s']> (h ++ [s])).
Proof.
  intros Hh. eapply sat_mono; [by apply generate_anomalous_sequence_injects|].
  intros r h' (p & name & s & k0 & d & Hv & Hk0 & Hin).
  pose proof (fresh_lookup h s) as Hl.
  pose proof (catalog_variant_length _ _ _ Hv) as HN.
  pose proof (catalog_variant_length_ne3 _ _ _ Hv) as HN3.
  rewrite (inject_anomaly_unfold _ _ _ _ _ Hl) in Hin.
  apply in_bind_ret_inv in Hin as (d' & r0 & Hin & ->).
  exists p, name, s, (effective_kind s k0).
  unfold effective_kind in *.
  destruct (Z.ltb_spec (Z.of_nat (length s)) 3) as [Hshort|Hlong].
  - simpl in Hin.
    apply (inject_wrong_event_outcomes _ p (h ++ [s]) s
             (catalog_intact_alloc _ _ Hh) Hl HN) in Hin
      as (i & e & q & name' & s' & -> & Hi & Hq & Hvar' & He & ->).
    apply others_spec in Hq as [_ Hqp].
    exists i, (<[Z.to_nat i := e]> s). split_and!; try done.
    by eapply mutation_wrong_event.
  - simpl in Hk0. destruct Hk0 as [<-|[<-|[<-|[]]]]; simpl in Hin.
    + apply (inject_wrong_event_outcomes _ p (h ++ [s]) s
               (catalog_intact_alloc _ _ Hh) Hl HN) in Hin
        as (i & e & q & name' & s' & -> & Hi & Hq & Hvar' & He & ->).
      apply others_spec in Hq as [_ Hqp].
      exists i, (<[Z.to_nat i := e]> s). split_and!; try done.
      by eapply mutation_wrong_event.
    + rewrite (inject_skipped_step_long _ _ _ _ Hl ltac:(lia)) in Hin.
      apply in_map_iff in Hin as (i & Heq & Hi). injection Heq as _ <- <-.
      apply list_elem_of_In, elem_of_seqZ in Hi.
      exists i, (delete (Z.to_nat i) s). split_and!; try done.
      apply mutation_skipped_step; lia.
    + rewrite (inject_out_of_order_long _ _ _ _ Hl ltac:(lia)) in Hin.
      apply in_map_iff in Hin as (q & Heq & Hq). injection Heq as _ <- <-.
      apply list_elem_of_In, elem_of_seqZ in Hq.
      exists (q + 1), (swap_adjacent (Z.to_nat q) s). split_and!; try done.
      apply mutation_out_of_order; lia.
Qed.

(** A mutation of a catalog sequence is a different sequence that starts
    with the same event, and the position it comes with is a position of
    the mutated sequence other than the first. *)
Lemma mutation_facts (p name : string) (s : list string) (k : AnomalyType)
    (i : Z) (s' : list string) :
  catalog_variant p name s -> mutation p s k i s' ->
  s' <> s /\ 1 <= i < Z.of_nat (length s') /\ s' !! 0%nat = s !! 0%nat /\
  (k = SKIPPED_STEP /\ S (length s') = length s \/
   k <> SKIPPED_STEP /\ length s' = length s).
Proof.
  intros Hv Hm. destruct Hm as [i e q name' sq Hi Hqp Hvq He|i HN Hi|q HN Hq].
  - refine (conj _ (conj _ (conj _ _))).
    + intros Heq.
      apply (foreign_event_differs p name q name' s sq e (Z.to_nat i) Hv Hvq Hqp He
               ltac:(lia) (Z.to_nat i)); [done|]. by rewrite Heq.
    + rewrite length_insert. lia.
    + apply list_lookup_insert_ne. lia.
    + right. split; [done|]. apply length_insert.
  - assert (Hlen : S (length (delete (Z.to_nat i) s)) = length s).
    { rewrite length_delete by (apply lookup_lt_is_Some_2; lia). lia. }
    refine (conj _ (conj _ (conj _ _))).
    + intros Heq. rewrite Heq in Hlen. lia.
    + lia.
    + apply list_lookup_delete_lt. lia.
    + left. done.
  - destruct (swap_adjacent_spec (Z.to_nat q) s ltac:(lia)) as (Hlen & H1 & H2 & H3).
    refine (conj _ (conj _ (conj _ _))).
    + intros Heq. rewrite Heq in H1.
      destruct (lookup_lt_is_Some_2 s (Z.to_nat q)) as [x Hx]; [lia|].
      pose proof (catalog_variant_NoDup _ _ _ Hv) as Hnd.
      rewrite Hx in H1. symmetry in H1.
      pose proof (NoDup_lookup _ _ _ _ Hnd Hx H1). lia.
    + lia.
    + apply H3; lia.
    + right. done.
Qed.




Lemma catalog_member_spec (p name : string) (s : list string) :
  catalog_variant p name s -> catalog_member s = true.
Proof.
  intros (flows & l & _ & _ & Hs). unfold catalog_member.
  apply existsb_exists. exists s. split.
  - apply list_elem_of_In. eapply list_elem_of_lookup_2; eauto.
  - by apply sequence_eqb_spec.
Qed.

(** The family of a catalog sequence can be read off its first event. *)
Lemma catalog_variant_head (p name : string) (s : list string) (x : string) :
  catalog_variant p name s -> s !! 0%nat = Some x -> _detect_process_type x = Some p.
Proof.
  intros Hv Hx. eapply detect_catalog_event; [exact Hv|].
  apply list_elem_of_In. eapply list_elem_of_lookup_2; eauto.
Qed.

Lemma ex_in_bind_intro {A B} (m : M A) (k : A -> M B) h a h1 r h2 :
  (exists d, In (d, (Ok a, h1)) (m h)) ->
  (exists d, In (d, (r, h2)) (k a h1)) ->
  exists d, In (d, (r, h2)) ((m ≫= k) h).
Proof.
  intros [d1 H1] [d2 H2]. exists (d1 * d2)%positive. by eapply in_bind_intro.
Qed.

Lemma in_inject_anomaly (l : loc) (p : string) (k : AnomalyType) h s d pos h' :
  h !! l = Some s ->
  In (d, (Ok pos, h')) (inject_branch l p (effective_kind s k) h) ->
  In ((d * 1)%positive, (Ok (l, p, effective_kind s k, pos), h')) (inject_anomaly l p k h).
Proof.
  intros Hl Hin. rewrite (inject_anomaly_unfold _ _ _ _ _ Hl).
  eapply in_bind_intro; [exact Hin | by left].
Qed.

(** X9: a sequence returned by [generate_anomalous_sequence] is itself a
    sequence of the catalog in one case only: the partial trade flow with
    [OrderPartiallyFilled] removed is the normal trade flow.  This outcome
    occurs, labelled [SKIPPED_STEP] with position 3. *)
Theorem anomalous_sequence_valid_flow h :
  catalog_intact h ->
  (exists d h',
      In (d, (Ok (length h, "trade", SKIPPED_STEP, 3), h')) (generate_anomalous_sequence h) /\
      h' !! length h = Some ["OrderSubmitted"; "OrderValidated"; "OrderRouted"; "OrderFilled";
                             "TradeBooked"; "TradeSettled"; "TradeConfirmed"]) /\
  sat generate_anomalous_sequence h
      (fun r h' =>
         forall s' p' name',
           h' !! length h = Some s' -> catalog_variant p' name' s' ->
           r = Ok (length h, "trade", SKIPPED_STEP, 3) /\
           p' = "trade" /\ name' = "normal").
Proof.
  intros Hh. split.
  - set (partial := ["OrderSubmitted"; "OrderValidated"; "OrderRouted";
                     "OrderPartiallyFilled"; "OrderFilled"; "TradeBooked";
                     "TradeSettled"; "TradeConfirmed"]).
    assert (Hpartial : h !! 3%nat = Some partial) by (by apply Hh).
    pose proof (fresh_lookup h partial) as Hl.
    assert (Hex : exists d,
              In (d, (Ok (length h, "trade", SKIPPED_STEP, 3),
                      <[length h := delete 3%nat partial]> (h ++ [partial])))
                 (generate_anomalous_sequence h)).
    { unfold generate_anomalous_sequence.
      apply ex_in_bind_intro with "trade" h;
        [eexists; apply (in_choice _ "trade"); simpl; tauto|].
      apply ex_in_bind_intro with
        [("normal", 0%nat); ("rejected", 1%nat); ("cancelled", 2%nat); ("partial", 3%nat)] h;
        [eexists; by left|].
      apply ex_in_bind_intro with "partial" h;
        [eexists; apply (in_choice _ "partial"); simpl; tauto|].
      apply ex_in_bind_intro with 3%nat h; [eexists; by left|].
      apply ex_in_bind_intro with (length h) (h ++ [partial]);
        [eexists; unfold list_copy; rewrite (deref_lookup _ _ _ Hpartial); by left|].
      apply ex_in_bind_intro with SKIPPED_STEP (h ++ [partial]);
        [eexists; apply (in_choice _ SKIPPED_STEP); simpl; tauto|].
      eexists.
      apply (in_inject_anomaly (length h) "trade" SKIPPED_STEP (h ++ [partial])
               partial (Z.to_pos (Z.of_nat (length partial) - 2)) 3 _ Hl).
      change (effective_kind partial SKIPPED_STEP) with SKIPPED_STEP.
      simpl inject_branch.
      rewrite (inject_skipped_step_long _ _ _ _ Hl ltac:(simpl; lia)).
      apply in_map_iff. exists 3. split; [reflexivity|].
      apply list_elem_of_In, elem_of_seqZ. simpl. lia. }
    destruct Hex as [d Hd].
    exists d, (<[length h := delete 3%nat partial]> (h ++ [partial])). split; [exact Hd|].
    apply list_lookup_insert_eq. rewrite length_app. simpl. lia.
  - eapply sat_mono; [by apply generate_anomalous_sequence_shape|].
    intros r h' (p & name & s & k & i & s' & -> & Hv & Hm & ->) s2 p' name' Hs2 Hv'.
    rewrite list_lookup_insert_eq in Hs2 by (rewrite length_app; simpl; lia).
    injection Hs2 as <-.
    destruct (mutation_facts _ _ _ _ _ _ Hv Hm) as (_ & _ & H0 & _).
    pose proof (catalog_variant_length _ _ _ Hv) as HN.
    destruct (lookup_lt_is_Some_2 s 0) as [x Hx]; [lia|].
    pose proof (catalog_variant_head _ _ _ _ Hv Hx) as Hpx.
    rewrite Hx in H0. pose proof (catalog_variant_head _ _ _ _ Hv' H0) as Hpx'.
    assert (p' = p) by congruence. subst p'.
    destruct Hm as [i e q nq sq Hi Hqp Hvq He|i HN3 Hi|q HN2 Hq].
    + exfalso. apply Hqp.
      pose proof (detect_catalog_event _ _ _ _ Hvq He) as H1.
      assert (Hin : In e (<[Z.to_nat i := e]> s)).
      { apply list_elem_of_In. eapply list_elem_of_lookup_2.
        apply list_lookup_insert_eq. lia. }
      pose proof (detect_catalog_event _ _ _ _ Hv' Hin) as H2. congruence.
    + apply catalog_member_spec in Hv' as Hmem.
      destruct Hv as (flows & l & Hp & Hn & Hs).
      apply dict_get_In in Hp. simpl in Hp.
      repeat (destruct Hp as [[= <- <-]|Hp]); try done;
        apply dict_get_In in Hn; simpl in Hn;
        repeat (destruct Hn as [[= <- <-]|Hn]); try done;
        injection Hs as <-; simpl in HN3, Hi; try lia;
        (assert (Hcases : In i (seqZ 1 6)) by (apply list_elem_of_In, elem_of_seqZ; lia));
        vm_compute in Hcases;
        repeat (destruct Hcases as [<-|Hcases]; [try lia; try (vm_compute in Hmem; discriminate Hmem)|]);
        try done.
      split; [done|]. split; [done|].
      eapply catalog_variant_name_inj; [exact Hv'|].
      eexists _, 0%nat. split; [reflexivity|]. split; reflexivity.
    + apply catalog_member_spec in Hv' as Hmem.
      destruct Hv as (flows & l & Hp & Hn & Hs).
      apply dict_get_In in Hp. simpl in Hp.
      repeat (destruct Hp as [[= <- <-]|Hp]); try done;
        apply dict_get_In in Hn; simpl in Hn;
        repeat (destruct Hn as [[= <- <-]|Hn]); try done;
        injection Hs as <-; simpl in HN2, Hq; try lia;
        (assert (Hcases : In q (seqZ 1 6)) by (apply list_elem_of_In, elem_of_seqZ; lia));
        vm_compute in Hcases;
        repeat (destruct Hcases as [<-|Hcases]; [try lia; try (vm_compute in Hmem; discriminate Hmem)|]);
        done.
Qed.

Lemma anomalous_sequence_valid_flow_witness :
  exists d h',
    In (d, (Ok (length catalog_heap, "trade", SKIPPED_STEP, 3), h'))
       (generate_anomalous_sequence catalog_heap) /\
    h' !! length catalog_heap
    = Some ["OrderSubmitted"; "OrderValidated"; "OrderRouted"; "OrderFilled";
            "TradeBooked"; "TradeSettled"; "TradeConfirmed"].
Proof.
  apply (anomalous_sequence_valid_flow catalog_heap). apply catalog_intact_initial.
Defined.

(** ** Anomalous sequences under a perfect predictor *)

Lemma analyze_event_fields (predict : list string -> string)
    (history : list string) (actual : string) :
  event_predicted (analyze_event predict history actual) = predict history /\
  event_observed (analyze_event predict history actual) = actual.
Proof.
  unfold analyze_event. destruct (negb _); [|done].
  by destruct (negb _ && _ && _).
Qed.






(** ** A whole benchmark run *)

Lemma sat_and {A} (m : M A) h (P1 P2 : result A -> list (list string) -> Prop) :
  sat m h P1 -> sat m h P2 -> sat m h (fun r h' => P1 r h' /\ P2 r h').
Proof. intros H1 H2 d r h' Hin. split; eauto. Qed.

(** A loop whose body does not raise and steps an invariant indexed by the
    number of iterations done. *)
Lemma sat_for_each_ok {A B} (xs : list A) (body : A -> B -> M B)
    (I : nat -> B -> list (list string) -> Prop) (k0 : nat) (acc : B) h :
  I k0 acc h ->
  (forall k x acc0 h0, I k acc0 h0 ->
     sat (body x acc0) h0 (fun r h' => exists acc', r = Ok acc' /\ I (S k) acc' h')) ->
  sat (for_each xs body acc) h
      (fun r h' => exists acc', r = Ok acc' /\ I (k0 + length xs)%nat acc' h').
Proof.
  intros Hinit Hbody. revert k0 acc h Hinit.
  induction xs as [|x xs IH]; intros k0 acc h Hinit; simpl.
  - apply sat_ret. exists acc. by rewrite Nat.add_0_r.
  - apply sat_bind. eapply sat_mono; [by apply Hbody|].
    intros r h' (acc' & -> & Hacc'). simpl.
    eapply sat_mono; [by apply IH|].
    intros r h'' (acc'' & -> & Hacc''). exists acc''. split; [done|].
    by replace (k0 + S (length xs))%nat with (S k0 + length xs)%nat by lia.
Qed.

Lemma filter_length_Permutation {A} (f : A -> bool) (l l' : list A) :
  l ≡ₚ l' -> length (List.filter f l) = length (List.filter f l').
Proof.
  induction 1 as [|x l l' _ IH|x y l|l1 l2 l3 _ IH1 _ IH2]; simpl.
  - done.
  - destruct (f x); simpl; by rewrite IH.
  - by destruct (f x), (f y).
  - by rewrite IH1.
Qed.

Lemma filter_length_app {A} (f : A -> bool) (l : list A) (x : A) :
  length (List.filter f (l ++ [x]))
  = (length (List.filter f l) + if f x then 1 else 0)%nat.
Proof.
  rewrite List.filter_app, length_app. simpl. by destruct (f x).
Qed.

(** The first loop of [run_benchmark]: [n] test cases labelled normal. *)
Lemma normal_cases_loop (n : nat) h :
  catalog_intact h ->
  sat (for_each (seq 0 n)
         (fun _ test_cases =>
            '(sequence, process_type) ← generate_normal_sequence None;
            mret (test_cases ++ [{| tc_sequence := sequence;
                                    tc_process_type := process_type;
                                    tc_has_anomaly := false;
                                    tc_anomaly_type := None;
                                    tc_anomaly_position := None |}])) [])
      h
      (fun r h' =>
         exists test_cases,
           r = Ok test_cases /\ catalog_intact h' /\
           length (List.filter tc_has_anomaly test_cases) = 0%nat /\
           length (List.filter (fun tc => negb (tc_has_anomaly tc)) test_cases) = n).
Proof.
  intros Hh. eapply sat_mono.
  { apply (sat_for_each_ok _ _
             (fun k tcs h' =>
                catalog_intact h' /\
                length (List.filter tc_has_anomaly tcs) = 0%nat /\
                length (List.filter (fun tc => negb (tc_has_anomaly tc)) tcs) = k) 0%nat);
      [done|].
    intros k _ tcs h0 (Hh0 & Ha & Hn). apply sat_bind.
    eapply sat_mono;
      [apply sat_and; [by apply generate_normal_sequence_spec
                      |by apply (generate_normal_sequence_ok None)]|].
    intros r h' [[Hh' _] [[l p] ->]]. simpl. apply sat_ret.
    eexists. split; [reflexivity|]. split; [done|].
    rewrite !filter_length_app. simpl. lia. }
  intros r h1 (tcs1 & -> & Hh1 & Ha1 & Hn1). rewrite length_seq in Hn1.
  by exists tcs1.
Qed.

(** The second loop: [m] test cases labelled anomalous are added. *)
Lemma anomalous_cases_loop (m n : nat) (test_cases : list TestCase) h :
  catalog_intact h ->
  length (List.filter tc_has_anomaly test_cases) = 0%nat ->
  length (List.filter (fun tc => negb (tc_has_anomaly tc)) test_cases) = n ->
  sat (for_each (seq 0 m)
         (fun _ test_cases =>
            '(sequence, process_type, anomaly_type, anomaly_pos) ← generate_anomalous_sequence;
            mret (test_cases ++ [{| tc_sequence := sequence;
                                    tc_process_type := process_type;
                                    tc_has_anomaly := true;
                                    tc_anomaly_type := Some anomaly_type;
                                    tc_anomaly_position := Some anomaly_pos |}])) test_cases)
      h
      (fun r h' =>
         exists test_cases',
           r = Ok test_cases' /\ catalog_intact h' /\
           length (List.filter tc_has_anomaly test_cases') = m /\
           length (List.filter (fun tc => negb (tc_has_anomaly tc)) test_cases') = n).
Proof.
  intros Hh Ha0 Hn0. eapply sat_mono.
  { apply (sat_for_each_ok _ _
             (fun k tcs h' =>
                catalog_intact h' /\
                length (List.filter tc_has_anomaly tcs) = k /\
                length (List.filter (fun tc => negb (tc_has_anomaly tc)) tcs) = n) 0%nat);
      [done|].
    intros k _ tcs h0 (Hh0 & Ha & Hn). apply sat_bind.
    eapply sat_mono;
      [apply sat_and; [by apply generate_anomalous_sequence_spec
                      |by apply generate_anomalous_sequence_shape]|].
    intros r h' [[Hh' _] (p & name & s & k' & i & s' & -> & _)]. simpl. apply sat_ret.
    eexists. split; [reflexivity|]. split; [done|].
    rewrite !filter_length_app. simpl. lia. }
  intros r h2 (tcs2 & -> & Hh2 & Ha2 & Hn2). rewrite length_seq in Ha2.
  by exists tcs2.
Qed.

(** The third loop: the counters of the confusion matrix after the test
    cases are scored, the store being read only. *)
Lemma scoring_loop_sat (predict : list string -> string)
    (test_cases : list TestCase) (results : Results) h :
  sat (for_each test_cases (run_test_case predict) results) h
      (fun r h' =>
         h' = h /\
         exists results',
           r = Ok results' /\
           true_positives results' + false_negatives results'
           = true_positives results + false_negatives results
             + Z.of_nat (length (List.filter tc_has_anomaly test_cases)) /\
           false_positives results' + true_negatives results'
           = false_positives results + true_negatives results
             + Z.of_nat (length (List.filter (fun tc => negb (tc_has_anomaly tc))
                                             test_cases)) /\
           length (details results')
           = (length (details results) + length test_cases)%nat).
Proof.
  revert results. induction test_cases as [|tc tcs IH]; intros results.
  - apply sat_ret. split; [done|]. exists results. simpl. split; [done|]. lia.
  - cbn [for_each]. apply sat_bind.
    destruct (run_test_case_run predict tc results h) as (ds & _ & Hrun).
    intros d r h' Hin. rewrite Hrun in Hin. destruct Hin as [[= <- <- <-]|[]].
    cbn [after].
    pose proof (score_counters results (tc_has_anomaly tc) ds) as Hs. cbv zeta in Hs.
    destruct Hs as (Ha & Hb & _ & _ & _ & _ & Hg).
    eapply sat_mono; [apply IH|].
    intros r h' (-> & res' & -> & H1 & H2 & H3). split; [done|].
    exists res'. split; [done|].
    unfold append_detail in H1, H2, H3.
    cbn [true_positives false_positives true_negatives false_negatives details] in *.
    rewrite length_app, Hg in H3. cbn [length] in H3.
    cbn [List.filter]. destruct (tc_has_anomaly tc); cbn [negb length]; lia.
Qed.

(** X11: a benchmark run has an outcome.  With no test case ([num_normal]
    and [num_anomalous] not positive) it ends in [ZeroDivisionError], raised
    by the accuracy.  Every other run returns, whatever the predictor
    answers and whatever is drawn: TP+FN is the number of anomalous test cases asked
    for, FP+TN the number of normal ones, there is one detail record per
    test case, and the catalog is as before. *)
Theorem run_benchmark_outcome (predict : list string -> string)
    (num_normal num_anomalous : Z) h :
  catalog_intact h ->
  run_benchmark predict num_normal num_anomalous h <> [] /\
  sat (run_benchmark predict num_normal num_anomalous) h
      (fun r h' =>
         catalog_intact h' /\
         if (Z.max 0 num_normal + Z.max 0 num_anomalous =? 0)
         then r = Raise ZeroDivisionError
         else exists results metrics,
             r = Ok (results, metrics) /\
             true_positives results + false_negatives results = Z.max 0 num_anomalous /\
             false_positives results + true_negatives results = Z.max 0 num_normal /\
             Z.of_nat (length (details results))
             = Z.max 0 num_normal + Z.max 0 num_anomalous).
Proof.
  intros Hh. split; [apply run_benchmark_has_outcome|].
  unfold run_benchmark.
  apply sat_bind. eapply sat_mono; [by apply normal_cases_loop|].
  intros r h1 (tcs1 & -> & Hh1 & Ha1 & Hn1). cbn [after].
  apply sat_bind. eapply sat_mono; [by eapply anomalous_cases_loop|].
  intros r h2 (tcs2 & -> & Hh2 & Ha2 & Hn2). cbn [after].
  apply sat_bind, sat_choice.
  { intros Hnil. pose proof (permutations_refl tcs2) as Hin.
    rewrite Hnil in Hin. by apply elem_of_nil in Hin. }
  intros tcs3 Hperm. cbn [after].
  apply list_elem_of_In, permutations_Permutation in Hperm.
  rewrite (filter_length_Permutation tc_has_anomaly _ _ Hperm) in Ha2.
  rewrite (filter_length_Permutation (fun tc => negb (tc_has_anomaly tc)) _ _ Hperm) in Hn2.
  apply sat_bind. eapply sat_mono; [apply scoring_loop_sat|].
  intros r h3 (-> & res & -> & Hpos & Hneg & Hdet). cbn [after].
  cbn [initial_results true_positives false_positives true_negatives
       false_negatives details length] in Hpos, Hneg, Hdet.
  assert (Hlen : length tcs3
                 = (length (List.filter tc_has_anomaly tcs3)
                    + length (List.filter (fun tc => negb (tc_has_anomaly tc)) tcs3))%nat).
  { clear. induction tcs3 as [|tc tcs IH]; simpl; [done|].
    destruct (tc_has_anomaly tc); simpl; lia. }
  apply sat_bind, sat_lift.
  unfold compute_metrics.
  destruct (pynum_ratio_ok (true_positives res)
              (true_positives res + false_positives res)) as [p ->].
  destruct (pynum_ratio_ok (true_positives res)
              (true_positives res + false_negatives res)) as [rc ->].
  unfold mbind at 1 2, result_bind. destruct (pynum_f1_ok p rc) as [f ->].
  cbn [mbind result_bind py_truediv pynum_PyArith of_int pynum_is_zero].
  destruct (Z.eqb_spec (true_positives res + true_negatives res
                        + false_positives res + false_negatives res) 0) as [Hz|Hnz].
  - cbn [after]. split; [done|].
    rewrite (proj2 (Z.eqb_eq _ 0)) by lia. done.
  - cbn [after]. apply sat_ret. split; [done|].
    rewrite (proj2 (Z.eqb_neq _ 0)) by lia.
    eexists _, _. split; [reflexivity|]. lia.
Qed.

Lemma run_benchmark_outcome_witness :
  run_benchmark (fun _ => "OrderValidated") 0 0 catalog_heap <> [] /\
  sat (run_benchmark (fun _ => "OrderValidated") 0 0) catalog_heap
      (fun r h' => catalog_intact h' /\ r = Raise ZeroDivisionError).
Proof.
  apply (run_benchmark_outcome (fun _ => "OrderValidated") 0 0 catalog_heap).
  apply catalog_intact_initial.
Defined.

(** ** The generators return copies *)



(** ** Counters and detail records *)

Lemma recorded_decisions (predict : list string -> string) (events : list string)
    (decisions : list AgentDecision) :
  monitor_sequence predict events = Ok decisions ->
  let recorded := map (fun d => (event_predicted d, event_observed d, is_anomaly d))
                      decisions in
  Forall (fun x => x.2 = negb (String.eqb x.1.1 x.1.2)) recorded /\
  existsb (fun x => x.2) recorded = existsb is_anomaly decisions.
Proof.
  rewrite monitor_sequence_total. intros [= <-]. cbv zeta. split.
  - apply Forall_forall. intros x Hx.
    apply list_elem_of_In, in_map_iff in Hx as (d & <- & Hd).
    apply in_map_iff in Hd as (i & <- & _). cbn [fst snd].
    destruct (analyze_event_fields predict (take i events)
                (default EmptyString (events !! i))) as [-> ->].
    apply analyze_event_is_anomaly.
  - generalize (map (fun i => analyze_event predict (take i events)
                                (default EmptyString (events !! i)))
                    (seq 1 (length events - 1))).
    intros ds. induction ds as [|d ds IH]; simpl; [done|]. by rewrite IH.
Qed.

Lemma label_count_app (label : string) (results : Results) (test_case : TestCase)
    (decisions : list AgentDecision) (result_type : string) :
  label_count label (append_detail results test_case decisions result_type)
  = label_count label results + (if String.eqb result_type label then 1 else 0).
Proof.
  unfold label_count, append_detail. cbn [details].
  rewrite List.filter_app, length_app. cbn [List.filter d_result].
  destruct (String.eqb result_type label); simpl; lia.
Qed.

Lemma run_test_case_consistent (predict : list string -> string)
    (test_case : TestCase) (results : Results) (events : list string)
    (decisions : list AgentDecision) :
  monitor_sequence predict events = Ok decisions ->
  results_consistent results ->
  results_consistent
    (append_detail (score results (tc_has_anomaly test_case) decisions).1
                   test_case decisions
                   (score results (tc_has_anomaly test_case) decisions).2).
Proof.
  intros Hds (Htp & Hfp & Htn & Hfn & Hdet).
  destruct (recorded_decisions _ _ _ Hds) as [Hrec Hex]. cbv zeta in Hrec, Hex.
  unfold results_consistent. rewrite !label_count_app.
  assert (Hnew : detail_consistent
            {| d_sequence := tc_sequence test_case;
               d_has_anomaly := tc_has_anomaly test_case;
               d_anomaly_type := option_map AnomalyType_value (tc_anomaly_type test_case);
               d_agent_detected := existsb is_anomaly decisions;
               d_result := (score results (tc_has_anomaly test_case) decisions).2;
               d_decisions := map (fun d => (event_predicted d, event_observed d,
                                             is_anomaly d)) decisions |}).
  { unfold detail_consistent. cbn [d_decisions d_agent_detected d_result d_has_anomaly].
    split; [done|]. split; [done|]. unfold score.
    by destruct (tc_has_anomaly test_case), (existsb is_anomaly decisions). }
  assert (Hall : Forall detail_consistent
                   (details (append_detail
                               (score results (tc_has_anomaly test_case) decisions).1
                               test_case decisions
                               (score results (tc_has_anomaly test_case) decisions).2))).
  { unfold append_detail. cbn [details]. apply Forall_app. split; [|by constructor].
    unfold score.
    by destruct (tc_has_anomaly test_case), (existsb is_anomaly decisions). }
  split_and!; [..|done];
    unfold score, append_detail, label_count in *;
    destruct (tc_has_anomaly test_case), (existsb is_anomaly decisions);
    cbn [true_positives false_positives true_negatives false_negatives details
         fst snd andb negb String.eqb Ascii.eqb Bool.eqb] in *; lia.
Qed.

Lemma first_flagged_consistent (detail : Detail) :
  detail_consistent detail -> d_result detail = "TP" ->
  exists predicted observed,
    first_flagged detail = Ok (predicted, observed, true) /\ predicted <> observed.
Proof.
  intros (Hrec & Hdet & Hres) Htp.
  assert (Hex : existsb (fun x => x.2) (d_decisions detail) = true).
  { rewrite <- Hdet. rewrite Htp in Hres.
    by destruct (d_has_anomaly detail), (d_agent_detected detail). }
  unfold first_flagged. clear Hdet Hres Htp.
  induction Hrec as [|[[p o] a] ds Hx _ IH]; [done|].
  cbn [List.filter snd fst] in *. destruct a.
  - exists p, o. split; [done|]. intros ->. by rewrite String.eqb_refl in Hx.
  - apply IH. by simpl in Hex.
Qed.

(** Scoring with a predictor that answers on every history keeps the
    results record consistent, and every record labelled [TP] then holds a
    flagged decision. *)
Lemma answering_loop_consistent (predict : list string -> string)
    (test_cases : list TestCase) (results : Results) h :
  results_consistent results ->
  for_each test_cases (run_test_case predict) results h <> [] /\
  sat (for_each test_cases (run_test_case predict) results) h
      (fun r h' =>
         exists results',
           r = Ok results' /\ results_consistent results' /\
           forall detail,
             In detail (details results') -> d_result detail = "TP" ->
             exists predicted observed,
               first_flagged detail = Ok (predicted, observed, true) /\
               predicted <> observed).
Proof.
  intros Hres. split.
  { apply for_each_outcome. intros tc acc h'.
    destruct (run_test_case_run predict tc acc h') as (ds & _ & ->). done. }
  revert results Hres. induction test_cases as [|tc tcs IH]; intros results Hres.
  - apply sat_ret. exists results. split; [done|]. split; [done|].
    intros detail Hin Htp. apply first_flagged_consistent; [|done].
    destruct Hres as (_ & _ & _ & _ & Hall).
    rewrite Forall_forall in Hall. by apply Hall, list_elem_of_In.
  - cbn [for_each]. apply sat_bind.
    destruct (run_test_case_run predict tc results h) as (ds & Hds & Hrun).
    intros d r h' Hin. rewrite Hrun in Hin. destruct Hin as [[= <- <- <-]|[]].
    cbn [after]. apply IH. by eapply run_test_case_consistent.
Qed.

(** ** The predictor's answer *)

Lemma append_nil_r (s : string) : (s ++ EmptyString)%string = s.
Proof. induction s as [|c s IH]; simpl; [done|by rewrite IH]. Qed.

Lemma append_assoc (a b c : string) : ((a ++ b) ++ c)%string = (a ++ b ++ c)%string.
Proof. induction a as [|x a IH]; simpl; [done|by rewrite IH]. Qed.

Lemma append_eq_nil (a b : string) :
  (a ++ b)%string = EmptyString -> a = EmptyString /\ b = EmptyString.
Proof. by destruct a. Qed.

Lemma all_chars_app (P : ascii -> bool) (a b : string) :
  all_chars P (a ++ b) = all_chars P a && all_chars P b.
Proof.
  induction a as [|c a IH]; simpl; [done|]. rewrite IH. by destruct (P c).
Qed.

Lemma lstrip_app_all (P : ascii -> bool) (a b : string) :
  all_chars P a = true -> lstrip P (a ++ b) = lstrip P b.
Proof.
  induction a as [|c a IH]; simpl; [done|].
  intros [Hc Ha]%andb_prop. rewrite Hc. auto.
Qed.

Lemma lstrip_decomp (P : ascii -> bool) (s : string) :
  exists pre, s = (pre ++ lstrip P s)%string /\ all_chars P pre = true /\
              (lstrip P s = EmptyString \/
               exists c r, lstrip P s = String c r /\ P c = false).
Proof.
  induction s as [|c s (pre & Hs & Hpre & Hhd)]; simpl.
  - exists EmptyString. auto.
  - destruct (P c) eqn:Hc.
    + exists (String c pre). simpl. rewrite <- Hs, Hc. auto.
    + exists EmptyString. split_and!; [done..|]. right. eauto.
Qed.

Lemma rstrip_all (P : ascii -> bool) (s : string) :
  all_chars P s = true -> rstrip P s = EmptyString.
Proof.
  induction s as [|c s IH]; simpl; [done|].
  intros [Hc Hs]%andb_prop. by rewrite IH, Hc.
Qed.

Lemma rstrip_app (P : ascii -> bool) (a b : string) :
  rstrip P (a ++ b) = match rstrip P b with
                      | EmptyString => rstrip P a
                      | r => (a ++ r)%string
                      end.
Proof.
  induction a as [|c a IH]; simpl.
  - by destruct (rstrip P b).
  - rewrite IH. destruct (rstrip P b); [done|]. by destruct a.
Qed.

Lemma rstrip_no_end (P : ascii -> bool) (s : string) :
  (forall q c, s = (q ++ String c EmptyString)%string -> P c = false) ->
  rstrip P s = s.
Proof.
  induction s as [|c s IH]; simpl; [done|]. intros Hend.
  destruct s as [|c' s'].
  - simpl. by rewrite (Hend EmptyString c).
  - rewrite IH; [done|]. intros q x Hq. apply (Hend (String c q) x). simpl. by rewrite Hq.
Qed.

Lemma rstrip_decomp (P : ascii -> bool) (s : string) :
  exists suf, s = (rstrip P s ++ suf)%string /\ all_chars P suf = true /\
              forall q c, rstrip P s = (q ++ String c EmptyString)%string -> P c = false.
Proof.
  induction s as [|c s (suf & Hs & Hsuf & Hend)]; simpl.
  - exists EmptyString. split_and!; [done..|]. intros [|??] ?; discriminate.
  - destruct (rstrip P s) as [|c' r] eqn:Hr.
    + simpl in Hs. subst suf. destruct (P c) eqn:Hc.
      * exists (String c s). simpl. rewrite Hc. split_and!; [done..|].
        intros [|??] ?; discriminate.
      * exists s. simpl. split_and!; [done..|].
        intros [|? [|??]] x; simpl; intros [=]; by subst.
    + exists suf. simpl in *. rewrite <- Hs. split_and!; [done..|].
      intros [|x q] y; simpl; [discriminate|]. intros [= -> Hq]. eauto.
Qed.

Lemma rstrip_first (P : ascii -> bool) (s : string) (c : ascii) (r : string) :
  rstrip P s = String c r -> exists s', s = String c s'.
Proof.
  destruct s as [|x s]; simpl; [discriminate|].
  destruct (rstrip P s); [destruct (P x)|]; intros [=]; subst; eauto.
Qed.

Lemma no_space_last (w q : string) (c : ascii) :
  all_chars (fun c => negb (isspace c)) w = true ->
  w = (q ++ String c EmptyString)%string -> isspace c = false.
Proof.
  intros Hw ->. rewrite all_chars_app in Hw. simpl in Hw.
  apply andb_prop in Hw as [_ Hc]. by destruct (isspace c).
Qed.

Lemma split_from_word (w r word : string) :
  all_chars (fun c => negb (isspace c)) w = true ->
  split_from (w ++ r) word = split_from r (word ++ w).
Proof.
  revert word. induction w as [|c w IH]; intros word; simpl.
  - by rewrite append_nil_r.
  - intros [Hc Hw]%andb_prop. destruct (isspace c); [done|].
    rewrite IH by done. by rewrite append_assoc.
Qed.

Lemma word_decomp (s : string) :
  exists w r, s = (w ++ r)%string /\
              all_chars (fun c => negb (isspace c)) w = true /\
              (r = EmptyString \/ exists c r', r = String c r' /\ isspace c = true).
Proof.
  induction s as [|c s (w & r & Hs & Hw & Hr)].
  - exists EmptyString, EmptyString. auto.
  - destruct (isspace c) eqn:Hc.
    + exists EmptyString, (String c s). split_and!; [done..|]. right. eauto.
    + exists (String c w), r. simpl. rewrite <- Hs, Hc. auto.
Qed.

Lemma punctuation_no_space (s : string) :
  all_chars punctuation s = true -> all_chars (fun c => negb (isspace c)) s = true.
Proof.
  induction s as [|c s IH]; simpl; [done|]. intros [Hc Hs]%andb_prop.
  rewrite IH by done. rewrite andb_true_r.
  unfold punctuation, in_chars in Hc. simpl in Hc.
  repeat (apply orb_prop in Hc as [Hc|Hc];
          [apply Ascii.eqb_eq in Hc; by subst|]).
  discriminate.
Qed.

(** The clean-up of one generated text (lines 198-200), as [predict_next_event]
    performs it. *)
Lemma clean_cleaned (text p : string) :
  cleaned text p ->
  (prediction ← match str_strip text with
                | EmptyString => Ok EmptyString
                | _ => match str_split (str_strip text) !! 0%nat with
                       | Some word => Ok word
                       | None => Raise IndexError
                       end
                end;
   Ok (rstrip (in_chars ".,;:") prediction)) = Ok p.
Proof.
  intros [ws punct rest -> Hws Hp Hend Hpunct Hrest].
  fold punctuation in *.
  assert (Hw : all_chars (fun c => negb (isspace c)) (p ++ punct) = true).
  { rewrite all_chars_app, Hp. by apply punctuation_no_space. }
  assert (Hclean : rstrip punctuation (p ++ punct) = p).
  { rewrite rstrip_app, rstrip_all by done. by apply rstrip_no_end. }
  unfold str_strip. rewrite lstrip_app_all by done.
  rewrite <- append_assoc.
  destruct (p ++ punct)%string as [|c w] eqn:Hpw.
  - destruct Hrest as [->|[[] _]]; [|done].
    apply append_eq_nil in Hpw as [-> ->]. done.
  - assert (Hc : isspace c = false).
    { simpl in Hw. apply andb_prop in Hw as [Hc _]. by destruct (isspace c). }
    assert (Hlstrip : lstrip isspace (String c w ++ rest) = (String c w ++ rest)%string).
    { simpl. by rewrite Hc. }
    rewrite Hlstrip, rstrip_app.
    assert (Hsplit : forall r, (r = EmptyString \/
                                exists c' r', r = String c' r' /\ isspace c' = true) ->
                               str_split (String c w ++ r) !! 0%nat = Some (String c w)).
    { intros r Hr. unfold str_split. rewrite split_from_word by done. simpl.
      destruct Hr as [->|(c' & r' & -> & Hc')]; simpl; [done|]. by rewrite Hc'. }
    destruct (rstrip isspace rest) as [|c' r'] eqn:Hrr.
    + assert (Hrw : rstrip isspace (String c w) = String c w).
      { apply rstrip_no_end. intros q x Hq. eapply no_space_last; eauto. }
      rewrite Hrw. pose proof (Hsplit EmptyString (or_introl eq_refl)) as Hs.
      rewrite append_nil_r in Hs. rewrite Hs. cbn [mbind result_bind]. by rewrite Hclean.
    + assert (Hr' : isspace c' = true).
      { destruct (rstrip_first _ _ _ _ Hrr) as [s' ->].
        destruct Hrest as [?|(_ & x & y & [= -> ->] & Hx)]; done. }
      rewrite Hsplit by eauto. cbn [append mbind result_bind]. by rewrite Hclean.
Qed.

(** Every text has a cleaned answer. *)
Lemma cleaned_exists (text : string) : exists p, cleaned text p.
Proof.
  destruct (lstrip_decomp isspace text) as (ws & Htext & Hws & Hhd).
  destruct (word_decomp (lstrip isspace text)) as (w & rest & Ht & Hw & Hrest).
  destruct (rstrip_decomp punctuation w) as (punct & Hwp & Hpunct & Hend).
  exists (rstrip punctuation w). apply (cleaned_intro _ _ ws punct rest).
  - rewrite <- (append_assoc (rstrip punctuation w)), <- Hwp, <- Ht. done.
  - done.
  - rewrite Hwp, all_chars_app in Hw. by apply andb_prop in Hw as [? _].
  - done.
  - done.
  - rewrite <- Hwp. destruct Hrest as [->|(c & r & -> & Hc)]; [by left|].
    right. split; [|eauto]. intros ->. simpl in Ht.
    destruct Hhd as [Hn|(c' & r' & Hn & Hc')]; rewrite Hn in Ht; [done|].
    injection Ht as -> ->. congruence.
Qed.

(** The answer is unique. *)
Lemma cleaned_unique (text p p' : string) : cleaned text p -> cleaned text p' -> p = p'.
Proof.
  intros H1%clean_cleaned H2%clean_cleaned. rewrite H1 in H2. by injection H2.
Qed.

Lemma predict_next_event_output (pipe : list Message -> list string)
    (event_history : list string) (text : string) (others : list string) (p : string) :
  pipe (prompt_messages event_history) = text :: others ->
  cleaned text p ->
  predict_next_event pipe event_history = Ok p.
Proof.
  intros Hpipe Hp. unfold predict_next_event. rewrite Hpipe.
  cbn [lookup list_lookup mbind result_bind]. by apply clean_cleaned.
Qed.

Lemma predict_next_event_cleaned (pipe : list Message -> list string)
    (event_history : list string) (text : string) (others : list string) (p : string) :
  pipe (prompt_messages event_history) = text :: others ->
  predict_next_event pipe event_history = Ok p ->
  cleaned text p.
Proof.
  intros Hpipe Hrun. destruct (cleaned_exists text) as [p' Hp'].
  rewrite (predict_next_event_output _ _ _ _ _ Hpipe Hp') in Hrun.
  by injection Hrun as <-.
Qed.

(** X12: [predict_next_event] raises [IndexError] when the pipeline returns
    no output.  Otherwise it returns, the indexing [split()[0]] never
    failing, and what it returns depends on the first generated text only:
    leading whitespace is dropped, the answer is the first run of
    characters that are not whitespace, without the characters [.,;:] at
    its end, and whatever follows is ignored.  An answer holds no
    whitespace and does not end in one of [.,;:]. *)
Theorem predict_next_event_spec (pipe : list Message -> list string)
    (event_history : list string) :
  (pipe (prompt_messages event_history) = [] ->
   predict_next_event pipe event_history = Raise IndexError) /\
  (forall text others,
      pipe (prompt_messages event_history) = text :: others ->
      (exists p, predict_next_event pipe event_history = Ok p) /\
      (forall p, predict_next_event pipe event_history = Ok p <-> cleaned text p)).
Proof.
  split.
  - intros Hpipe. unfold predict_next_event. by rewrite Hpipe.
  - intros text others Hpipe. split.
    + destruct (cleaned_exists text) as [p Hp]. exists p.
      eapply predict_next_event_output; eauto.
    + intros p. split.
      * by eapply predict_next_event_cleaned.
      * by eapply predict_next_event_output.
Qed.

Lemma predict_next_event_spec_witness :
  predict_next_event (fun _ => []) ["OrderSubmitted"] = Raise IndexError /\
  (exists p, predict_next_event (fun _ => [" OrderValidated. Then OrderRouted"])
                                ["OrderSubmitted"] = Ok p) /\
  (forall p, predict_next_event (fun _ => [" OrderValidated. Then OrderRouted"])
                                ["OrderSubmitted"] = Ok p
             <-> cleaned " OrderValidated. Then OrderRouted" p).
Proof.
  split.
  - apply (proj1 (predict_next_event_spec (fun _ => []) ["OrderSubmitted"])).
    reflexivity.
  - apply (proj2 (predict_next_event_spec
                    (fun _ => [" OrderValidated. Then OrderRouted"]) ["OrderSubmitted"])
                 " OrderValidated. Then OrderRouted" []).
    reflexivity.
Defined.

(** X13: the agent in front of the pipeline.  When the predictor's answer on
    a history is the one [predict_next_event] computes from the generated
    text, the observed event is accepted (no anomaly) exactly when the text
    is the event name, after optional whitespace and before optional
    [.,;:] and an optional whitespace-led remainder.  An observed event
    whose name holds whitespace or ends in one of [.,;:] is flagged
    whatever the model answers. *)
Theorem analyze_event_accepts_cleaned (pipe : list Message -> list string)
    (predict : list string -> string) (event_history : list string)
    (actual_event text : string) (others : list string) :
  pipe (prompt_messages event_history) = text :: others ->
  predict_next_event pipe event_history = Ok (predict event_history) ->
  (is_anomaly (analyze_event predict event_history actual_event) = false
   <-> cleaned text actual_event) /\
  (all_chars (fun c => negb (isspace c)) actual_event = false ->
   is_anomaly (analyze_event predict event_history actual_event) = true) /\
  (forall q c, actual_event = (q ++ String c EmptyString)%string ->
               punctuation c = true ->
               is_anomaly (analyze_event predict event_history actual_event) = true).
Proof.
  intros Hpipe Hrun.
  pose proof (predict_next_event_cleaned _ _ _ _ _ Hpipe Hrun) as Hp.
  rewrite analyze_event_is_anomaly.
  destruct (String.eqb_spec (predict event_history) actual_event) as [Heq|Hne]; simpl.
  - rewrite <- Heq. split_and!.
    + done.
    + destruct Hp as [? ? ? _ _ Hns _ _ _]. congruence.
    + intros q c Hq Hc. destruct Hp as [? ? ? _ _ _ Hend _ _].
      rewrite (Hend q c Hq) in Hc. done.
  - split_and!; [|done..]. split; [done|]. intros Ha.
    destruct Hne. by eapply cleaned_unique.
Qed.

Lemma analyze_event_accepts_cleaned_witness :
  (is_anomaly (analyze_event (fun _ => "OrderValidated") ["OrderSubmitted"]
                             "OrderValidated") = false
   <-> cleaned " OrderValidated. Then OrderRouted" "OrderValidated") /\
  (all_chars (fun c => negb (isspace c)) "OrderValidated" = false ->
   is_anomaly (analyze_event (fun _ => "OrderValidated") ["OrderSubmitted"]
                             "OrderValidated") = true) /\
  (forall q c, "OrderValidated" = (q ++ String c EmptyString)%string ->
               punctuation c = true ->
               is_anomaly (analyze_event (fun _ => "OrderValidated") ["OrderSubmitted"]
                                         "OrderValidated") = true).
Proof.
  apply (analyze_event_accepts_cleaned
           (fun _ => [" OrderValidated. Then OrderRouted"])
           (fun _ => "OrderValidated") ["OrderSubmitted"] "OrderValidated"
           " OrderValidated. Then OrderRouted" []).
  - reflexivity.
  - reflexivity.
Defined.

(** ** Scoring in front of the pipeline *)

Lemma predict_next_event_answer (pipe : list Message -> list string)
    (event_history : list string) :
  pipe (prompt_messages event_history) <> [] ->
  predict_next_event pipe event_history = Ok (answer pipe event_history).
Proof.
  intros Hout. destruct (pipe (prompt_messages event_history)) as [|text others] eqn:Hpipe;
    [done|].
  destruct (cleaned_exists text) as [p Hp].
  pose proof (predict_next_event_output _ _ _ _ _ Hpipe Hp) as Hrun.
  unfold answer. by rewrite Hrun.
Qed.

Lemma predict_next_event_silent (pipe : list Message -> list string)
    (event_history : list string) :
  pipe (prompt_messages event_history) = [] ->
  predict_next_event pipe event_history = Raise IndexError.
Proof. intros Hpipe. unfold predict_next_event. by rewrite Hpipe. Qed.

Lemma pipeline_monitor_loop_cases (pipe : list Message -> list string)
    (events : list string) (range : list nat) :
  Forall (fun i => (i < length events)%nat) range ->
  forall acc,
    Forall (fun i => pipe (prompt_messages (take i events)) <> []) range /\
    pipeline_monitor_loop pipe events range acc
    = monitor_loop (answer pipe) events range acc
    \/
    Exists (fun i => pipe (prompt_messages (take i events)) = []) range /\
    pipeline_monitor_loop pipe events range acc = Raise IndexError.
Proof.
  induction 1 as [|i range Hi _ IH]; intros acc.
  - left. split; [constructor|done].
  - destruct (lookup_lt_is_Some_2 events i Hi) as [actual Hactual].
    cbn [pipeline_monitor_loop monitor_loop]. rewrite Hactual.
    unfold pipeline_analyze_event.
    destruct (pipe (prompt_messages (take i events))) as [|text others] eqn:Hpipe.
    + right. split; [by left|].
      by rewrite (predict_next_event_silent _ _ Hpipe).
    + assert (Hout : pipe (prompt_messages (take i events)) <> []) by by rewrite Hpipe.
      rewrite (predict_next_event_answer _ _ Hout). cbn [mbind result_bind].
      rewrite (analyze_event_ext (fun _ => answer pipe (take i events)) (answer pipe))
        by done.
      destruct (IH (acc ++ [analyze_event (answer pipe) (take i events) actual]))
        as [[Hall ->]|[Hex ->]].
      * left. split; [constructor; [by rewrite Hpipe|done]|done].
      * right. split; [by right|done].
Qed.

Lemma pipeline_monitor_sequence_cases (pipe : list Message -> list string)
    (events : list string) :
  answers_on pipe events /\
  pipeline_monitor_sequence pipe events = monitor_sequence (answer pipe) events
  \/
  silent_on pipe events /\ pipeline_monitor_sequence pipe events = Raise IndexError.
Proof.
  unfold pipeline_monitor_sequence, monitor_sequence.
  destruct (pipeline_monitor_loop_cases pipe events (seq 1 (length events - 1))) with (acc := @nil AgentDecision)
    as [[Hall Hrun]|[Hex Hrun]].
  - apply Forall_forall. intros i Hi%elem_of_seq. lia.
  - left. split; [|done]. intros i Hi. rewrite Forall_forall in Hall.
    apply Hall, elem_of_seq. lia.
  - right. split; [|done]. apply Exists_exists in Hex as (i & Hi%elem_of_seq & Hpipe).
    exists i. split; [lia|done].
Qed.

Lemma pipeline_run_test_case_cases (pipe : list Message -> list string)
    (test_case : TestCase) (results : Results) h :
  answers_on pipe (deref h (tc_sequence test_case)) /\
  pipeline_run_test_case pipe test_case results h
  = run_test_case (answer pipe) test_case results h
  \/
  silent_on pipe (deref h (tc_sequence test_case)) /\
  pipeline_run_test_case pipe test_case results h
  = [(1%positive, (Raise IndexError, h))].
Proof.
  unfold pipeline_run_test_case, run_test_case, mbind, M_bind, list_read, lift.
  cbn [flat_map app scale map].
  destruct (pipeline_monitor_sequence_cases pipe (deref h (tc_sequence test_case)))
    as [[Hall ->]|[Hex ->]]; [by left|by right].
Qed.

Lemma answers_not_silent (pipe : list Message -> list string) (events : list string) :
  answers_on pipe events -> silent_on pipe events -> False.
Proof. intros Hall (i & Hi & Hpipe). by apply (Hall i Hi). Qed.

(** The scoring loop in front of the pipeline: one outcome, which is the
    one of the loop with the answering predictor when the pipeline answers
    on every test case, and [IndexError] when it is silent on one. *)
Lemma pipeline_scoring_loop (pipe : list Message -> list string)
    (test_cases : list TestCase) (results : Results) h :
  exists r,
    for_each test_cases (pipeline_run_test_case pipe) results h
    = [(1%positive, (r, h))] /\
    match r with
    | Ok results' =>
        Forall (fun tc => answers_on pipe (deref h (tc_sequence tc))) test_cases /\
        for_each test_cases (run_test_case (answer pipe)) results h
        = [(1%positive, (Ok results', h))]
    | Raise e =>
        e = IndexError /\
        Exists (fun tc => silent_on pipe (deref h (tc_sequence tc))) test_cases
    end.
Proof.
  revert results. induction test_cases as [|tc tcs IH]; intros results.
  - exists (Ok results). split; [done|]. split; [constructor|done].
  - cbn [for_each].
    destruct (pipeline_run_test_case_cases pipe tc results h) as [[Hall Hrun]|[Hex Hrun]].
    + destruct (run_test_case_run (answer pipe) tc results h) as (ds & _ & Hrun').
      rewrite <- Hrun in Hrun'.
      rewrite (bind_det _ _ _ _ _ Hrun'). rewrite Hrun in Hrun'.
      rewrite (bind_det _ _ _ _ _ Hrun').
      destruct (IH (append_detail (score results (tc_has_anomaly tc) ds).1 tc ds
                                  (score results (tc_has_anomaly tc) ds).2))
        as ([results'|e] & Hloop & Hr).
      * exists (Ok results'). split; [done|]. destruct Hr as [Hall' Hloop'].
        split; [by constructor|done].
      * exists (Raise e). split; [done|]. destruct Hr as [-> Hex].
        split; [done|by right].
    + exists (Raise IndexError). split.
      * unfold mbind, M_bind. rewrite Hrun. done.
      * split; [done|by left].
Qed.

Lemma answers_all_not_silent (pipe : list Message -> list string)
    (test_cases : list TestCase) h :
  Forall (fun tc => answers_on pipe (deref h (tc_sequence tc))) test_cases ->
  Exists (fun tc => silent_on pipe (deref h (tc_sequence tc))) test_cases -> False.
Proof.
  intros Hall Hex. apply Exists_exists in Hex as (tc & Hin & Hs).
  rewrite Forall_forall in Hall. eapply answers_not_silent; eauto.
Qed.

(** X3: the scoring loop, with the predictor of the class, has one outcome
    and leaves the store as it is.  It raises [IndexError] exactly when
    the pipeline returns no output on a history consulted for one of the
    test cases.  Otherwise it returns, and has added to the confusion
    matrix exactly the test cases: TP+FN has grown by the number of cases
    labelled anomalous, FP+TN by the number of the others, no counter has
    decreased, and one detail record is appended per case. *)
Theorem scoring_loop_counts (pipe : list Message -> list string)
    (test_cases : list TestCase) (results : Results) h :
  exists r,
    for_each test_cases (pipeline_run_test_case pipe) results h
    = [(1%positive, (r, h))] /\
    (Forall (fun tc => answers_on pipe (deref h (tc_sequence tc))) test_cases ->
     exists results', r = Ok results') /\
    match r with
    | Ok results' =>
        Forall (fun tc => answers_on pipe (deref h (tc_sequence tc))) test_cases /\
        true_positives results' + false_negatives results'
        = true_positives results + false_negatives results
          + Z.of_nat (length (List.filter tc_has_anomaly test_cases)) /\
        false_positives results' + true_negatives results'
        = false_positives results + true_negatives results
          + Z.of_nat (length (List.filter (fun tc => negb (tc_has_anomaly tc))
                                          test_cases)) /\
        true_positives results <= true_positives results' /\
        false_positives results <= false_positives results' /\
        true_negatives results <= true_negatives results' /\
        false_negatives results <= false_negatives results' /\
        length (details results') = (length (details results) + length test_cases)%nat
    | Raise e =>
        e = IndexError /\
        Exists (fun tc => silent_on pipe (deref h (tc_sequence tc))) test_cases
    end.
Proof.
  destruct (pipeline_scoring_loop pipe test_cases results h) as (r & Hloop & Hr).
  exists r. split; [done|]. split.
  - intros Hall. destruct r as [results'|e]; [by exists results'|].
    destruct Hr as [_ Hex]. destruct (answers_all_not_silent _ _ _ Hall Hex).
  - destruct r as [results'|e]; [|done]. destruct Hr as [Hall Htotal].
    split; [done|].
    destruct (answering_loop_counts (answer pipe) test_cases results h)
      as (results'' & Hrun & Hcounts).
    rewrite Htotal in Hrun. by injection Hrun as <-.
Qed.

(** X14: the scoring loop, with the predictor of the class, keeps the
    results record consistent.  Started from counters that are the numbers
    of detail records with their label (as the initial record is), it
    either raises [IndexError], the pipeline having returned no output, or
    returns a record with such counters, in which every recorded decision
    is flagged exactly when its predicted and observed names differ, and
    [agent_detected] and the label of every record follow from its
    decisions and its ground truth.  So every record labelled [TP] of a
    returned record holds a flagged decision: the report's [[...][0]] does
    not raise.  When the pipeline answers on every test case, the loop
    returns. *)
Theorem scoring_loop_consistent (pipe : list Message -> list string)
    (test_cases : list TestCase) (results : Results) h :
  results_consistent results ->
  for_each test_cases (pipeline_run_test_case pipe) results h <> [] /\
  sat (for_each test_cases (pipeline_run_test_case pipe) results) h
      (fun r h' =>
         match r with
         | Ok results' =>
             results_consistent results' /\
             forall detail,
               In detail (details results') -> d_result detail = "TP" ->
               exists predicted observed,
                 first_flagged detail = Ok (predicted, observed, true) /\
                 predicted <> observed
         | Raise e => e = IndexError
         end) /\
  (Forall (fun tc => answers_on pipe (deref h (tc_sequence tc))) test_cases ->
   exists results',
     for_each test_cases (pipeline_run_test_case pipe) results h
     = [(1%positive, (Ok results', h))]).
Proof.
  intros Hres.
  destruct (pipeline_scoring_loop pipe test_cases results h) as (r & Hloop & Hr).
  split; [by rewrite Hloop|]. split.
  - unfold sat. rewrite Hloop. intros d r' h' [[= <- <- <-]|[]].
    destruct r as [results'|e]; [|by destruct Hr].
    destruct Hr as [_ Htotal].
    destruct (answering_loop_consistent (answer pipe) test_cases results h Hres)
      as [_ Hsat].
    destruct (Hsat 1%positive (Ok results') h) as (results'' & [= <-] & Hcons & Hflag).
    { rewrite Htotal. by left. }
    done.
  - intros Hall. rewrite Hloop. destruct r as [results'|e]; [by exists results'|].
    destruct Hr as [_ Hex]. destruct (answers_all_not_silent _ _ _ Hall Hex).
Qed.

Lemma scoring_loop_consistent_witness :
  for_each [{| tc_sequence := 0%nat; tc_process_type := "trade";
               tc_has_anomaly := true; tc_anomaly_type := Some WRONG_EVENT;
               tc_anomaly_position := Some 1 |}]
           (pipeline_run_test_case (fun _ => [" OrderValidated. "]))
           initial_results catalog_heap <> [] /\
  sat (for_each [{| tc_sequence := 0%nat; tc_process_type := "trade";
                    tc_has_anomaly := true; tc_anomaly_type := Some WRONG_EVENT;
                    tc_anomaly_position := Some 1 |}]
                (pipeline_run_test_case (fun _ => [" OrderValidated. "]))
                initial_results)
      catalog_heap
      (fun r h' =>
         match r with
         | Ok results' =>
             results_consistent results' /\
             forall detail,
               In detail (details results') -> d_result detail = "TP" ->
               exists predicted observed,
                 first_flagged detail = Ok (predicted, observed, true) /\
                 predicted <> observed
         | Raise e => e = IndexError
         end) /\
  (Forall (fun tc => answers_on (fun _ => [" OrderValidated. "])
                                (deref catalog_heap (tc_sequence tc)))
          [{| tc_sequence := 0%nat; tc_process_type := "trade";
              tc_has_anomaly := true; tc_anomaly_type := Some WRONG_EVENT;
              tc_anomaly_position := Some 1 |}] ->
   exists results',
     for_each [{| tc_sequence := 0%nat; tc_process_type := "trade";
                  tc_has_anomaly := true; tc_anomaly_type := Some WRONG_EVENT;
                  tc_anomaly_position := Some 1 |}]
              (pipeline_run_test_case (fun _ => [" OrderValidated. "]))
              initial_results catalog_heap
     = [(1%positive, (Ok results', catalog_heap))]).
Proof.
  apply (scoring_loop_consistent (fun _ => [" OrderValidated. "])
           [{| tc_sequence := 0%nat; tc_process_type := "trade";
               tc_has_anomaly := true; tc_anomaly_type := Some WRONG_EVENT;
               tc_anomaly_position := Some 1 |}] initial_results catalog_heap).
  unfold results_consistent. simpl. split_and!; [reflexivity..|constructor].
Defined.
